(** * depfunc: a dependency graph of actions resolved concurrently

    A shallow embedding of the Go package [depfunc]: the string set and
    multimap helpers, the [Graph] registry with its two adjacency maps,
    the root finder, the synchronous depth-first traversal of [Resolve],
    the goroutines it launches (as an interleaving step function over
    their program points) and the [Statistics] recorder. *)

From Stdlib Require Import ZArith Lia.
From stdpp Require Import base option list sets gmap strings relations.

Local Open Scope string_scope.
Local Open Scope list_scope.
Local Open Scope Z_scope.

(** ** Errors

    The package builds every error with [errors.New(msg)]. *)

Inductive error : Type :=
| errors_New (msg : string).

Definition err_name_empty : error := errors_New "name must not be empty".
Definition err_action_not_added : error := errors_New "action not added".
Definition err_parent_empty : error := errors_New "parent name must not be empty".
Definition err_parent_not_added : error := errors_New "parent action not added".
Definition err_cycle : error := errors_New "cycle detected".
Definition err_no_roots : error := errors_New "no roots in graph".

(** ** StringSet and stringmultimap *)

Module StringSet.
(** [type StringSet map[string]struct{}] *)
Definition t : Type := gset string.

Definition Contains (ss : gset string) (s : string) : bool := bool_decide (s ∈ ss).
Definition Add (ss : gset string) (s : string) : gset string := {[ s ]} ∪ ss.
Definition Remove (ss : gset string) (s : string) : gset string := ss ∖ {[ s ]}.
(** [len(ss)] *)
Definition len (ss : gset string) : Z := Z.of_nat (size ss).

(** The double quote written around every element. *)
Definition quote : string := String.String (Ascii.ascii_of_nat 34) EmptyString.

(** The loop of [String]: [i] counts the elements from 1 and a comma
    follows every element but the [len(ss)]-th. *)
Fixpoint String_loop (len i : nat) (keys : list string) (buf : string) : string :=
  match keys with
  | [] => buf
  | s :: keys =>
    let buf := (buf ++ quote ++ s ++ quote)%string in
    let buf := if (i <? len)%nat then (buf ++ ",")%string else buf in
    String_loop len (S i) keys buf
  end.

(** [String]: the elements in the order [range] yields them, quoted,
    between braces. *)
Definition String (range : gset string → list string) (ss : gset string) : string :=
  (String_loop (size ss) 1 (range ss) "{" ++ "}")%string.
End StringSet.

Module stringmultimap.
(** [type stringmultimap map[string]StringSet] *)
Definition t : Type := gmap string (gset string).

(** [m[key]]: a missing key reads as the nil set, which has length 0
    and ranges over nothing. *)
Definition get (m : gmap string (gset string)) (key : string) : gset string := default ∅ (m !! key).

(** [Add]: fetch the set of [key], create and store it when it is nil,
    then add [value] to it. *)
Definition Add (m : gmap string (gset string)) (key value : string)
  : gmap string (gset string) :=
  <[ key := StringSet.Add (get m key) value ]> m.
End stringmultimap.

Module stringstack.
(** [type stringstack struct { stack []string }] *)
Record t : Type := mk { stack : list string }.

Definition Push (ss : t) (s : string) : t := {| stack := stack ss ++ [s] |}.

(** [Pop] reads [ss.stack[l-1]] and shortens the slice by one; on an
    empty stack the index is out of range and Go panics ([None]).  The
    slot it clears lies beyond the new length. *)
Definition Pop (ss : t) : option (string * t) :=
  match length (stack ss) with
  | O => None
  | S l => top ← stack ss !! l; Some (top, {| stack := take l (stack ss) |})
  end.

Definition Top (ss : t) : option string :=
  match length (stack ss) with
  | O => None
  | S l => stack ss !! l
  end.
End stringstack.

(** ** The graph *)

Section Graph.
(** [type Action func(ctx context.Context, arg interface{})]: opaque to
    the graph, which only stores and invokes it. *)
Variable Action : Type.

Record Graph : Type := mkGraph {
  (* name -> the names it depends on (its prerequisites) *)
  treeOrder : gmap string (gset string);
  (* name -> the names that depend on it (its dependents) *)
  graphOrder : gmap string (gset string);
  actions : gmap string Action
}.

Definition NewGraph : Graph :=
  {| treeOrder := ∅; graphOrder := ∅; actions := ∅ |}.

(** [AddAction] mutates the receiver and returns an error; the model
    returns the graph after the call together with the error. *)
Definition AddAction (g : Graph) (name : string) (action : Action)
  : Graph * option error :=
  if decide (name = "") then (g, Some err_name_empty)
  else ({| treeOrder := treeOrder g;
           graphOrder := graphOrder g;
           actions := <[ name := action ]> (actions g) |}, None).

Definition LinkDependency (g : Graph) (parent name : string)
  : Graph * option error :=
  if decide (name = "") then (g, Some err_name_empty)
  else if decide (actions g !! name = None) then (g, Some err_action_not_added)
  else if decide (parent = "") then (g, Some err_parent_empty)
  else if decide (actions g !! parent = None) then (g, Some err_parent_not_added)
  else ({| treeOrder := stringmultimap.Add (treeOrder g) name parent;
           graphOrder := stringmultimap.Add (graphOrder g) parent name;
           actions := actions g |}, None).

(** The prerequisites and the dependents of a name, as the code reads
    them: [g.treeOrder[name]] and [g.graphOrder[name]]. *)
Definition prerequisites (g : Graph) (name : string) : gset string :=
  stringmultimap.get (treeOrder g) name.
Definition dependents (g : Graph) (name : string) : gset string :=
  stringmultimap.get (graphOrder g) name.
End Graph.

Arguments mkGraph {Action}.
Arguments treeOrder {Action}.
Arguments graphOrder {Action}.
Arguments actions {Action}.
Arguments NewGraph {Action}.
Arguments AddAction {Action}.
Arguments LinkDependency {Action}.
Arguments prerequisites {Action}.
Arguments dependents {Action}.

(** ** Iteration order and the caller's signal

    Go ranges over a map in an unspecified order, and the caller's
    context can be cancelled at any moment.  Both are inputs of the
    model: [rangeSet name X] is the order in which the set [X] read
    under [name] is ranged over, [rangeActions X] the order in which the
    keys of [g.actions] come, and [parentDone k] tells whether the
    caller's context is seen done at the [k]-th poll of the traversal. *)

Record Env : Type := mkEnv {
  rangeSet : string → gset string → list string;
  rangeActions : gset string → list string;
  parentDone : nat → bool
}.

Definition env_ok (E : Env) : Prop :=
  (∀ name X, rangeSet E name X ≡ₚ elements X) ∧
  (∀ X, rangeActions E X ≡ₚ elements X).

(** The caller's context is never cancelled while [Resolve] traverses,
    respectively is already done when [Resolve] is called. *)
Definition live (E : Env) : Prop := ∀ k, parentDone E k = false.
Definition cancelled (E : Env) : Prop := ∀ k, parentDone E k = true.

(** The order of the sets themselves, with a given caller's signal. *)
Definition sortedEnv (done : bool) : Env :=
  {| rangeSet := λ _ X, elements X;
     rangeActions := λ X, elements X;
     parentDone := λ _, done |}.

(** ** Statistics *)

Module Statistics.
(** [time.Time] is a clock reading in nanoseconds and [time.Duration]
    an [int64] count of nanoseconds; [Time.Sub] saturates. *)
Definition maxDuration : Z := 2 ^ 63 - 1.
Definition minDuration : Z := - 2 ^ 63.

Definition Sub (b a : Z) : Z :=
  if decide (maxDuration < b - a) then maxDuration
  else if decide (b - a < minDuration) then minDuration
  else b - a.

Record t : Type := mk {
  enter : gmap string Z;
  start : gmap string Z;
  finish : gmap string Z;
  exit : gmap string Z
}.

Definition NewStatistics : t :=
  {| enter := ∅; start := ∅; finish := ∅; exit := ∅ |}.

Definition duration (from to : gmap string Z) (name : string) : Z :=
  match to !! name with
  | None => 0
  | Some b =>
    match from !! name with
    | None => 0
    | Some a => Sub b a
    end
  end.

Definition Action (s : t) (name : string) : Z := duration (start s) (finish s) name.
Definition Wait (s : t) (name : string) : Z := duration (enter s) (start s) name.
Definition Total (s : t) (name : string) : Z := duration (enter s) (exit s) name.

(** The recorder of a [Statistics] shares its four maps;
    [recordTime] stores [time.Now()] under the name. *)
Definition recordTime (m : gmap string Z) (name : string) (now : Z) : gmap string Z :=
  <[ name := now ]> m.

Definition Enter (s : t) (name : string) (now : Z) : t :=
  {| enter := recordTime (enter s) name now; start := start s;
     finish := finish s; exit := exit s |}.
Definition Start (s : t) (name : string) (now : Z) : t :=
  {| enter := enter s; start := recordTime (start s) name now;
     finish := finish s; exit := exit s |}.
Definition Finish (s : t) (name : string) (now : Z) : t :=
  {| enter := enter s; start := start s;
     finish := recordTime (finish s) name now; exit := exit s |}.
Definition Exit (s : t) (name : string) (now : Z) : t :=
  {| enter := enter s; start := start s;
     finish := finish s; exit := recordTime (exit s) name now |}.

(** [addKeys] adds the keys of a map to a set, in the order [range]
    yields them; [Names] collects the keys of the four maps. *)
Definition addKeys (range : gset string → list string) (ss : gset string)
    (m : gmap string Z) : gset string :=
  foldl StringSet.Add ss (range (dom m)).

Definition Names (range : gset string → list string) (s : t) : gset string :=
  addKeys range (addKeys range (addKeys range (addKeys range ∅ (enter s)) (start s))
                         (finish s)) (exit s).
End Statistics.

(** ** Goroutines

    [visit] launches one goroutine per visited name.  A goroutine is at
    one of the program points of the closure in [visit] (lines 152-168)
    followed by its two deferred calls, [visitComplete] and
    [recorder.Exit].  The flag of the last four points tells on which
    path the deferred calls run: [true] after the action, [false] after
    a return or fall-through on a done context. *)

Inductive pc : Type :=
| PEnter                                  (* recorder.Enter(name) *)
| PDfsWait                                (* s.dfsWait.Wait() *)
| PCheck1                                 (* if s.searchContextDone() { return } *)
| PWait                                   (* wg.Wait() *)
| PCheck2                                 (* if !s.searchContextDone() *)
| PStart                                  (* recorder.Start(name) *)
| PCall                                   (* action(s.ctx, s.arg) is called *)
| PRunning                                (* ... and returns *)
| PFinish                                 (* recorder.Finish(name) *)
| PWgDone (ran : bool)                    (* visitComplete: s.wg.Done() *)
| PNotify (ran : bool) (rem : gset string) (* visitComplete: for parent := range parents *)
| PExit (ran : bool)                      (* recorder.Exit(name) *)
| PEnd (ran : bool).

Inductive main_pc : Type :=
| MDone                                   (* done() on an error path *)
| MGo                                     (* go func() { s.wg.Wait(); done() }() *)
| MDefer                                  (* the deferred s.dfsWait.Done() *)
| MReturned.

Inductive watcher_pc : Type :=
| WNone                                   (* not launched *)
| WWait                                   (* s.wg.Wait() *)
| WDone                                   (* done() *)
| WEnd.

Section Session.
Variable Action : Type.

Record goroutine : Type := mkGoroutine {
  g_name : string;
  (* g.actions[name], read by [visit]; nil when the name has no action *)
  g_action : option Action;
  g_pc : pc
}.

(** What an observer of the session sees. *)
Inductive event : Type :=
| EvEnter (name : string)
| EvStart (name : string)
| EvCall (name : string) (a : Action)
| EvReturn (name : string)
| EvFinish (name : string)
| EvExit (name : string).

(** *** The search data of one [Resolve] call

    [waits], [visited], [path] and [wg] are the fields of the Go struct
    ([wg] is the counter of the wait group); [spawned] lists the
    goroutines launched so far, newest first, and [polls] counts the
    calls of [searchContextDone].  A name is visited at most once in
    a graph built through the API (lemma [traverse_spec] below), so the
    wait group a goroutine captures is the one [waits] holds under its
    name, and [waits] maps a name to the counter of its wait group. *)
Record search : Type := mkSearch {
  waits : gmap string Z;
  visited : gset string;
  path : gset string;
  wg : Z;
  spawned : list goroutine;
  polls : nat
}.

Definition newSearch : search :=
  {| waits := ∅; visited := ∅; path := ∅; wg := 0; spawned := []; polls := 0 |}.

Variable E : Env.
Variable g : Graph Action.

Definition searchContextDone (s : search) : bool * search :=
  (parentDone E (polls s),
   {| waits := waits s; visited := visited s; path := path s; wg := wg s;
      spawned := spawned s; polls := S (polls s) |}).

(** [createWaitGroupForDependents] and the synchronous part of
    [visit]: the wait group of [name] counts its prerequisites, [s.wg]
    is incremented and the goroutine is launched. *)
Definition visit (s : search) (name : string) : search :=
  {| waits := <[ name := StringSet.len (prerequisites g name) ]> (waits s);
     visited := visited s;
     path := path s;
     wg := wg s + 1;
     spawned := {| g_name := name; g_action := actions g !! name; g_pc := PEnter |}
                :: spawned s;
     polls := polls s |}.

Definition enter_node (s : search) (name : string) : search :=
  {| waits := waits s;
     visited := StringSet.Add (visited s) name;
     path := StringSet.Add (path s) name;
     wg := wg s; spawned := spawned s; polls := polls s |}.

Definition leave_node (s : search) (name : string) : search :=
  {| waits := waits s; visited := visited s;
     path := StringSet.Remove (path s) name;
     wg := wg s; spawned := spawned s; polls := polls s |}.

(** The loop of [dfsResolve] over the prerequisites of a name; [rec]
    is the recursive call.  [None] stands for a traversal that ran out
    of fuel. *)
Fixpoint dfsChildren (rec : search → string → option (search * option error))
    (children : list string) (s : search) : option (search * option error) :=
  match children with
  | [] => Some (s, None)
  | child :: rest =>
    if StringSet.Contains (path s) child then Some (s, Some err_cycle)
    else if StringSet.Contains (visited s) child then dfsChildren rec rest s
    else
      let '(done, s) := searchContextDone s in
      if done then dfsChildren rec rest s
      else
        match rec s child with
        | Some (s, None) => dfsChildren rec rest s
        | r => r
        end
  end.

Fixpoint dfsResolve (fuel : nat) (s : search) (name : string)
  : option (search * option error) :=
  match fuel with
  | O => None
  | S fuel =>
    let s := visit (enter_node s name) name in
    match dfsChildren (dfsResolve fuel) (rangeSet E name (prerequisites g name)) s with
    | Some (s, None) => Some (leave_node s name, None)
    | r => r
    end
  end.

(** [collectRoots]: the names of [g.actions] with no dependent, in the
    order the map yields them. *)
Definition collectRoots : list string :=
  filter (λ name, StringSet.len (dependents g name) = 0)
         (rangeActions E (dom (actions g))).

(** Every name the traversal can meet. *)
Definition universe : gset string :=
  dom (actions g) ∪ dom (treeOrder g) ∪ ⋃ (snd <$> map_to_list (treeOrder g)).

Definition fuelFor : nat := S (size universe).

Fixpoint dfsRoots (roots : list string) (s : search) : option (search * option error) :=
  match roots with
  | [] => Some (s, None)
  | root :: rest =>
    match dfsResolve fuelFor s root with
    | Some (s, None) => dfsRoots rest s
    | r => r
    end
  end.

(** The traversal of [Resolve] (lines 73-101): the search data it
    leaves and the error it is about to return. *)
Definition traverse : option (search * option error) :=
  let roots := collectRoots in
  match dfsRoots roots newSearch with
  | Some (s, None) =>
    if bool_decide (roots = []) then Some (s, Some err_no_roots) else Some (s, None)
  | r => r
  end.
End Session.

Arguments mkGoroutine {Action}.
Arguments g_name {Action}.
Arguments g_action {Action}.
Arguments g_pc {Action}.
Arguments EvEnter {Action}.
Arguments EvStart {Action}.
Arguments EvCall {Action}.
Arguments EvReturn {Action}.
Arguments EvFinish {Action}.
Arguments EvExit {Action}.
Arguments mkSearch {Action}.
Arguments waits {Action}.
Arguments visited {Action}.
Arguments path {Action}.
Arguments wg {Action}.
Arguments spawned {Action}.
Arguments polls {Action}.
Arguments newSearch {Action}.
Arguments searchContextDone {Action}.
Arguments visit {Action}.
Arguments enter_node {Action}.
Arguments leave_node {Action}.
Arguments dfsChildren {Action}.
Arguments dfsResolve {Action}.
Arguments collectRoots {Action}.
Arguments universe {Action}.
Arguments fuelFor {Action} g : simpl never.
Arguments dfsRoots {Action}.
Arguments traverse {Action}.

(** ** The running session

    Once the traversal is over, the caller's thread finishes [Resolve]
    while the goroutines run.  The state of the session holds what they
    share: the derived context ([run_ctxDone]: its Done channel is
    closed), the counters of [s.dfsWait], [s.wg] and of the wait groups
    in [s.waits], the clock and the maps of the [Statistics] recorder;
    then the program point of every thread, and the events so far, newest
    first.  Calls of [recorder.Enter] made while the traversal still runs
    touch nothing the traversal reads, so every goroutine starts at
    [PEnter] here. *)

Section Running.
Variable Action : Type.

Record session : Type := mkSession {
  run_ctxDone : bool;
  run_dfsWait : Z;
  run_wg : Z;
  run_waits : gmap string Z;
  run_tasks : list (goroutine Action);
  run_main : main_pc;
  run_watcher : watcher_pc;
  run_now : Z;
  run_stats : Statistics.t;
  run_trace : list (event Action)
}.

Definition set_ctxDone (b : bool) (st : session) : session :=
  mkSession b (run_dfsWait st) (run_wg st) (run_waits st) (run_tasks st)
            (run_main st) (run_watcher st) (run_now st) (run_stats st) (run_trace st).
Definition set_dfsWait (n : Z) (st : session) : session :=
  mkSession (run_ctxDone st) n (run_wg st) (run_waits st) (run_tasks st)
            (run_main st) (run_watcher st) (run_now st) (run_stats st) (run_trace st).
Definition set_wg (n : Z) (st : session) : session :=
  mkSession (run_ctxDone st) (run_dfsWait st) n (run_waits st) (run_tasks st)
            (run_main st) (run_watcher st) (run_now st) (run_stats st) (run_trace st).
Definition set_waits (w : gmap string Z) (st : session) : session :=
  mkSession (run_ctxDone st) (run_dfsWait st) (run_wg st) w (run_tasks st)
            (run_main st) (run_watcher st) (run_now st) (run_stats st) (run_trace st).
Definition set_main (m : main_pc) (st : session) : session :=
  mkSession (run_ctxDone st) (run_dfsWait st) (run_wg st) (run_waits st) (run_tasks st)
            m (run_watcher st) (run_now st) (run_stats st) (run_trace st).
Definition set_watcher (w : watcher_pc) (st : session) : session :=
  mkSession (run_ctxDone st) (run_dfsWait st) (run_wg st) (run_waits st) (run_tasks st)
            (run_main st) w (run_now st) (run_stats st) (run_trace st).
Definition log (e : event Action) (st : session) : session :=
  mkSession (run_ctxDone st) (run_dfsWait st) (run_wg st) (run_waits st) (run_tasks st)
            (run_main st) (run_watcher st) (run_now st) (run_stats st) (e :: run_trace st).

(** Goroutine [i] moves to the program point [p]. *)
Definition goto (i : nat) (gr : goroutine Action) (p : pc) (st : session) : session :=
  mkSession (run_ctxDone st) (run_dfsWait st) (run_wg st) (run_waits st)
            (<[ i := mkGoroutine (g_name gr) (g_action gr) p ]> (run_tasks st))
            (run_main st) (run_watcher st) (run_now st) (run_stats st) (run_trace st).

(** A callback of the recorder: it reads the clock, which never runs
    backwards, and stores the reading under the name. *)
Definition hook (f : Statistics.t → string → Z → Statistics.t)
    (name : string) (t : Z) (st : session) : option session :=
  if decide (run_now st ≤ t) then
    Some (mkSession (run_ctxDone st) (run_dfsWait st) (run_wg st) (run_waits st)
                    (run_tasks st) (run_main st) (run_watcher st) t
                    (f (run_stats st) name t) (run_trace st))
  else None.

(** [parentWg := s.waits[parent]; if parentWg != nil { parentWg.Done() }] *)
Definition notify (parent : string) (st : session) : session :=
  match run_waits st !! parent with
  | Some c => set_waits (<[ parent := c - 1 ]> (run_waits st)) st
  | None => st
  end.

(** What the scheduler picks: a step of the caller's thread, of the
    watcher, a cancellation of the caller's context, or goroutine [i]:
    a plain step, a callback reading the clock at [t], or one round of
    the loop of [visitComplete] on the dependent [d]. *)
Inductive label : Type :=
| LMain
| LWatcher
| LCancel
| LTask (i : nat)
| LHook (i : nat) (t : Z)
| LNotify (i : nat) (d : string).

Variable g : Graph Action.
(** Whether the caller may cancel its context while the session runs. *)
Variable mayCancel : bool.

Definition exec_main (st : session) : option session :=
  match run_main st with
  | MDone => Some (set_main MDefer (set_ctxDone true st))
  | MGo => Some (set_main MDefer (set_watcher WWait st))
  | MDefer => Some (set_main MReturned (set_dfsWait (run_dfsWait st - 1) st))
  | MReturned => None
  end.

Definition exec_watcher (st : session) : option session :=
  match run_watcher st with
  | WWait => if decide (run_wg st = 0) then Some (set_watcher WDone st) else None
  | WDone => Some (set_watcher WEnd (set_ctxDone true st))
  | WNone | WEnd => None
  end.

Definition exec_task (i : nat) (gr : goroutine Action) (st : session) : option session :=
  match g_pc gr with
  | PDfsWait =>
    if decide (run_dfsWait st = 0) then Some (goto i gr PCheck1 st) else None
  | PCheck1 =>
    Some (goto i gr (if run_ctxDone st then PWgDone false else PWait) st)
  | PWait =>
    if decide (run_waits st !! g_name gr = Some 0) then Some (goto i gr PCheck2 st)
    else None
  | PCheck2 =>
    Some (goto i gr (if run_ctxDone st then PWgDone false else PStart) st)
  | PCall =>
    match g_action gr with
    | Some a => Some (goto i gr PRunning (log (EvCall (g_name gr) a) st))
    | None => None
    end
  | PRunning => Some (goto i gr PFinish (log (EvReturn (g_name gr)) st))
  | PWgDone r =>
    Some (goto i gr (PNotify r (dependents g (g_name gr))) (set_wg (run_wg st - 1) st))
  | PNotify r rem =>
    if decide (rem = ∅) then Some (goto i gr (PExit r) st) else None
  | PEnter | PStart | PFinish | PExit _ | PEnd _ => None
  end.

Definition exec_hook (i : nat) (t : Z) (gr : goroutine Action) (st : session)
  : option session :=
  match g_pc gr with
  | PEnter =>
    st ← hook Statistics.Enter (g_name gr) t st;
    Some (goto i gr PDfsWait (log (EvEnter (g_name gr)) st))
  | PStart =>
    st ← hook Statistics.Start (g_name gr) t st;
    Some (goto i gr PCall (log (EvStart (g_name gr)) st))
  | PFinish =>
    st ← hook Statistics.Finish (g_name gr) t st;
    Some (goto i gr (PWgDone true) (log (EvFinish (g_name gr)) st))
  | PExit r =>
    st ← hook Statistics.Exit (g_name gr) t st;
    Some (goto i gr (PEnd r) (log (EvExit (g_name gr)) st))
  | _ => None
  end.

Definition exec_notify (i : nat) (d : string) (gr : goroutine Action) (st : session)
  : option session :=
  match g_pc gr with
  | PNotify r rem =>
    if decide (d ∈ rem) then Some (goto i gr (PNotify r (rem ∖ {[ d ]})) (notify d st))
    else None
  | _ => None
  end.

Definition exec (l : label) (st : session) : option session :=
  match l with
  | LMain => exec_main st
  | LWatcher => exec_watcher st
  | LCancel =>
    if mayCancel && negb (run_ctxDone st) then Some (set_ctxDone true st) else None
  | LTask i => gr ← run_tasks st !! i; exec_task i gr st
  | LHook i t => gr ← run_tasks st !! i; exec_hook i t gr st
  | LNotify i d => gr ← run_tasks st !! i; exec_notify i d gr st
  end.

Definition step (st st' : session) : Prop := ∃ l, exec l st = Some st'.

Fixpoint run (ls : list label) (st : session) : option session :=
  match ls with
  | [] => Some st
  | l :: ls => st ← exec l st; run ls st
  end.
End Running.

Arguments mkSession {Action}.
Arguments run_ctxDone {Action}.
Arguments run_dfsWait {Action}.
Arguments run_wg {Action}.
Arguments run_waits {Action}.
Arguments run_tasks {Action}.
Arguments run_main {Action}.
Arguments run_watcher {Action}.
Arguments run_now {Action}.
Arguments run_stats {Action}.
Arguments run_trace {Action}.
Arguments set_ctxDone {Action}.
Arguments set_dfsWait {Action}.
Arguments set_wg {Action}.
Arguments set_waits {Action}.
Arguments set_main {Action}.
Arguments set_watcher {Action}.
Arguments log {Action}.
Arguments goto {Action}.
Arguments hook {Action}.
Arguments notify {Action}.
Arguments exec_main {Action}.
Arguments exec_watcher {Action}.
Arguments exec_task {Action}.
Arguments exec_hook {Action}.
Arguments exec_notify {Action}.
Arguments exec {Action}.
Arguments step {Action}.
Arguments run {Action}.

(** ** Resolve

    [Resolve] derives a context from the caller's, traverses, and leaves
    the session to the goroutines; the caller's thread still has to call
    [done()] on an error path or launch the watcher otherwise, and to run
    the deferred [s.dfsWait.Done()].  The result is the session at that
    point and the error [Resolve] returns. *)

Section Resolve.
Variable Action : Type.
Variable E : Env.
Variable g : Graph Action.

Definition launch (s : search Action) (err : option error) : session Action :=
  {| run_ctxDone := parentDone E (polls s);
     run_dfsWait := 1;
     run_wg := wg s;
     run_waits := waits s;
     run_tasks := spawned s;
     run_main := match err with Some _ => MDone | None => MGo end;
     run_watcher := WNone;
     run_now := 0;
     run_stats := Statistics.NewStatistics;
     run_trace := [] |}.

Definition Resolve : option (session Action * option error) :=
  match traverse E g with
  | Some (s, err) => Some (launch s err, err)
  | None => None
  end.
End Resolve.

Arguments launch {Action}.
Arguments Resolve {Action}.

(** ** Properties of graphs *)

Section GraphProperties.
Context {Action : Type}.
Implicit Types g : Graph Action.

(** The graphs a program can build. *)
Inductive built : Graph Action → Prop :=
| built_NewGraph : built NewGraph
| built_AddAction g name action :
    built g → built (AddAction g name action).1
| built_LinkDependency g parent name :
    built g → built (LinkDependency g parent name).1.

(** The two adjacency maps are transposes of each other. *)
Definition transposed g : Prop :=
  ∀ p c, p ∈ prerequisites g c ↔ c ∈ dependents g p.

(** Edges join registered names only. *)
Definition edges_registered g : Prop :=
  ∀ p c, p ∈ prerequisites g c → p ∈ dom (actions g) ∧ c ∈ dom (actions g).

Definition names_nonempty g : Prop := "" ∉ dom (actions g).

Definition wf g : Prop := transposed g ∧ edges_registered g ∧ names_nonempty g.

(** [prereq g d p]: [d] depends on [p]; the edge the traversal follows. *)
Definition prereq g (d p : string) : Prop := p ∈ prerequisites g d.

Definition acyclic g : Prop := ∀ n, ¬ tc (prereq g) n n.

(** A root is a registered name with no dependent. *)
Definition is_root g (r : string) : Prop :=
  r ∈ dom (actions g) ∧ dependents g r = ∅.

Definition reachable g (n : string) : Prop :=
  ∃ r, is_root g r ∧ rtc (prereq g) r n.

(** Some name the traversal can reach lies on a cycle. *)
Definition reachable_cycle g : Prop :=
  ∃ n, reachable g n ∧ tc (prereq g) n n.
End GraphProperties.

(** ** The graphs of the tests *)

Section TestGraphs.
Context {Action : Type}.
Variable visitorAction : string → Action.

Definition addActions (names : list string) (g : Graph Action) : Graph Action :=
  foldl (λ g name, (AddAction g name (visitorAction name)).1) g names.

Definition linkAll (links : list (string * string)) (g : Graph Action) : Graph Action :=
  foldl (λ g link, (LinkDependency g link.1 link.2).1) g links.

(** [definedGraph] of the tests. *)
Definition definedGraph : Graph Action :=
  linkAll [("a", "b"); ("b", "e"); ("e", "f");
           ("a", "c"); ("c", "g");
           ("a", "d");
           ("a", "h"); ("h", "i"); ("i", "j"); ("i", "k")]
    (addActions ["a"; "b"; "c"; "d"; "e"; "f"; "g"; "h"; "i"; "j"; "k"] NewGraph).

(** [TestGraph_Resolve]: b depends on a. *)
Definition chainGraph : Graph Action :=
  linkAll [("a", "b")] (addActions ["a"; "b"] NewGraph).

(** [TestGraph_Resolve_noRoots]: a and b depend on each other. *)
Definition noRootsGraph : Graph Action :=
  linkAll [("a", "b"); ("b", "a")] (addActions ["a"; "b"] NewGraph).

(** [TestGraph_Resolve_deepCycle]: a and b depend on each other and c
    depends on b. *)
Definition deepCycleGraph : Graph Action :=
  linkAll [("a", "b"); ("b", "c"); ("b", "a")] (addActions ["a"; "b"; "c"] NewGraph).

(** The roots the test expects for [definedGraph]. *)
Definition test_roots : gset string := {[ "f"; "g"; "d"; "j"; "k" ]}.

(** A single action. *)
Definition singleGraph : Graph Action := addActions ["a"] NewGraph.

(** A diamond: d depends on b and c, which both depend on a. *)
Definition diamondGraph : Graph Action :=
  linkAll [("a", "b"); ("a", "c"); ("b", "d"); ("c", "d")]
    (addActions ["a"; "b"; "c"; "d"] NewGraph).
End TestGraphs.

(** ** Invariants of the traversal *)

Section SearchInvariants.
Context {Action : Type}.
Variable g : Graph Action.
Implicit Types s : search Action.

(** What the search data records about the names visited so far. *)
Definition search_inv s : Prop :=
  NoDup (g_name <$> spawned s) ∧
  (∀ n, n ∈ g_name <$> spawned s ↔ n ∈ visited s) ∧
  (∀ gr, gr ∈ spawned s → g_action gr = actions g !! g_name gr ∧ g_pc gr = PEnter) ∧
  (∀ n, waits s !! n =
        if decide (n ∈ visited s) then Some (StringSet.len (prerequisites g n)) else None) ∧
  wg s = Z.of_nat (length (spawned s)) ∧
  path s ⊆ visited s.

(** The names the traversal has left: visited and no longer on the path. *)
Definition finished s : gset string := visited s ∖ path s.

(** The finished names are closed under prerequisites and none lies
    on a cycle. *)
Definition fin_ok s : Prop :=
  (∀ v c, v ∈ finished s → prereq g v c → c ∈ finished s) ∧
  (∀ v, v ∈ finished s → ¬ tc (prereq g) v v).
End SearchInvariants.

Section TraversalContract.
Context {Action : Type}.
Variable E : Env.
Variable g : Graph Action.
Implicit Types s : search Action.

(** What [dfsResolve] needs on entering [name] ... *)
Definition node_pre s (name : string) : Prop :=
  search_inv g s ∧
  (name ∉ visited s) ∧
  (∀ q, q ∈ path s → rtc (prereq g) q name) ∧
  (live E → fin_ok g s).

(** ... and what it leaves, with the error it returns. *)
Definition node_post s (name : string) s' (r : option error) : Prop :=
  search_inv g s' ∧
  visited s ⊆ visited s' ∧
  name ∈ visited s' ∧
  (∀ v, v ∈ visited s' → v ∈ visited s ∨ rtc (prereq g) name v) ∧
  (r = None → path s' = path s ∧ (live E → fin_ok g s')) ∧
  (∀ e, r = Some e → e = err_cycle ∧ ∃ c, c ∈ visited s' ∧ tc (prereq g) c c).

(** The same for the loop over the prerequisites [children] of [name]. *)
Definition loop_pre s (name : string) : Prop :=
  search_inv g s ∧
  name ∈ path s ∧
  (∀ q, q ∈ path s → rtc (prereq g) q name) ∧
  (live E → fin_ok g s).

Definition loop_post s (name : string) (children : list string) s'
    (r : option error) : Prop :=
  search_inv g s' ∧
  visited s ⊆ visited s' ∧
  (∀ v, v ∈ visited s' → v ∈ visited s ∨ rtc (prereq g) name v) ∧
  (r = None → (path s' = path s ∧
     (live E → (fin_ok g s' ∧ (∀ c, c ∈ children → c ∈ finished s'))))) ∧
  (∀ e, r = Some e → e = err_cycle ∧ ∃ c, c ∈ visited s' ∧ tc (prereq g) c c).
End TraversalContract.

(** ** Observations and invariants of the running session *)

Global Instance pc_eq_dec : EqDecision pc.
Proof. solve_decision. Defined.

Global Instance main_pc_eq_dec : EqDecision main_pc.
Proof. solve_decision. Defined.

Global Instance watcher_pc_eq_dec : EqDecision watcher_pc.
Proof. solve_decision. Defined.

Fixpoint countb {A : Type} (P : A → bool) (l : list A) : nat :=
  match l with
  | [] => 0
  | x :: l => (if P x then 1 else 0) + countb P l
  end.

Section Observations.
Context {Action : Type}.
Implicit Types gr : goroutine Action.
Implicit Types st : session Action.

Definition is_call (name : string) (e : event Action) : bool :=
  match e with EvCall n _ => bool_decide (n = name) | _ => false end.
Definition is_return (name : string) (e : event Action) : bool :=
  match e with EvReturn n => bool_decide (n = name) | _ => false end.
Definition is_start (name : string) (e : event Action) : bool :=
  match e with EvStart n => bool_decide (n = name) | _ => false end.
Definition is_exit (name : string) (e : event Action) : bool :=
  match e with EvExit n => bool_decide (n = name) | _ => false end.

(** An event outside the action: the task was entered or left. *)
Definition quiet (e : event Action) : Prop :=
  match e with EvEnter _ | EvExit _ => True | _ => False end.

(** The goroutine has not called [s.wg.Done()] yet. *)
Definition before_done (p : pc) : bool :=
  match p with
  | PNotify _ _ | PExit _ | PEnd _ => false
  | _ => true
  end.

(** The goroutine is past [wg.Wait()] on the way to its action. *)
Definition passed_latch (p : pc) : bool :=
  match p with
  | PCheck2 | PStart | PCall | PRunning | PFinish
  | PWgDone true | PNotify true _ | PExit true | PEnd true => true
  | _ => false
  end.

(** The goroutine has called its action, respectively the action has
    returned. *)
Definition has_called (p : pc) : bool :=
  match p with
  | PRunning | PFinish | PWgDone true | PNotify true _ | PExit true | PEnd true => true
  | _ => false
  end.
Definition has_returned (p : pc) : bool :=
  match p with
  | PFinish | PWgDone true | PNotify true _ | PExit true | PEnd true => true
  | _ => false
  end.

(** The goroutine is on the path that skips the action. *)
Definition skipped (p : pc) : bool :=
  match p with
  | PWgDone false | PNotify false _ | PExit false | PEnd false => true
  | _ => false
  end.

(** The program points of a goroutine that never gets to its action. *)
Definition idle (p : pc) : bool :=
  match p with
  | PEnter | PDfsWait | PCheck1 => true
  | p => skipped p
  end.

Definition waiting_barrier (p : pc) : bool :=
  match p with PEnter | PDfsWait => true | _ => false end.

(** The events a goroutine has produced when it stands at its program
    point, newest first. *)
Definition called gr : list (event Action) :=
  match g_action gr with
  | Some a => [EvCall (g_name gr) a]
  | None => []
  end.

Definition emitted gr : list (event Action) :=
  let n := g_name gr in
  match g_pc gr with
  | PEnter => []
  | PDfsWait | PCheck1 | PWait | PCheck2 | PStart
  | PWgDone false | PNotify false _ | PExit false => [EvEnter n]
  | PCall => [EvStart n; EvEnter n]
  | PRunning => called gr ++ [EvStart n; EvEnter n]
  | PFinish => EvReturn n :: called gr ++ [EvStart n; EvEnter n]
  | PWgDone true | PNotify true _ | PExit true =>
    EvFinish n :: EvReturn n :: called gr ++ [EvStart n; EvEnter n]
  | PEnd true =>
    EvExit n :: EvFinish n :: EvReturn n :: called gr ++ [EvStart n; EvEnter n]
  | PEnd false => [EvExit n; EvEnter n]
  end.

Variable g : Graph Action.

(** The dependents whose wait group the goroutine has still to
    decrement. *)
Definition pending gr : gset string :=
  match g_pc gr with
  | PNotify _ rem => rem
  | PExit _ | PEnd _ => ∅
  | _ => dependents g (g_name gr)
  end.

Definition owes (d : string) gr : nat :=
  if decide (d ∈ pending gr) then 1%nat else 0%nat.

(** The steps a goroutine has left, at most. *)
Definition rank gr : nat :=
  match g_pc gr with
  | PEnter => 13 + size (dependents g (g_name gr))
  | PDfsWait => 12 + size (dependents g (g_name gr))
  | PCheck1 => 11 + size (dependents g (g_name gr))
  | PWait => 10 + size (dependents g (g_name gr))
  | PCheck2 => 9 + size (dependents g (g_name gr))
  | PStart => 8 + size (dependents g (g_name gr))
  | PCall => 7 + size (dependents g (g_name gr))
  | PRunning => 6 + size (dependents g (g_name gr))
  | PFinish => 5 + size (dependents g (g_name gr))
  | PWgDone _ => 4 + size (dependents g (g_name gr))
  | PNotify _ rem => 3 + size rem
  | PExit _ => 1
  | PEnd _ => 0
  end%nat.

Definition measure st : nat :=
  (sum_list_with rank (run_tasks st)
   + match run_main st with MDone => 2 | MGo => 4 | MDefer => 1 | MReturned => 0 end
   + match run_watcher st with WWait => 2 | WDone => 1 | WNone | WEnd => 0 end
   + (if run_ctxDone st then 0 else 1))%nat.

(** Prerequisites of [d] that have no goroutine. *)
Definition unvisited (names : list string) (d : string) : nat :=
  size (prerequisites g d ∖ list_to_set names).

(** What holds in every session [Resolve] launches on a graph built
    through the API: the goroutines keep their names, which are
    distinct, and their actions; the trace is made of the events of the
    goroutines; a wait group counts the prerequisites that have not
    decremented it; a goroutine past its wait group found it at zero. *)
Definition base_inv (names : list string) st : Prop :=
  g_name <$> run_tasks st = names ∧
  NoDup names ∧
  Forall (λ gr, g_action gr = actions g !! g_name gr) (run_tasks st) ∧
  Forall (λ gr, ∀ r rem, g_pc gr = PNotify r rem → rem ⊆ dependents g (g_name gr))
         (run_tasks st) ∧
  (∀ P, countb P (run_trace st) =
        sum_list_with (λ gr, countb P (emitted gr)) (run_tasks st)) ∧
  (∀ e, e ∈ run_trace st → ∃ gr, gr ∈ run_tasks st ∧ e ∈ emitted gr) ∧
  (∀ d, run_waits st !! d =
        if decide (d ∈ names)
        then Some (Z.of_nat (unvisited names d + sum_list_with (owes d) (run_tasks st)))
        else None) ∧
  Forall (λ gr, passed_latch (g_pc gr) = true → run_waits st !! g_name gr = Some 0)
         (run_tasks st) ∧
  run_wg st = Z.of_nat (sum_list_with (λ gr, if before_done (g_pc gr) then 1 else 0)%nat
                                      (run_tasks st)).

(** A session in which no goroutine gets to its action: the context
    is done, or [Resolve] is about to call [done()] and holds every
    goroutine at the barrier. *)
Definition skip_inv st : Prop :=
  Forall (λ gr, idle (g_pc gr) = true) (run_tasks st) ∧
  Forall quiet (run_trace st) ∧
  (run_ctxDone st = true ∨
   (run_main st = MDone ∧ run_dfsWait st = 1 ∧
    Forall (λ gr, waiting_barrier (g_pc gr) = true) (run_tasks st))).
End Observations.

Section Ordering.
Context {Action : Type}.
Variable g : Graph Action.

(** In the trace (newest first), whenever the action of [d] is
    called and the action of a prerequisite [p] of [d] runs at all, the
    action of [p] has returned before. *)
Definition ord_inv (st : session Action) : Prop :=
  ∀ l1 l2 d a p a',
    run_trace st = l1 ++ EvCall d a :: l2 →
    p ∈ prerequisites g d →
    EvCall p a' ∈ run_trace st →
    EvReturn p ∈ l2.
End Ordering.

Section LiveSession.
Context {Action : Type}.
Variable g : Graph Action.

(** The session of a successful [Resolve] that nobody cancels: the
    context is done only by the watcher, which has then seen [s.wg] at
    zero, and no goroutine skips its action. *)
Definition live_inv (st : session Action) : Prop :=
  (run_ctxDone st = true ↔ run_watcher st = WEnd) ∧
  (run_watcher st = WDone ∨ run_watcher st = WEnd → run_wg st = 0) ∧
  (run_watcher st = WNone ↔ run_main st = MGo) ∧
  run_main st ≠ MDone ∧
  run_dfsWait st = (if decide (run_main st = MReturned) then 0 else 1) ∧
  Forall (λ gr, skipped (g_pc gr) = false ∧ is_Some (g_action gr)) (run_tasks st).

(** A goroutine with this name waits for its wait group. *)
Definition blocked (st : session Action) (name : string) : Prop :=
  ∃ gr, gr ∈ run_tasks st ∧ g_name gr = name ∧ g_pc gr = PWait.

(** Every registered action is called once and returns, once the
    context is done. *)
Definition all_ran_when_done (st : session Action) : Prop :=
  run_ctxDone st = true →
  ∀ name, name ∈ dom (actions g) →
    countb (is_call name) (run_trace st) = 1%nat ∧
    countb (is_return name) (run_trace st) = 1%nat.

(** No action is called twice, and only the registered action of a
    name is called. *)
Definition ran_at_most_once (st : session Action) : Prop :=
  (∀ name, (countb (is_call name) (run_trace st) ≤ 1)%nat) ∧
  (∀ name a, EvCall name a ∈ run_trace st → actions g !! name = Some a).
End LiveSession.

Section Stamps.
Context {Action : Type}.

(** The readings the recorder holds for a goroutine at a program
    point: which of the four callbacks have run, in the order of the
    clock. *)
Definition stamps_ok (p : pc) (oe os ofn ox : option Z) (now : Z) : Prop :=
  match p with
  | PEnter => oe = None ∧ os = None ∧ ofn = None ∧ ox = None
  | PDfsWait | PCheck1 | PWait | PCheck2 | PStart
  | PWgDone false | PNotify false _ | PExit false =>
    ∃ te, oe = Some te ∧ os = None ∧ ofn = None ∧ ox = None ∧ 0 ≤ te ≤ now
  | PCall | PRunning | PFinish =>
    ∃ te ts, oe = Some te ∧ os = Some ts ∧ ofn = None ∧ ox = None ∧
             0 ≤ te ≤ ts ∧ ts ≤ now
  | PWgDone true | PNotify true _ | PExit true =>
    ∃ te ts tf, oe = Some te ∧ os = Some ts ∧ ofn = Some tf ∧ ox = None ∧
                0 ≤ te ≤ ts ∧ ts ≤ tf ≤ now
  | PEnd true =>
    ∃ te ts tf tx, oe = Some te ∧ os = Some ts ∧ ofn = Some tf ∧ ox = Some tx ∧
                   0 ≤ te ≤ ts ∧ ts ≤ tf ≤ tx ∧ tx ≤ now
  | PEnd false =>
    ∃ te tx, oe = Some te ∧ os = None ∧ ofn = None ∧ ox = Some tx ∧
             0 ≤ te ≤ tx ∧ tx ≤ now
  end.

Definition stamps_of (s : Statistics.t) (now : Z) (gr : goroutine Action) : Prop :=
  stamps_ok (g_pc gr)
    (Statistics.enter s !! g_name gr) (Statistics.start s !! g_name gr)
    (Statistics.finish s !! g_name gr) (Statistics.exit s !! g_name gr) now.

Definition stats_inv (st : session Action) : Prop :=
  0 ≤ run_now st ∧
  Forall (stamps_of (run_stats st) (run_now st)) (run_tasks st).
End Stamps.

(** ** Statements about a resolution *)

Section Statements.
Context {Action : Type}.
Variable E : Env.
Variable mayCancel : bool.
Variable g : Graph Action.

(** [Resolve] returns no error and, whenever the returned context is
    done, every registered action has been called once and has
    returned. *)
Definition resolves_all : Prop :=
  ∃ st0, Resolve E g = Some (st0, None) ∧
    ∀ st, rtc (step g mayCancel) st0 st → all_ran_when_done g st.

(** [Resolve] reports a cycle exactly when some name reaches itself
    along prerequisite edges. *)
Definition cycle_exact : Prop :=
  ∃ st0 r, Resolve E g = Some (st0, r) ∧
    (r = Some err_cycle ↔ ∃ n, tc (prereq g) n n).

(** The statistics of a name whose task has ended: wait and action
    add up to the total when the action ran, and all three are zero
    when it was skipped. *)
Definition stats_balanced (st : session Action) : Prop :=
  ∀ name, EvExit name ∈ run_trace st →
    (EvStart name ∈ run_trace st →
       Statistics.Wait (run_stats st) name + Statistics.Action (run_stats st) name
       = Statistics.Total (run_stats st) name) ∧
    (EvStart name ∉ run_trace st →
       Statistics.Wait (run_stats st) name = 0 ∧
       Statistics.Action (run_stats st) name = 0 ∧
       Statistics.Total (run_stats st) name = 0).

Definition stats_always_balanced : Prop :=
  ∀ st0 r st, Resolve E g = Some (st0, r) → rtc (step g mayCancel) st0 st →
    stats_balanced st.
End Statements.

(** ** Schedules of the single-action graph

    One goroutine: the caller's thread returns, then the goroutine runs
    to its end, the recorder reading the clock at 1, 2, 3 and 5. *)

Definition run_single : list label :=
  [LMain; LMain; LHook 0 1; LTask 0; LTask 0; LTask 0; LTask 0; LHook 0 2;
   LTask 0; LTask 0; LHook 0 3; LTask 0; LTask 0; LHook 0 5].

(** The same under a context that is done: the action is skipped. *)
Definition skip_single : list label :=
  [LMain; LMain; LHook 0 1; LTask 0; LTask 0; LTask 0; LTask 0; LHook 0 5].

(** A schedule of [chainGraph]: goroutine 0 is a, goroutine 1 is b (the
    traversal starts from the root b and launches a last). *)
Definition run_chain : list label :=
  [LMain; LMain; LHook 0 1; LHook 1 1; LTask 0; LTask 1; LTask 0; LTask 1;
   LTask 0; LTask 0; LHook 0 2; LTask 0; LTask 0; LHook 0 3; LTask 0;
   LNotify 0 "b"; LTask 0; LHook 0 4;
   LTask 1; LTask 1; LHook 1 5; LTask 1; LTask 1; LHook 1 6; LTask 1; LTask 1;
   LHook 1 7; LWatcher; LWatcher].

(** A schedule of [deepCycleGraph] after the traversal met the cycle:
    [Resolve] calls [done()] and returns, then goroutine 0 runs to its
    end. *)
Definition run_after_cycle : list label :=
  [LMain; LMain; LHook 0 1; LTask 0; LTask 0; LTask 0; LNotify 0 "b"; LTask 0; LHook 0 2].

(** [Resolve] followed by a schedule. *)
Definition resolve_and_run {Action : Type} (E : Env) (mayCancel : bool)
    (g : Graph Action) (ls : list label) : option (session Action * option error) :=
  match Resolve E g with
  | Some (st0, r) =>
    match run g mayCancel ls st0 with
    | Some st => Some (st, r)
    | None => None
    end
  | None => None
  end.

(** What the statistics tell about a name after [Resolve] and a
    schedule: the trace, then wait, action and total. *)
Definition observe {Action : Type} (E : Env) (mayCancel : bool)
    (g : Graph Action) (ls : list label) (name : string)
  : option (list (event Action) * (Z * Z * Z) * option error) :=
  match resolve_and_run E mayCancel g ls with
  | Some (st, r) =>
    Some (run_trace st,
          (Statistics.Wait (run_stats st) name,
           Statistics.Action (run_stats st) name,
           Statistics.Total (run_stats st) name), r)
  | None => None
  end.

(** ** Further properties of the registries *)

(** No key of a multimap built with [Add] holds an empty set. *)
Definition stored_nonempty (m : gmap string (gset string)) : Prop :=
  ∀ key X, m !! key = Some X → X ≠ ∅.

(** The keys of both adjacency maps are registered names. *)
Definition keys_registered {Action : Type} (g : Graph Action) : Prop :=
  dom (treeOrder g) ⊆ dom (actions g) ∧ dom (graphOrder g) ⊆ dom (actions g).

(** [Resolve] reports a cycle exactly when some name reachable from a
    root reaches itself. *)
Definition cycle_exact_reachable {Action : Type} (E : Env) (g : Graph Action) : Prop :=
  ∃ st0 r, Resolve E g = Some (st0, r) ∧
    (r = Some err_cycle ↔ reachable_cycle g).

(** ** The threads of a session *)

Section Scheduling.
Context {Action : Type}.
Implicit Types st : session Action.

(** What the caller's thread and the watcher keep: [s.dfsWait] is
    released by the deferred call only, and holds every goroutine at the
    barrier until then; the watcher is launched on the path without
    error only and calls [done()] once it has seen [s.wg] at zero; on
    the error path [done()] is called before [Resolve] returns. *)
Definition sched_inv st : Prop :=
  run_dfsWait st = (if decide (run_main st = MReturned) then 0 else 1) ∧
  (run_main st ≠ MReturned →
     Forall (λ gr, waiting_barrier (g_pc gr) = true) (run_tasks st)) ∧
  (run_watcher st = WDone ∨ run_watcher st = WEnd → run_wg st = 0) ∧
  (run_watcher st = WEnd → run_ctxDone st = true) ∧
  (run_watcher st = WNone →
     run_main st = MGo ∨ run_main st = MDone ∨ run_ctxDone st = true) ∧
  (run_main st = MGo ∨ run_main st = MDone → run_watcher st = WNone).

(** Every thread of the session has ended: [Resolve] has returned, the
    watcher, if there is one, has called [done()], the context is done
    and every goroutine has run its deferred calls. *)
Definition at_end (p : pc) : bool :=
  match p with PEnd _ => true | _ => false end.

Definition ended st : Prop :=
  run_main st = MReturned ∧
  (run_watcher st = WEnd ∨ run_watcher st = WNone) ∧
  run_ctxDone st = true ∧
  Forall (λ gr, at_end (g_pc gr) = true) (run_tasks st).

(** The session of a [Resolve] that returns an error has no watcher. *)
Definition no_watcher st : Prop :=
  run_main st ≠ MGo ∧ run_watcher st = WNone.

(** The goroutine has not passed its last look at the context, or has
    seen it done. *)
Definition uncommitted (p : pc) : bool :=
  match p with
  | PEnter | PDfsWait | PCheck1 | PWait | PCheck2 => true
  | p => skipped p
  end.

(** The name an event is about, and the events about a name. *)
Definition ev_name (e : event Action) : string :=
  match e with
  | EvEnter n | EvStart n | EvCall n _ | EvReturn n | EvFinish n | EvExit n => n
  end.

Definition events_of (name : string) (l : list (event Action)) : list (event Action) :=
  filter (λ e, ev_name e = name) l.

(** The events about the name of a goroutine are the ones it has
    produced, in their order. *)
Definition trace_inv st : Prop :=
  Forall (λ gr, events_of (g_name gr) (run_trace st) = emitted gr) (run_tasks st).

(** The events of a goroutine that runs its action to the end, oldest
    first. *)
Definition life (name : string) (a : Action) : list (event Action) :=
  [EvEnter name; EvStart name; EvCall name a; EvReturn name; EvFinish name; EvExit name].

(** The recorder knows the names of goroutines only. *)
Definition stats_names_inv (names : list string) st : Prop :=
  ∀ n, n ∉ names →
    Statistics.enter (run_stats st) !! n = None ∧
    Statistics.start (run_stats st) !! n = None ∧
    Statistics.finish (run_stats st) !! n = None ∧
    Statistics.exit (run_stats st) !! n = None.
End Scheduling.

(** ** The caller's signal *)





(** * Registration *)

Section Registration.
Context {Action : Type}.
Implicit Types g : Graph Action.

Lemma get_Add (m : gmap string (gset string)) key value k :
  stringmultimap.get (stringmultimap.Add m key value) k =
  if decide (key = k) then {[ value ]} ∪ stringmultimap.get m key
  else stringmultimap.get m k.
Proof.
  unfold stringmultimap.Add, stringmultimap.get, StringSet.Add.
  rewrite lookup_insert. by case_decide.
Qed.

Lemma AddAction_error g name action :
  (AddAction g name action).2 ≠ None ↔ name = "".
Proof. unfold AddAction. case_decide; simpl; naive_solver. Qed.

Lemma LinkDependency_error g parent name :
  (LinkDependency g parent name).2 ≠ None ↔
  name = "" ∨ parent = "" ∨ actions g !! name = None ∨ actions g !! parent = None.
Proof. unfold LinkDependency. repeat case_decide; simpl; naive_solver. Qed.

Lemma LinkDependency_failed g parent name :
  (LinkDependency g parent name).2 ≠ None → (LinkDependency g parent name).1 = g.
Proof. unfold LinkDependency. repeat case_decide; simpl; naive_solver. Qed.

Lemma LinkDependency_ok g parent name :
  (LinkDependency g parent name).2 = None →
  let g' := (LinkDependency g parent name).1 in
  name ∈ dom (actions g) ∧ parent ∈ dom (actions g) ∧
  actions g' = actions g ∧
  (∀ p c, p ∈ prerequisites g' c ↔ p ∈ prerequisites g c ∨ (p = parent ∧ c = name)) ∧
  (∀ p c, c ∈ dependents g' p ↔ c ∈ dependents g p ∨ (p = parent ∧ c = name)).
Proof.
  unfold LinkDependency. repeat case_decide; simpl; try done. intros _.
  split_and!; try by (apply elem_of_dom, not_eq_None_Some).
  - done.
  - intros p c. unfold prerequisites. simpl. rewrite get_Add.
    case_decide; set_solver.
  - intros p c. unfold dependents. simpl. rewrite get_Add.
    case_decide; set_solver.
Qed.

Lemma built_wf g : built g → wf g.
Proof.
  induction 1 as [|g name action _ IH|g parent name _ IH].
  - split_and!; intros ?; set_solver.
  - unfold AddAction. case_decide; [done|]. simpl.
    destruct IH as (Ht & Hr & Hn). split_and!.
    + exact Ht.
    + intros p c Hp. destruct (Hr p c Hp). simpl. rewrite dom_insert_L. set_solver.
    + unfold names_nonempty. simpl. rewrite dom_insert_L. set_solver.
  - destruct (decide ((LinkDependency g parent name).2 = None)) as [Hok|Hko].
    + destruct (LinkDependency_ok _ _ _ Hok) as (Hn & Hp & Ha & Hpre & Hdep).
      destruct IH as (Ht & Hr & Hne). split_and!.
      * intros p c. rewrite Hpre, Hdep, (Ht p c). done.
      * intros p c. rewrite Hpre, Ha. intros [H|[-> ->]]; [by apply Hr|done].
      * unfold names_nonempty. by rewrite Ha.
    + by rewrite LinkDependency_failed.
Qed.
End Registration.

Section RootFinder.
Context {Action : Type}.
Implicit Types g : Graph Action.

Lemma elem_of_collectRoots E g name :
  env_ok E →
  name ∈ collectRoots E g ↔ name ∈ dom (actions g) ∧ dependents g name = ∅.
Proof.
  intros [_ Hk]. unfold collectRoots, StringSet.len.
  rewrite list_elem_of_filter, (Hk (dom (actions g))), elem_of_elements.
  split; intros [H1 H2]; split; try done.
  - apply leibniz_equiv, size_empty_iff. lia.
  - by rewrite H2, size_empty.
Qed.

Lemma NoDup_collectRoots E g : env_ok E → NoDup (collectRoots E g).
Proof.
  intros [_ Hk]. unfold collectRoots. apply NoDup_filter.
  rewrite (Hk _). apply NoDup_elements.
Qed.
End RootFinder.


(** * The traversal *)

Lemma env_ok_sortedEnv done : env_ok (sortedEnv done).
Proof. split; intros; reflexivity. Qed.

Section Relations.
(** In a finite set closed under an acyclic relation, every element
    reaches one without successor. *)
Lemma acyclic_reaches_sink (R : relation string) (U : gset string) :
  (∀ x y, x ∈ U → R x y → y ∈ U) →
  (∀ x, ¬ tc R x x) →
  (∀ x, (∃ y, R x y) ∨ ∀ y, ¬ R x y) →
  ∀ x, x ∈ U → ∃ y, rtc R x y ∧ ∀ z, ¬ R y z.
Proof.
  intros Hcl Hac Hdec.
  assert (∀ n (S : gset string) x,
    x ∈ U → (size (U ∖ S) ≤ n)%nat → (∀ s, s ∈ S → tc R s x) →
    ∃ y, rtc R x y ∧ ∀ z, ¬ R y z) as Hind.
  { induction n as [|n IH]; intros S x Hx Hsz Hanc.
    - assert (x ∉ S) by (intros Hin; eapply Hac, Hanc, Hin).
      assert (U ∖ S ≡ ∅) as He by (apply size_empty_iff; lia). set_solver.
    - assert (x ∉ S) by (intros Hin; eapply Hac, Hanc, Hin).
      destruct (Hdec x) as [[y Hy]|Hno]; [|exists x; split; [done|exact Hno]].
      destruct (IH ({[ x ]} ∪ S) y) as (z & Hz & Hsink).
      + eauto.
      + assert (U ∖ ({[x]} ∪ S) ⊂ U ∖ S) as Hsub by set_solver.
        apply subset_size in Hsub. lia.
      + intros s [->%elem_of_singleton|Hs]%elem_of_union.
        * by apply tc_once.
        * eapply tc_r; [by apply Hanc|done].
      + exists z. split; [|done]. by eapply rtc_l. }
  intros x Hx. apply (Hind (size U) ∅ x Hx).
  - apply subseteq_size. set_solver.
  - set_solver.
Qed.
End Relations.

Section Traversal.
Context {Action : Type}.
Variable E : Env.
Variable g : Graph Action.
Hypothesis HE : env_ok E.
Implicit Types s : search Action.

Lemma prerequisites_universe name c :
  c ∈ prerequisites g name → c ∈ universe g.
Proof.
  unfold prerequisites, stringmultimap.get, universe. intros Hc.
  destruct (treeOrder g !! name) as [X|] eqn:HX; simpl in Hc; [|set_solver].
  apply elem_of_union_r, elem_of_union_list. exists X. split; [|done].
  apply list_elem_of_fmap. exists (name, X). split; [done|].
  by apply elem_of_map_to_list.
Qed.

Lemma elem_of_rangeSet name X c : c ∈ rangeSet E name X ↔ c ∈ X.
Proof. destruct HE as [Hs _]. by rewrite (Hs name X), elem_of_elements. Qed.

(** With fuel above the number of names not visited yet, the
    traversal of a name returns. *)
Lemma dfsChildren_total (rec : search Action → string → option (search Action * option error))
    (n : nat) children :
  (∀ s c, c ∈ universe g → c ∉ visited s → (size (universe g ∖ visited s) ≤ n)%nat →
     ∃ s' r, rec s c = Some (s', r) ∧ visited s ⊆ visited s') →
  (∀ c, c ∈ children → c ∈ universe g) →
  ∀ s, (size (universe g ∖ visited s) ≤ n)%nat →
  ∃ s' r, dfsChildren E rec children s = Some (s', r) ∧ visited s ⊆ visited s'.
Proof.
  intros Hrec. induction children as [|c cs IH]; intros Hcs s Hsz; simpl.
  - eauto.
  - unfold StringSet.Contains.
    case_bool_decide; [eauto|].
    case_bool_decide; [apply IH; [set_solver|done]|].
    destruct (parentDone E (polls s)).
    + apply (IH ltac:(set_solver) (searchContextDone E s).2). by simpl.
    + destruct (Hrec (searchContextDone E s).2 c) as (s1 & r1 & Hr & Hsub); simpl;
        [set_solver|done|done|].
      simpl in Hr. rewrite Hr. destruct r1 as [e|]; [eauto|].
      destruct (IH ltac:(set_solver) s1) as (s2 & r2 & Hr2 & Hsub2).
      * simpl in Hsub. etrans; [|exact Hsz]. apply subseteq_size. set_solver.
      * exists s2, r2. split; [done|]. simpl in Hsub. set_solver.
Qed.

Lemma dfsResolve_total fuel : ∀ s name,
  name ∈ universe g →
  (size (universe g ∖ ({[ name ]} ∪ visited s)) < fuel)%nat →
  ∃ s' r, dfsResolve E g fuel s name = Some (s', r) ∧
          {[ name ]} ∪ visited s ⊆ visited s'.
Proof.
  induction fuel as [|fuel IH]; intros s name Hname Hsz; [lia|]. simpl.
  destruct (dfsChildren_total (dfsResolve E g fuel) fuel
              (rangeSet E name (prerequisites g name))) with
    (s := visit g (enter_node s name) name) as (s1 & r1 & Hr & Hsub).
  - intros s2 c Hc Hnc Hsz2. destruct (IH s2 c Hc) as (s3 & r3 & Hr3 & Hsub3).
    + assert (universe g ∖ ({[c]} ∪ visited s2) ⊂ universe g ∖ visited s2) as Hlt
        by set_solver.
      apply subset_size in Hlt. lia.
    + exists s3, r3. split; [done|set_solver].
  - intros c Hc. apply elem_of_rangeSet in Hc. by eapply prerequisites_universe.
  - simpl. unfold StringSet.Add. lia.
  - rewrite Hr. simpl in Hsub. unfold StringSet.Add in Hsub.
    destruct r1; eauto.
Qed.
End Traversal.

Section TraversalSpec.
Context {Action : Type}.
Variable E : Env.
Variable g : Graph Action.
Hypothesis HE : env_ok E.
Implicit Types s : search Action.

Lemma search_inv_poll s : search_inv g s → search_inv g (searchContextDone E s).2.
Proof. done. Qed.

Lemma fin_ok_grow s s' :
  fin_ok g s → finished s' = finished s → fin_ok g s'.
Proof. unfold fin_ok. by intros ? ->. Qed.

Lemma dfsChildren_spec
    (rec : search Action → string → option (search Action * option error)) name :
  (∀ s c s' r, node_pre E g s c → rec s c = Some (s', r) → node_post E g s c s' r) →
  ∀ children s s' r,
    (∀ c, c ∈ children → prereq g name c) →
    loop_pre E g s name →
    dfsChildren E rec children s = Some (s', r) →
    loop_post E g s name children s' r.
Proof.
  intros Hrec. induction children as [|c cs IH]; intros s s' r Hcs Hpre Hrun;
    simpl in Hrun.
  - simplify_eq. destruct Hpre as (Hinv & Hname & Hchain & Hfin).
    split_and!; try done.
    + intros v; auto.
    + intros _. split; [done|]. intros HL. split; [by apply Hfin|]. set_solver.
  - destruct Hpre as (Hinv & Hname & Hchain & Hfin).
    assert (prereq g name c) as Hc by (apply Hcs; set_solver).
    assert (∀ c', c' ∈ cs → prereq g name c') as Hcs' by (intros; apply Hcs; set_solver).
    unfold StringSet.Contains in Hrun.
    case_bool_decide as Hpath.
    { (* the prerequisite is on the path: a cycle *)
      simplify_eq. split_and!; try done; [set_solver|].
      intros e [= <-]. split; [done|]. exists c. split.
      - destruct Hinv as (_ & _ & _ & _ & _ & Hsub). set_solver.
      - eapply tc_rtc_l; [by apply Hchain|]. by apply tc_once. }
    case_bool_decide as Hvis.
    { (* already visited through another path *)
      destruct (IH s s' r Hcs' ltac:(done) Hrun) as (Hi & Hv & Hr & Hok & Hko).
      split_and!; try done.
      intros ->. destruct (Hok eq_refl) as [Hp Hl]. split; [done|].
      intros HL. destruct (Hl HL) as [Hf Hall]. split; [done|].
      intros c' [->|Hc']%elem_of_cons; [|by apply Hall].
      unfold finished. rewrite Hp. set_solver. }
    destruct (parentDone E (polls s)) eqn:Hdone.
    { (* the context is done: the prerequisite is not descended into *)
      destruct (IH (searchContextDone E s).2 s' r Hcs') as (Hi & Hv & Hr & Hok & Hko);
        [split_and!; try done; intros HL; by rewrite HL in Hdone|done|].
      split_and!; try done.
      intros ->. destruct (Hok eq_refl) as [Hp Hl]. split; [done|].
      intros HL. by rewrite HL in Hdone. }
    destruct (rec _ c) as [[s1 r1]|] eqn:Hcall; [|done].
    apply Hrec in Hcall; last first.
    { split_and!; try done. simpl. intros q Hq. eapply rtc_r; [by apply Hchain|done]. }
    destruct Hcall as (Hi1 & Hv1 & Hc1 & Hr1 & Hok1 & Hko1). simpl in *.
    destruct r1 as [e1|].
    { simplify_eq. split_and!; try done.
      intros v Hv. destruct (Hr1 v Hv) as [?|Hreach]; [by left|right].
      by eapply rtc_l. }
    destruct (Hok1 eq_refl) as [Hp1 Hl1].
    destruct (IH s1 s' r Hcs') as (Hi & Hv & Hr & Hok & Hko); [|done|].
    { split_and!; try done; rewrite ?Hp1; done. }
    split_and!; try done.
    + set_solver.
    + intros v Hv'. destruct (Hr v Hv') as [Hv1'|?]; [|by right].
      destruct (Hr1 v Hv1') as [?|Hreach]; [by left|right]. by eapply rtc_l.
    + intros ->. destruct (Hok eq_refl) as [Hp Hl]. split; [congruence|].
      intros HL. destruct (Hl HL) as [Hf Hall]. split; [done|].
      intros c' [->|Hc']%elem_of_cons; [|by apply Hall].
      unfold finished. rewrite Hp, Hp1. set_solver.
Qed.

Lemma search_inv_visit s name :
  search_inv g s → name ∉ visited s → search_inv g (visit g (enter_node s name) name).
Proof.
  intros (Hnd & Hnames & Hgr & Hw & Hwg & Hp) Hname. unfold search_inv. simpl.
  unfold StringSet.Add. split_and!.
  - apply NoDup_cons. split; [|done]. by rewrite Hnames.
  - intros n. rewrite elem_of_cons, Hnames. set_solver.
  - intros gr [->|Hin]%elem_of_cons; [done|by apply Hgr].
  - intros n. rewrite lookup_insert, Hw. repeat case_decide; set_solver.
  - rewrite Hwg. lia.
  - set_solver.
Qed.

Lemma search_inv_leave s name : search_inv g s → search_inv g (leave_node s name).
Proof.
  intros (Hnd & Hnames & Hgr & Hw & Hwg & Hp). unfold search_inv. simpl.
  unfold StringSet.Remove. split_and!; try done. set_solver.
Qed.

Lemma closed_rtc (X : gset string) v c :
  (∀ v c, v ∈ X → prereq g v c → c ∈ X) → v ∈ X → rtc (prereq g) v c → c ∈ X.
Proof. intros Hcl Hv Hr. induction Hr; eauto. Qed.

Lemma dfsResolve_spec fuel : ∀ s name s' r,
  node_pre E g s name →
  dfsResolve E g fuel s name = Some (s', r) →
  node_post E g s name s' r.
Proof.
  induction fuel as [|fuel IH]; intros s name s' r Hpre Hrun; [done|].
  simpl in Hrun. destruct Hpre as (Hinv & Hname & Hchain & Hfin).
  assert (name ∉ path s) as Hnp by (destruct Hinv as (_&_&_&_&_&?); set_solver).
  destruct (dfsChildren _ _ _ _) as [[s1 r1]|] eqn:Hloop; [|done].
  eapply (dfsChildren_spec _ name IH) in Hloop; first last.
  { split_and!.
    - by apply search_inv_visit.
    - simpl. unfold StringSet.Add. set_solver.
    - simpl. unfold StringSet.Add.
      intros q [->%elem_of_singleton|Hq]%elem_of_union; [done|by apply Hchain].
    - intros HL. eapply fin_ok_grow; [by apply Hfin|].
      unfold finished. simpl. unfold StringSet.Add. set_solver. }
  { intros c Hc. by apply elem_of_rangeSet in Hc. }
  destruct Hloop as (Hi1 & Hv1 & Hr1 & Hok1 & Hko1). simpl in Hv1, Hr1.
  unfold StringSet.Add in *.
  assert (∀ v, v ∈ visited s1 → v ∈ visited s ∨ rtc (prereq g) name v) as Hreach.
  { intros v Hv. destruct (Hr1 v Hv) as [[->%elem_of_singleton|?]%elem_of_union|?];
      [right; apply rtc_refl|by left|by right]. }
  destruct r1 as [e|]; simplify_eq.
  - split_and!; try done; set_solver.
  - destruct (Hok1 eq_refl) as [Hp1 Hl1]. simpl in Hp1. unfold StringSet.Add in Hp1.
    split_and!; try done.
    + by apply search_inv_leave.
    + simpl. set_solver.
    + simpl. set_solver.
    + intros _. split; [simpl; unfold StringSet.Remove; set_solver|].
      intros HL. destruct (Hl1 HL) as [[Hcl Hac] Hall].
      assert (finished (leave_node s1 name) = {[ name ]} ∪ finished s1) as Hf.
      { unfold finished. simpl. unfold StringSet.Remove. rewrite Hp1.
        apply set_eq. intros x. destruct (decide (x = name)); set_solver. }
      assert (name ∉ finished s1) as Hnf by (unfold finished; set_solver).
      unfold fin_ok. rewrite Hf. split.
      * intros v c [->%elem_of_singleton|Hv]%elem_of_union Hvc.
        -- apply elem_of_union_r, Hall. by apply elem_of_rangeSet.
        -- apply elem_of_union_r. by eapply Hcl.
      * intros v [->%elem_of_singleton|Hv]%elem_of_union Htc; [|by eapply Hac].
        apply Hnf. inversion Htc as [? ? Hstep|? c ? Hstep Hrest]; subst.
        -- apply Hall. by apply elem_of_rangeSet.
        -- eapply (closed_rtc _ c); [exact Hcl| |by apply tc_rtc].
           apply Hall. by apply elem_of_rangeSet.
Qed.
End TraversalSpec.

Section TraverseSpec.
Context {Action : Type}.
Variable E : Env.
Variable g : Graph Action.
Hypothesis HE : env_ok E.
Hypothesis Hwf : wf g.
Implicit Types s : search Action.

Lemma is_root_collectRoots x : x ∈ collectRoots E g ↔ is_root g x.
Proof. by apply elem_of_collectRoots. Qed.

(** Nothing depends on a root, so no other name reaches it. *)
Lemma root_not_reached x y : is_root g y → rtc (prereq g) x y → x = y.
Proof.
  intros [_ Hy] [?|(z & _ & Hz)]%rtc_inv_r; [done|].
  destruct Hwf as (Ht & _). apply Ht in Hz. set_solver.
Qed.

Lemma search_inv_newSearch : search_inv g (newSearch (Action:=Action)).
Proof.
  unfold search_inv. simpl. split_and!; try done.
  - apply NoDup_nil_2.
  - set_solver.
  - set_solver.
Qed.

Lemma dfsRoots_total roots : ∀ s,
  (∀ x, x ∈ roots → x ∈ universe g) →
  ∃ s' r, dfsRoots E g roots s = Some (s', r).
Proof.
  induction roots as [|x roots IH]; intros s Hin; cbn [dfsRoots]; [eauto|].
  destruct (dfsResolve_total E g HE (fuelFor g) s x) as (s1 & r1 & -> & _).
  - apply Hin. set_solver.
  - unfold fuelFor. apply Nat.lt_succ_r, subseteq_size. set_solver.
  - destruct r1; [eauto|]. apply IH. intros; apply Hin; set_solver.
Qed.

Lemma dfsRoots_spec roots : ∀ s s' r,
  NoDup roots →
  (∀ x, x ∈ roots → is_root g x) →
  search_inv g s → path s = ∅ →
  (∀ v, v ∈ visited s → reachable g v ∧ v ∉ roots) →
  (live E → fin_ok g s) →
  dfsRoots E g roots s = Some (s', r) →
  search_inv g s' ∧
  visited s ⊆ visited s' ∧
  (∀ v, v ∈ visited s' → reachable g v) ∧
  (r = None → path s' = ∅ ∧ (∀ x, x ∈ roots → x ∈ visited s') ∧ (live E → fin_ok g s')) ∧
  (∀ e, r = Some e → e = err_cycle ∧ ∃ c, c ∈ visited s' ∧ tc (prereq g) c c).
Proof.
  induction roots as [|x roots IH]; intros s s' r Hnd Hroots Hinv Hpath Hvis Hfin Hrun;
    cbn [dfsRoots] in Hrun.
  - simplify_eq. split_and!; try done.
    + intros v Hv. by apply Hvis.
    + intros _. split_and!; try done. intros x Hx. by apply elem_of_nil in Hx.
  - apply NoDup_cons in Hnd as [Hx Hnd].
    assert (is_root g x) as Hrx by (apply Hroots; left).
    destruct (dfsResolve _ _ _ _ _) as [[s1 r1]|] eqn:Hcall; [|done].
    apply (dfsResolve_spec E g HE) in Hcall; last first.
    { split_and!; try done.
      - intros Hin. apply Hvis in Hin as [_ Hin]. apply Hin. left.
      - rewrite Hpath. intros q Hq. by apply not_elem_of_empty in Hq. }
    destruct Hcall as (Hi1 & Hv1 & Hx1 & Hr1 & Hok1 & Hko1).
    assert (∀ v, v ∈ visited s1 → reachable g v) as Hreach.
    { intros v Hv. destruct (Hr1 v Hv) as [Hold|Hnew]; [by apply Hvis|].
      by exists x. }
    destruct r1 as [e|].
    + simplify_eq. split_and!; try done.
    + destruct (Hok1 eq_refl) as [Hp1 Hl1].
      destruct (IH s1 s' r Hnd) as (Hi & Hv & Hre & Hok & Hko); try done.
      * intros y Hy; apply Hroots; by right.
      * congruence.
      * intros v Hv. split; [by apply Hreach|]. intros Hin.
        destruct (Hr1 v Hv) as [Hold|Hnew].
        -- apply Hvis in Hold as [_ Hold]. apply Hold. by right.
        -- apply root_not_reached in Hnew; [|apply Hroots; by right]. by subst.
      * split_and!; try done; [by etrans|].
        intros ->. destruct (Hok eq_refl) as (? & Hall & ?). split_and!; try done.
        intros y [->|Hy]%elem_of_cons; [by apply Hv|by apply Hall].
Qed.

(** The traversal of [Resolve] returns; what it leaves. *)
Lemma traverse_spec :
  ∃ s r, traverse E g = Some (s, r) ∧
    search_inv g s ∧
    (∀ v, v ∈ visited s → reachable g v) ∧
    (r = None →
       collectRoots E g ≠ [] ∧ path s = ∅ ∧
       (∀ x, is_root g x → x ∈ visited s) ∧ (live E → fin_ok g s)) ∧
    (∀ e, r = Some e →
       (e = err_no_roots ∧ collectRoots E g = [] ∧ s = newSearch) ∨
       (e = err_cycle ∧ reachable_cycle g)).
Proof.
  unfold traverse.
  destruct (dfsRoots_total (collectRoots E g) newSearch) as (s & r & Hrun).
  { intros x [Hx _]%is_root_collectRoots. unfold universe. set_solver. }
  rewrite Hrun. pose proof Hrun as Hrun0.
  apply dfsRoots_spec in Hrun as (Hi & _ & Hre & Hok & Hko).
  - destruct r as [e|].
    + exists s, (Some e). split_and!; try done.
      intros e' [= <-]. right. destruct (Hko e eq_refl) as (-> & c & Hc & Htc).
      split; [done|]. exists c. auto.
    + case_bool_decide as Hnil.
      * exists s, (Some err_no_roots). split_and!; try done.
        intros e [= <-]. left. split_and!; try done.
        rewrite Hnil in Hrun0. cbn [dfsRoots] in Hrun0. by simplify_eq.
      * exists s, None. split_and!; try done. intros _.
        destruct (Hok eq_refl) as (Hp & Hall & Hl). split_and!; try done.
        intros x Hx. by apply Hall, is_root_collectRoots.
  - by apply NoDup_collectRoots.
  - intros x. by apply is_root_collectRoots.
  - apply search_inv_newSearch.
  - done.
  - set_solver.
  - intros _. unfold fin_ok, finished. simpl. split; set_solver.
Qed.
End TraverseSpec.

(** * The running session *)

(** Case analysis on one step of the session. *)
Ltac exec_cases H :=
  match type of H with
  | exec _ _ ?l ?st = Some _ =>
    destruct l as [| | |?i|?i ?t|?i ?d]; simpl in H;
    [ unfold exec_main in H; destruct (run_main st) eqn:?Hmain; simplify_eq
    | unfold exec_watcher in H; destruct (run_watcher st) eqn:?Hwatcher;
      try case_decide; simplify_eq
    | first [ done
            | match type of H with
              | (if ?b then _ else _) = _ => destruct b eqn:?Hcancel; simplify_eq
              end ]
    | destruct (run_tasks st !! i) as [[?name ?act ?p]|] eqn:?Hgr; simpl in H; [|done];
      unfold exec_task in H; simpl in H;
      destruct p; try case_decide; try (destruct act; [|done]); simplify_eq
    | destruct (run_tasks st !! i) as [[?name ?act ?p]|] eqn:?Hgr; simpl in H; [|done];
      unfold exec_hook, hook in H; simpl in H;
      destruct p; try done; case_decide; simpl in H; simplify_eq
    | destruct (run_tasks st !! i) as [[?name ?act ?p]|] eqn:?Hgr; simpl in H; [|done];
      unfold exec_notify in H; simpl in H;
      destruct p; try done; case_decide; simplify_eq ]
  end.

Section SkipInv.
Context {Action : Type}.
Variable g : Graph Action.
Variable mayCancel : bool.
Implicit Types st : session Action.

Lemma skip_inv_exec l st st' :
  skip_inv st → exec g mayCancel l st = Some st' → skip_inv st'.
Proof.
  intros (Hidle & Hquiet & Hctx) Hexec.
  assert (∀ i gr, run_tasks st !! i = Some gr → idle (g_pc gr) = true) as Hi
    by (intros i gr Hgr; exact (Forall_lookup_1 _ _ _ _ Hidle Hgr)).
  assert (∀ i gr, run_tasks st !! i = Some gr → run_ctxDone st = false →
            waiting_barrier (g_pc gr) = true ∧ run_dfsWait st = 1) as Hb.
  { intros i gr Hgr Hnd. destruct Hctx as [?|(_ & ? & Hall)]; [congruence|].
    split; [|done]. exact (Forall_lookup_1 _ _ _ _ Hall Hgr). }
  exec_cases Hexec;
    try (specialize (Hi _ _ Hgr); simpl in Hi; try done);
    try (destruct (run_ctxDone st) eqn:Hdone;
         [|destruct (Hb _ _ Hgr eq_refl) as [Hbar Hdw]; simpl in Hbar; try done; try lia]);
    unfold skip_inv, notify; simpl;
    repeat match goal with |- context [match ?x with _ => _ end] =>
      destruct x eqn:?; simpl end;
    (split_and!;
     [ try done; apply Forall_insert; done
     | try done; repeat (apply Forall_cons; split; [done|]); done
     | try (by left);
       try (destruct Hctx as [?|(? & ? & ?)]; [by left|right]; split_and!; try done;
            try congruence; apply Forall_insert; done) ]).
Qed.

Lemma skip_inv_steps st st' :
  skip_inv st → rtc (step g mayCancel) st st' → skip_inv st'.
Proof.
  intros Hinv Hsteps. induction Hsteps as [|st1 st2 st3 [l Hl] _ IH]; [done|].
  apply IH. by eapply skip_inv_exec.
Qed.

(** In such a session no action is called, and the context is done
    once [Resolve] has returned. *)
Lemma skip_inv_quiet st :
  skip_inv st →
  (∀ e, e ∈ run_trace st → quiet e) ∧
  (run_main st = MReturned → run_ctxDone st = true).
Proof.
  intros (_ & Hq & Hctx). split.
  - by apply Forall_forall.
  - intros Hm. destruct Hctx as [?|(? & _)]; [done|congruence].
Qed.
End SkipInv.

Section ResolveSpec.
Context {Action : Type}.
Variable E : Env.
Variable g : Graph Action.
Hypothesis HE : env_ok E.
Implicit Types s : search Action.

Lemma Resolve_traverse s r :
  traverse E g = Some (s, r) → Resolve E g = Some (launch E s r, r).
Proof. unfold Resolve. by intros ->. Qed.

(** Without roots nothing is traversed. *)
Lemma traverse_no_roots :
  (∀ n, n ∈ dom (actions g) → dependents g n ≠ ∅) →
  traverse E g = Some (newSearch, Some err_no_roots).
Proof.
  intros Hdep. unfold traverse.
  assert (collectRoots E g = []) as ->.
  { apply elem_of_nil_inv. intros x [Hx Hd]%elem_of_collectRoots; [|done].
    by apply (Hdep x). }
  done.
Qed.

(** A traversal under a done context does not descend, and meets no
    name of its path. *)
Lemma dfsChildren_cancelled
    (rec : search Action → string → option (search Action * option error)) children :
  cancelled E → ∀ s s' r,
  (∀ c, c ∈ children → c ∉ path s) →
  dfsChildren E rec children s = Some (s', r) →
  r = None ∧ path s' = path s.
Proof.
  intros HC. induction children as [|c cs IH]; intros s s' r Hcs Hrun; simpl in Hrun.
  - by simplify_eq.
  - unfold StringSet.Contains in Hrun.
    case_bool_decide; [exfalso; eapply Hcs; [|done]; set_solver|].
    case_bool_decide; [apply (IH s); [|done]; intros; apply Hcs; set_solver|].
    rewrite (HC (polls s)) in Hrun.
    apply IH in Hrun; [done|]. simpl. intros; apply Hcs; set_solver.
Qed.

Lemma dfsRoots_cancelled roots :
  cancelled E → ∀ s s' r,
  (∀ x, x ∈ roots → x ∉ prerequisites g x) →
  path s = ∅ →
  dfsRoots E g roots s = Some (s', r) →
  r = None ∧ path s' = ∅.
Proof.
  intros HC. induction roots as [|x roots IH]; intros s s' r Hroots Hp Hrun;
    cbn [dfsRoots] in Hrun.
  - by simplify_eq.
  - unfold fuelFor in Hrun. simpl in Hrun.
    destruct (dfsChildren _ _ _ _) as [[s1 r1]|] eqn:Hloop; [|done].
    apply dfsChildren_cancelled in Hloop as [-> Hp1]; [|done|].
    + apply IH in Hrun; [done| |].
      * intros; apply Hroots; set_solver.
      * simpl. unfold StringSet.Remove. rewrite Hp1. simpl. unfold StringSet.Add.
        rewrite Hp. set_solver.
    + simpl. unfold StringSet.Add. rewrite Hp. intros c Hc%elem_of_rangeSet; [|done].
      intros Hin. assert (c = x) as -> by set_solver.
      eapply Hroots; [|done]. set_solver.
Qed.

Hypothesis Hwf : wf g.

Lemma root_no_self_loop x : is_root g x → x ∉ prerequisites g x.
Proof. intros [_ Hx] Hin. destruct Hwf as (Ht & _). apply Ht in Hin. set_solver. Qed.

Lemma traverse_cancelled :
  cancelled E → collectRoots E g ≠ [] →
  ∃ s, traverse E g = Some (s, None) ∧ search_inv g s.
Proof.
  intros HC Hroots.
  destruct (traverse_spec E g HE Hwf) as (s & r & Hrun & Hinv & _).
  exists s. split; [|done]. rewrite Hrun. do 2 f_equal.
  unfold traverse in Hrun.
  destruct (dfsRoots _ _ _ _) as [[s1 r1]|] eqn:Hdfs; [|done].
  apply dfsRoots_cancelled in Hdfs as [-> _]; try done.
  - case_bool_decide; [done|]. by simplify_eq.
  - intros x Hx%is_root_collectRoots; [|done]. by apply root_no_self_loop.
Qed.

(** The sessions in which no action runs. *)
Lemma launch_skip_inv s r :
  search_inv g s →
  is_Some r ∨ parentDone E (polls s) = true →
  skip_inv (launch E s r).
Proof.
  intros (_ & _ & Hgr & _) Hcase.
  assert (Forall (λ gr : goroutine Action, waiting_barrier (g_pc gr) = true) (spawned s))
    as Hbar.
  { apply Forall_forall. intros gr Hin. destruct (Hgr gr Hin) as [_ ->]. done. }
  unfold skip_inv, launch. simpl. split_and!.
  - eapply Forall_impl; [exact Hbar|]. intros gr. simpl. by destruct (g_pc gr).
  - by apply Forall_nil.
  - destruct (parentDone E (polls s)); [by left|].
    destruct Hcase as [[e ->]|?]; [|done]. by right.
Qed.
End ResolveSpec.

Section Sums.
Context {A : Type}.

Lemma sum_list_with_insert (f : A → nat) (l : list A) i x y :
  l !! i = Some x →
  (sum_list_with f (<[ i := y ]> l) + f x = sum_list_with f l + f y)%nat.
Proof.
  revert i. induction l as [|z l IH]; intros [|i] Hi; simpl in *; simplify_eq.
  - lia.
  - specialize (IH i Hi). lia.
Qed.

Lemma sum_list_with_zero (f : A → nat) (l : list A) :
  sum_list_with f l = 0%nat ↔ Forall (λ x, f x = 0%nat) l.
Proof.
  induction l as [|z l IH]; simpl.
  - split; [by constructor|done].
  - rewrite Forall_cons, <- IH. lia.
Qed.

Lemma sum_list_with_pos (f : A → nat) (l : list A) :
  (0 < sum_list_with f l)%nat → ∃ i x, l !! i = Some x ∧ (0 < f x)%nat.
Proof.
  induction l as [|z l IH]; simpl; [lia|]. intros Hpos.
  destruct (decide (0 < f z)%nat) as [Hz|Hz].
  - by exists 0%nat, z.
  - destruct IH as (i & x & Hi & Hx); [lia|]. by exists (S i), x.
Qed.

Lemma sum_list_with_le (f h : A → nat) (l : list A) :
  (∀ x, f x ≤ h x)%nat → (sum_list_with f l ≤ sum_list_with h l)%nat.
Proof. intros Hle. induction l as [|z l IH]; simpl; [done|]. specialize (Hle z). lia. Qed.

Lemma sum_list_with_eq (f h : A → nat) (l : list A) :
  Forall (λ x, f x = h x) l → sum_list_with f l = sum_list_with h l.
Proof. induction 1; simpl; congruence. Qed.

Lemma countb_app (P : A → bool) (l1 l2 : list A) :
  countb P (l1 ++ l2) = (countb P l1 + countb P l2)%nat.
Proof. induction l1 as [|x l1 IH]; simpl; [done|]. rewrite IH. lia. Qed.

Lemma countb_pos (P : A → bool) (l : list A) :
  (0 < countb P l)%nat ↔ ∃ x, x ∈ l ∧ P x = true.
Proof.
  induction l as [|z l IH]; simpl.
  - split; [lia|]. intros (x & Hx & _). by apply elem_of_nil in Hx.
  - split.
    + intros Hpos. destruct (P z) eqn:Hz.
      * exists z. split; [left|done].
      * destruct IH as [IH _]. destruct IH as (x & Hx & HP); [lia|].
        exists x. split; [by right|done].
    + intros (x & [->|Hx]%elem_of_cons & HP).
      * rewrite HP. lia.
      * assert (0 < countb P l)%nat by (apply IH; eauto). lia.
Qed.
End Sums.

(** Counting the members of a set along a list without repetition. *)
Lemma sum_indicator (X : gset string) (l : list string) :
  NoDup l →
  sum_list_with (λ n, if decide (n ∈ X) then 1 else 0)%nat l = size (X ∩ list_to_set l).
Proof.
  induction 1 as [|x l Hx Hnd IH]; simpl.
  - assert (X ∩ ∅ = (∅ : gset string)) as -> by set_solver. by rewrite size_empty.
  - rewrite IH. case_decide.
    + assert (X ∩ ({[x]} ∪ list_to_set l) = {[x]} ∪ X ∩ list_to_set l) as -> by set_solver.
      assert (x ∉ (list_to_set l : gset string)) by by rewrite elem_of_list_to_set.
      rewrite (size_union {[x]} (X ∩ list_to_set l)) by set_solver.
      by rewrite size_singleton.
    + assert (X ∩ ({[x]} ∪ list_to_set l) = X ∩ list_to_set l) as -> by set_solver.
      done.
Qed.

Lemma sum_unique (n : string) (l : list string) :
  NoDup l →
  sum_list_with (λ m, if decide (m = n) then 1 else 0)%nat l =
  if decide (n ∈ l) then 1%nat else 0%nat.
Proof.
  induction 1 as [|x l Hx Hnd IH]; simpl.
  - destruct (decide (n ∈ [])) as [Hin|]; [by apply elem_of_nil in Hin|done].
  - rewrite IH. destruct (decide (x = n)) as [->|Hne].
    + rewrite (decide_True (P:=n ∈ n :: l)) by left.
      by rewrite (decide_False (P:=n ∈ l)).
    + destruct (decide (n ∈ l)) as [Hin|Hnin].
      * rewrite decide_True; [done|by right].
      * rewrite decide_False; [done|]. intros [?|?]%elem_of_cons; congruence.
Qed.

Section BaseInv.
Context {Action : Type}.
Variable g : Graph Action.
Variable mayCancel : bool.
Implicit Types st : session Action.
Implicit Types gr : goroutine Action.

(** A step of another thread leaves the goroutines alone. *)
Lemma base_inv_frame names st st' :
  base_inv g names st →
  run_tasks st' = run_tasks st → run_trace st' = run_trace st →
  run_waits st' = run_waits st → run_wg st' = run_wg st →
  base_inv g names st'.
Proof. unfold base_inv. by intros H -> -> -> ->. Qed.

(** A goroutine moves on without touching a wait group of [s.waits]. *)
Lemma base_inv_move names st st' i gr p evs :
  base_inv g names st →
  run_tasks st !! i = Some gr →
  run_tasks st' = <[ i := mkGoroutine (g_name gr) (g_action gr) p ]> (run_tasks st) →
  run_trace st' = evs ++ run_trace st →
  run_waits st' = run_waits st →
  emitted (mkGoroutine (g_name gr) (g_action gr) p) = evs ++ emitted gr →
  pending g (mkGoroutine (g_name gr) (g_action gr) p) = pending g gr →
  (∀ r rem, p = PNotify r rem → rem ⊆ dependents g (g_name gr)) →
  (passed_latch p = true →
     passed_latch (g_pc gr) = true ∨ run_waits st !! g_name gr = Some 0) →
  run_wg st' = run_wg st - (if before_done (g_pc gr) then 1 else 0)
               + (if before_done p then 1 else 0) →
  base_inv g names st'.
Proof.
  intros (Hn & Hnd & Hact & Hrem & Htr & Hmem & Hw & Hl & Hwg) Hgr Ht' Htr' Hw' Hem Hpen Hp Hpl Hwg'.
  unfold base_inv. rewrite Ht', Htr', Hw', Hwg'. split_and!.
  - rewrite list_fmap_insert. simpl. rewrite <- Hn. apply list_insert_id.
    by rewrite list_lookup_fmap, Hgr.
  - done.
  - apply Forall_insert; [done|]. simpl. exact (Forall_lookup_1 _ _ _ _ Hact Hgr).
  - apply Forall_insert; [done|]. simpl. exact Hp.
  - intros P. rewrite countb_app, Htr.
    pose proof (sum_list_with_insert (λ gr, countb P (emitted gr)) _ i gr
                  (mkGoroutine (g_name gr) (g_action gr) p) Hgr) as Hsum.
    simpl in Hsum. rewrite Hem, countb_app in Hsum. lia.
  - intros e [He|He]%elem_of_app.
    + exists (mkGoroutine (g_name gr) (g_action gr) p). split.
      * apply list_elem_of_lookup. exists i. apply list_lookup_insert_eq.
        by eapply lookup_lt_Some.
      * rewrite Hem. apply elem_of_app. by left.
    + destruct (Hmem e He) as (gr0 & [j Hj]%list_elem_of_lookup & Hin).
      destruct (decide (j = i)) as [->|Hji].
      * assert (gr0 = gr) as -> by congruence.
        exists (mkGoroutine (g_name gr) (g_action gr) p). split.
        -- apply list_elem_of_lookup. exists i. apply list_lookup_insert_eq.
           by eapply lookup_lt_Some.
        -- rewrite Hem. apply elem_of_app. by right.
      * exists gr0. split; [|done]. apply list_elem_of_lookup. exists j.
        by rewrite list_lookup_insert_ne.
  - intros d. rewrite Hw. case_decide; [|done]. do 3 f_equal.
    pose proof (sum_list_with_insert (owes g d) _ i gr
                  (mkGoroutine (g_name gr) (g_action gr) p) Hgr) as Hsum.
    assert (owes g d (mkGoroutine (g_name gr) (g_action gr) p) = owes g d gr) as Ho
      by (unfold owes; by rewrite Hpen).
    rewrite Ho in Hsum. lia.
  - apply Forall_insert; [done|]. simpl. intros Hpass.
    destruct (Hpl Hpass) as [Hold|?]; [|done].
    by apply (Forall_lookup_1 _ _ _ _ Hl Hgr).
  - pose proof (sum_list_with_insert
                  (λ gr, if before_done (g_pc gr) then 1%nat else 0%nat) _ i gr
                  (mkGoroutine (g_name gr) (g_action gr) p) Hgr) as Hsum.
    simpl in Hsum. rewrite Hwg.
    destruct (before_done (g_pc gr)), (before_done p); lia.
Qed.

(** One round of the loop of [visitComplete]. *)
Lemma base_inv_notify names st i gr r rem d :
  base_inv g names st →
  run_tasks st !! i = Some gr →
  g_pc gr = PNotify r rem →
  d ∈ rem →
  base_inv g names (goto i gr (PNotify r (rem ∖ {[ d ]})) (notify d st)).
Proof.
  intros (Hn & Hnd & Hact & Hrem & Htr & Hmem & Hw & Hl & Hwg) Hgr Hpc Hd.
  set (gr' := mkGoroutine (g_name gr) (g_action gr) (PNotify r (rem ∖ {[ d ]}))).
  assert (run_tasks (goto i gr (PNotify r (rem ∖ {[ d ]})) (notify d st)) =
          <[ i := gr' ]> (run_tasks st)) as Ht'.
  { unfold notify. by destruct (run_waits st !! d). }
  assert (run_trace (goto i gr (PNotify r (rem ∖ {[ d ]})) (notify d st)) = run_trace st)
    as Htr'.
  { unfold notify. by destruct (run_waits st !! d). }
  assert (run_wg (goto i gr (PNotify r (rem ∖ {[ d ]})) (notify d st)) = run_wg st)
    as Hwg'.
  { unfold notify. by destruct (run_waits st !! d). }
  assert (∀ d', owes g d' gr' = if decide (d' = d) then 0%nat else owes g d' gr) as Howes.
  { intros d'. unfold owes, pending. simpl. rewrite Hpc.
    repeat case_decide; set_solver. }
  assert (owes g d gr = 1%nat) as Hd1.
  { unfold owes, pending. rewrite Hpc. by rewrite decide_True. }
  assert (∀ d', run_waits (goto i gr (PNotify r (rem ∖ {[ d ]})) (notify d st)) !! d' =
     if decide (d' ∈ names)
     then Some (Z.of_nat (unvisited g names d' + sum_list_with (owes g d') (<[ i := gr' ]> (run_tasks st))))
     else None) as Hw'.
  { intros d'.
    pose proof (sum_list_with_insert (owes g d') _ i gr gr' Hgr) as Hsum.
    rewrite Howes in Hsum. unfold notify. simpl.
    destruct (decide (d' = d)) as [->|Hdd].
    - pose proof (Hw d) as Hwd.
      destruct (run_waits st !! d) as [c|] eqn:Hc; simpl.
      + rewrite lookup_insert_eq. destruct (decide (d ∈ names)); [|done].
        simplify_eq. f_equal. lia.
      + rewrite Hc. by destruct (decide (d ∈ names)).
    - assert (run_waits (match run_waits st !! d with
                         | Some c => set_waits (<[d:=c - 1]> (run_waits st)) st
                         | None => st
                         end) !! d' = run_waits st !! d') as ->.
      { destruct (run_waits st !! d); simpl; [|done]. by rewrite lookup_insert_ne. }
      rewrite Hw. destruct (decide (d' ∈ names)); [|done]. do 2 f_equal. lia. }
  unfold base_inv. rewrite Ht', Htr', Hwg'. split_and!.
  - rewrite list_fmap_insert. simpl. rewrite <- Hn. apply list_insert_id.
    by rewrite list_lookup_fmap, Hgr.
  - done.
  - apply Forall_insert; [done|]. simpl. exact (Forall_lookup_1 _ _ _ _ Hact Hgr).
  - apply Forall_insert; [done|]. simpl. intros r' rem' [= <- <-].
    pose proof (Forall_lookup_1 _ _ _ _ Hrem Hgr _ _ Hpc). set_solver.
  - intros P. rewrite Htr.
    pose proof (sum_list_with_insert (λ gr, countb P (emitted gr)) _ i gr gr' Hgr) as Hsum.
    assert (emitted gr' = emitted gr) as He.
    { unfold emitted, called. simpl. rewrite Hpc. done. }
    cbv beta in Hsum. rewrite He in Hsum. lia.
  - assert (emitted gr' = emitted gr) as He.
    { unfold emitted, called. simpl. rewrite Hpc. done. }
    intros e Hin.
    destruct (Hmem e Hin) as (gr0 & [j Hj]%list_elem_of_lookup & Hin0).
    destruct (decide (j = i)) as [->|Hji].
    + assert (gr0 = gr) as -> by congruence.
      exists gr'. split; [|by rewrite He].
      apply list_elem_of_lookup. exists i. apply list_lookup_insert_eq.
      by eapply lookup_lt_Some.
    + exists gr0. split; [|done]. apply list_elem_of_lookup. exists j.
      by rewrite list_lookup_insert_ne.
  - exact Hw'.
  - assert (∀ gr0, passed_latch (g_pc gr0) = true →
              run_waits st !! g_name gr0 = Some 0 → g_name gr0 ≠ d) as Hne.
    { intros gr0 _ H0 Heq. rewrite Heq, Hw in H0.
      destruct (decide (d ∈ names)); [|done].
      pose proof (sum_list_with_insert (owes g d) _ i gr gr' Hgr) as Hsum.
      rewrite Hd1, Howes, decide_True in Hsum by done. simplify_eq. lia. }
    assert (∀ gr0, passed_latch (g_pc gr0) = true →
              run_waits st !! g_name gr0 = Some 0 →
              run_waits (goto i gr (PNotify r (rem ∖ {[ d ]})) (notify d st)) !! g_name gr0
              = Some 0) as Hkeep.
    { intros gr0 Hp0 H0. pose proof (Hne gr0 Hp0 H0).
      unfold notify. simpl. destruct (run_waits st !! d); simpl; [|done].
      by rewrite lookup_insert_ne. }
    apply Forall_insert.
    + eapply Forall_impl; [exact Hl|]. simpl. intros gr0 H0 Hp0. apply Hkeep; auto.
    + simpl. intros Hp0. apply (Hkeep gr).
      * rewrite Hpc. exact Hp0.
      * apply (Forall_lookup_1 _ _ _ _ Hl Hgr). rewrite Hpc. exact Hp0.
  - rewrite Hwg.
    pose proof (sum_list_with_insert
                  (λ gr, if before_done (g_pc gr) then 1%nat else 0%nat) _ i gr gr' Hgr)
      as Hsum.
    simpl in Hsum. rewrite Hpc in Hsum. simpl in Hsum. f_equal. lia.
Qed.
End BaseInv.

Section BaseInvSteps.
Context {Action : Type}.
Variable g : Graph Action.
Variable mayCancel : bool.
Implicit Types st : session Action.
Implicit Types gr : goroutine Action.

Lemma base_inv_exec names l st st' :
  base_inv g names st → exec g mayCancel l st = Some st' → base_inv g names st'.
Proof.
  intros Hinv Hexec.
  exec_cases Hexec;
    try (by eapply base_inv_frame; [exact Hinv|..]);
    try (by eapply base_inv_notify; [exact Hinv|exact Hgr|..]);
    try destruct (run_ctxDone st) eqn:Hdone;
    (first [ eapply (base_inv_move g names st _ i _ _ []); [exact Hinv|exact Hgr|..];
             [reflexivity|reflexivity|..]
           | eapply (base_inv_move g names st _ i _ _ [_]); [exact Hinv|exact Hgr|..];
             [reflexivity|reflexivity|..] ]);
    simpl; try done; try lia;
    try (intros; simplify_eq; done);
    try (intros _; by right);
    try (intros ?; by left);
    try (by destruct ran).
Qed.

Lemma base_inv_steps names st st' :
  base_inv g names st → rtc (step g mayCancel) st st' → base_inv g names st'.
Proof.
  intros Hinv Hsteps. induction Hsteps as [|st1 st2 st3 [l Hl] _ IH]; [done|].
  apply IH. by eapply base_inv_exec.
Qed.
End BaseInvSteps.

Section LaunchInv.
Context {Action : Type}.
Variable E : Env.
Variable g : Graph Action.
Hypothesis Hwf : wf g.
Implicit Types s : search Action.

Lemma owes_entering d (l : list (goroutine Action)) :
  Forall (λ gr, g_pc gr = PEnter) l →
  sum_list_with (owes g d) l =
  sum_list_with (λ n, if decide (n ∈ prerequisites g d) then 1 else 0)%nat (g_name <$> l).
Proof.
  destruct Hwf as (Ht & _).
  induction 1 as [|gr l Hgr _ IH]; simpl; [done|]. rewrite IH. f_equal.
  unfold owes, pending. rewrite Hgr.
  destruct (decide (d ∈ dependents g (g_name gr))) as [Hd|Hd].
  - rewrite decide_True; [done|]. by apply Ht.
  - rewrite decide_False; [done|]. intros Hp. by apply Hd, Ht.
Qed.

Lemma size_split (X L : gset string) :
  size X = (size (X ∖ L) + size (X ∩ L))%nat.
Proof.
  rewrite <- (size_union (X ∖ L) (X ∩ L)) by set_solver. f_equal.
  apply set_eq. intros x. destruct (decide (x ∈ L)); set_solver.
Qed.

Lemma launch_base_inv s r :
  search_inv g s → base_inv g (g_name <$> spawned s) (launch E s r).
Proof.
  intros (Hnd & Hnames & Hgr & Hw & Hwg & Hp).
  assert (Forall (λ gr : goroutine Action, g_pc gr = PEnter) (spawned s)) as Hpc.
  { apply Forall_forall. intros gr Hin. by destruct (Hgr gr Hin). }
  unfold base_inv, launch. simpl. split_and!; try done.
  - apply Forall_forall. intros gr Hin. by destruct (Hgr gr Hin).
  - eapply Forall_impl; [exact Hpc|]. simpl. intros gr -> ? ?. done.
  - intros P. symmetry. apply sum_list_with_zero.
    eapply Forall_impl; [exact Hpc|]. simpl. intros gr Hgr'.
    unfold emitted. by rewrite Hgr'.
  - intros e Hin. by apply elem_of_nil in Hin.
  - intros d. rewrite Hw. destruct (decide (d ∈ visited s)) as [Hd|Hd].
    + rewrite decide_True by by apply Hnames.
      f_equal. unfold StringSet.len. f_equal.
      rewrite (owes_entering d _ Hpc), (sum_indicator _ _ Hnd).
      apply size_split.
    + rewrite decide_False; [done|]. by rewrite Hnames.
  - eapply Forall_impl; [exact Hpc|]. simpl. by intros gr ->.
  - rewrite Hwg. f_equal. clear -Hpc.
    induction Hpc as [|gr l Hgr _ IH]; simpl; [done|]. rewrite Hgr. simpl. by f_equal.
Qed.
End LaunchInv.

Section BaseFacts.
Context {Action : Type}.
Variable g : Graph Action.
Hypothesis Hwf : wf g.
Implicit Types st : session Action.
Implicit Types gr : goroutine Action.

(** Goroutines are told apart by their names. *)
Lemma task_unique names st gr1 gr2 :
  base_inv g names st →
  gr1 ∈ run_tasks st → gr2 ∈ run_tasks st → g_name gr1 = g_name gr2 → gr1 = gr2.
Proof.
  intros (Hn & Hnd & _) [i Hi]%list_elem_of_lookup [j Hj]%list_elem_of_lookup Heq.
  rewrite <- Hn in Hnd.
  assert (i = j) as ->; [|congruence].
  eapply (NoDup_lookup _ i j (g_name gr1) Hnd).
  - by rewrite list_lookup_fmap, Hi.
  - by rewrite list_lookup_fmap, Hj, Heq.
Qed.

Lemma emitted_call gr n a :
  EvCall n a ∈ emitted gr →
  g_name gr = n ∧ g_action gr = Some a ∧ has_called (g_pc gr) = true.
Proof.
  unfold emitted, called. destruct gr as [name act p]. simpl.
  destruct p as [| | | | | | | | |[]|[]|[]|[]], act; simpl;
    rewrite ?elem_of_cons, ?elem_of_nil; naive_solver.
Qed.

Lemma emitted_return gr :
  has_returned (g_pc gr) = true → EvReturn (g_name gr) ∈ emitted gr.
Proof.
  unfold emitted. destruct gr as [name act p]. simpl.
  destruct p as [| | | | | | | | |[]|[]|[]|[]]; simpl; try done; intros _;
    rewrite ?elem_of_cons; auto.
Qed.

(** The task behind a call in the trace. *)
Lemma called_task names st n a :
  base_inv g names st → EvCall n a ∈ run_trace st →
  ∃ gr, gr ∈ run_tasks st ∧ g_name gr = n ∧ g_action gr = Some a ∧
        has_called (g_pc gr) = true.
Proof.
  intros (_ & _ & _ & _ & _ & Hmem & _) Hin.
  destruct (Hmem _ Hin) as (gr & Hgr & Hem). exists gr. split; [done|].
  by apply emitted_call.
Qed.

Lemma event_in_trace names st gr (e : event Action) :
  base_inv g names st → gr ∈ run_tasks st → e ∈ emitted gr →
  ∀ P, P e = true → (0 < countb P (run_trace st))%nat.
Proof.
  intros (_ & _ & _ & _ & Htr & _) [i Hi]%list_elem_of_lookup He P HP.
  rewrite Htr.
  assert (0 < countb P (emitted gr))%nat as Hpos by (apply countb_pos; eauto).
  clear -Hi Hpos. revert i Hi.
  induction (run_tasks st) as [|x l IH]; intros [|i] Hi; simpl in *; simplify_eq.
  - lia.
  - specialize (IH i Hi). lia.
Qed.

Lemma returned_in_trace names st gr :
  base_inv g names st → gr ∈ run_tasks st → has_returned (g_pc gr) = true →
  EvReturn (g_name gr) ∈ run_trace st.
Proof.
  intros Hinv Hgr Hret.
  pose proof (event_in_trace names st gr _ Hinv Hgr (emitted_return gr Hret)
                (is_return (g_name gr))) as Hpos.
  destruct (proj1 (countb_pos _ _) (Hpos ltac:(simpl; by rewrite bool_decide_true)))
    as (e & He & HP).
  destruct e; simpl in HP; try done. apply bool_decide_eq_true in HP. by subst.
Qed.

(** When the wait group of [d] is at zero, every prerequisite of [d]
    has a goroutine, which has decremented it. *)
Lemma latch_zero names st d p :
  base_inv g names st → run_waits st !! d = Some 0 → p ∈ prerequisites g d →
  ∃ gr, gr ∈ run_tasks st ∧ g_name gr = p ∧ before_done (g_pc gr) = false ∧
        d ∉ pending g gr.
Proof.
  intros (Hn & Hnd & _ & _ & _ & _ & Hw & _) H0 Hp.
  rewrite Hw in H0. destruct (decide (d ∈ names)); [|done].
  assert (unvisited g names d = 0%nat ∧ sum_list_with (owes g d) (run_tasks st) = 0%nat)
    as [Hu Hs] by (simplify_eq; lia).
  assert (p ∈ names) as Hpn.
  { unfold unvisited in Hu. apply size_empty_iff in Hu.
    destruct (decide (p ∈ names)) as [|Hnp]; [done|]. exfalso.
    apply (not_elem_of_empty (C:=gset string) p). rewrite <- Hu.
    apply elem_of_difference. split; [done|]. by rewrite elem_of_list_to_set. }
  rewrite <- Hn in Hpn. apply list_elem_of_fmap in Hpn as (gr & -> & Hgr).
  exists gr. split_and!; try done.
  - apply sum_list_with_zero in Hs.
    pose proof (proj1 (Forall_forall _ _) Hs gr Hgr) as Ho. simpl in Ho.
    unfold owes in Ho. destruct (decide (d ∈ pending g gr)) as [Hd|Hd]; [done|].
    destruct Hwf as (Ht & _). apply Ht in Hp.
    unfold pending in Hd. by destruct (g_pc gr).
  - apply sum_list_with_zero in Hs.
    pose proof (proj1 (Forall_forall _ _) Hs gr Hgr) as Ho. simpl in Ho.
    unfold owes in Ho. by destruct (decide (d ∈ pending g gr)).
Qed.

Lemma passed_latch_zero names st gr :
  base_inv g names st → gr ∈ run_tasks st → passed_latch (g_pc gr) = true →
  run_waits st !! g_name gr = Some 0.
Proof.
  intros (_ & _ & _ & _ & _ & _ & _ & Hl & _) Hgr Hp.
  by apply (proj1 (Forall_forall _ _) Hl gr Hgr).
Qed.
End BaseFacts.

Section OrdInv.
Context {Action : Type}.
Variable g : Graph Action.
Variable mayCancel : bool.
Hypothesis Hwf : wf g.
Implicit Types st : session Action.
Implicit Types gr : goroutine Action.

Lemma ord_inv_same st st' :
  run_trace st' = run_trace st → ord_inv g st → ord_inv g st'.
Proof. unfold ord_inv. by intros ->. Qed.

Lemma ord_inv_other st st' e :
  run_trace st' = e :: run_trace st →
  (∀ n a, e ≠ EvCall n a) →
  ord_inv g st → ord_inv g st'.
Proof.
  intros Htr He Hord l1 l2 d a p a' Hsplit Hp Hin. rewrite Htr in Hsplit, Hin.
  destruct l1 as [|e1 l1]; simpl in Hsplit; simplify_eq.
  - by destruct (He d a).
  - apply elem_of_cons in Hin as [Heq|Hin]; [by destruct (He p a')|].
    by eapply Hord.
Qed.

(** A goroutine that has called [s.wg.Done()] is past its action. *)
Lemma done_not_calling gr :
  before_done (g_pc gr) = false → has_called (g_pc gr) = true →
  has_returned (g_pc gr) = true.
Proof. by destruct (g_pc gr) as [| | | | | | | | |[]|[]|[]|[]]. Qed.

Lemma has_called_passed (p : pc) : has_called p = true → passed_latch p = true.
Proof. by destruct p as [| | | | | | | | |[]|[]|[]|[]]. Qed.

Lemma ord_inv_call names st st' i name act a :
  base_inv g names st →
  run_tasks st !! i = Some (mkGoroutine name act PCall) →
  run_trace st' = EvCall name a :: run_trace st →
  ord_inv g st → ord_inv g st'.
Proof.
  intros Hinv Hgr Htr Hord l1 l2 d a0 p a' Hsplit Hp Hin.
  assert (mkGoroutine name act PCall ∈ run_tasks st) as Hi
    by (apply list_elem_of_lookup; eauto).
  rewrite Htr in Hsplit, Hin.
  destruct l1 as [|e1 l1]; simpl in Hsplit.
  - (* the call of [d] is the new event *)
    injection Hsplit as Hnd _ Hsplit. rewrite <- Hsplit.
    pose proof (passed_latch_zero g names st _ Hinv Hi eq_refl) as H0. simpl in H0.
    rewrite Hnd in H0.
    destruct (latch_zero g Hwf names st _ p Hinv H0 Hp) as (grp & Hgrp & Hpn & Hbd & _).
    apply elem_of_cons in Hin as [Heq|Hin].
    + injection Heq as Hpd _.
      assert (grp = mkGoroutine name act PCall) as Hsame.
      { eapply (task_unique g names st); try done. simpl. congruence. }
      rewrite Hsame in Hbd. done.
    + destruct (called_task g names st _ _ Hinv Hin) as (gr & Hgr' & Hname & _ & Hcalled).
      assert (gr = grp) as -> by (eapply (task_unique g names st); try done; congruence).
      rewrite <- Hpn.
      eapply returned_in_trace; [exact Hinv|done|]. by apply done_not_calling.
  - injection Hsplit as _ Hsplit.
    apply elem_of_cons in Hin as [Heq|Hin]; [|by eapply Hord].
    injection Heq as Hpn _. exfalso.
    assert (EvCall d a0 ∈ run_trace st) as Hd
      by (rewrite Hsplit; apply elem_of_app; right; left).
    destruct (called_task g names st _ _ Hinv Hd) as (grd & Hgrd & Hdn & _ & Hcalled).
    pose proof (passed_latch_zero g names st _ Hinv Hgrd (has_called_passed _ Hcalled))
      as H0.
    rewrite Hdn in H0.
    destruct (latch_zero g Hwf names st _ p Hinv H0 Hp) as (grp & Hgrp & Hgn & Hbd & _).
    assert (grp = mkGoroutine name act PCall) as Hsame.
    { eapply (task_unique g names st); try done. simpl. congruence. }
    rewrite Hsame in Hbd. done.
Qed.

Lemma ord_inv_exec names l st st' :
  base_inv g names st → ord_inv g st →
  exec g mayCancel l st = Some st' → ord_inv g st'.
Proof.
  intros Hinv Hord Hexec.
  exec_cases Hexec;
    try (eapply ord_inv_same; [|exact Hord]; simpl; unfold notify;
         try destruct (run_waits st !! d); done);
    try (eapply ord_inv_other; [| |exact Hord]; [reflexivity|done]).
  eapply ord_inv_call; [exact Hinv|exact Hgr| |exact Hord]. reflexivity.
Qed.

Lemma ord_inv_steps names st st' :
  base_inv g names st → ord_inv g st →
  rtc (step g mayCancel) st st' → ord_inv g st'.
Proof.
  intros Hinv Hord Hsteps. revert Hinv Hord.
  induction Hsteps as [|st1 st2 st3 [l Hl] _ IH]; intros Hinv Hord; [done|].
  apply IH.
  - by eapply base_inv_exec.
  - by eapply ord_inv_exec.
Qed.
End OrdInv.

Section LiveInv.
Context {Action : Type}.
Variable g : Graph Action.
Implicit Types st : session Action.
Implicit Types gr : goroutine Action.

Lemma before_done_counted names st i gr :
  base_inv g names st → run_tasks st !! i = Some gr →
  before_done (g_pc gr) = true → 0 < run_wg st.
Proof.
  intros (_ & _ & _ & _ & _ & _ & _ & _ & Hwg) Hgr Hb. rewrite Hwg.
  pose proof (sum_list_with_insert
                (λ gr, if before_done (g_pc gr) then 1%nat else 0%nat) _ i gr gr Hgr)
    as Hsum.
  assert (sum_list_with (λ gr, if before_done (g_pc gr) then 1%nat else 0%nat)
            (run_tasks st) ≠ 0%nat); [|lia].
  intros Hz. apply sum_list_with_zero in Hz.
  pose proof (Forall_lookup_1 _ _ _ _ Hz Hgr) as Hgr0. simpl in Hgr0.
  by rewrite Hb in Hgr0.
Qed.

Lemma live_inv_exec names l st st' :
  base_inv g names st → live_inv st →
  exec g false l st = Some st' → live_inv st'.
Proof.
  intros Hinv (Hctx & Hw0 & Hwn & Hmd & Hdw & Htasks) Hexec.
  assert (∀ i gr, run_tasks st !! i = Some gr → before_done (g_pc gr) = true →
            run_ctxDone st = false ∧ run_watcher st ≠ WDone ∧ run_watcher st ≠ WEnd)
    as Hlive.
  { intros i gr Hgr Hb. pose proof (before_done_counted names st i gr Hinv Hgr Hb).
    assert (run_watcher st ≠ WDone ∧ run_watcher st ≠ WEnd) as [? ?].
    { split; intros Hw; rewrite Hw in Hw0; assert (run_wg st = 0) by auto; lia. }
    split_and!; try done.
    destruct (decide (run_ctxDone st = true)) as [Hd|Hd];
      [apply Hctx in Hd; congruence|by destruct (run_ctxDone st)]. }
  assert (∀ i gr, run_tasks st !! i = Some gr →
            skipped (g_pc gr) = false ∧ is_Some (g_action gr)) as Hsk
    by (intros i gr Hgr; exact (Forall_lookup_1 _ _ _ _ Htasks Hgr)).
  exec_cases Hexec;
    try (destruct (Hsk _ _ Hgr) as [Hskip Hact]; simpl in Hskip, Hact);
    try (destruct (Hlive _ _ Hgr eq_refl) as (Hnd & Hnw1 & Hnw2); simpl);
    unfold live_inv, notify; simpl;
    repeat match goal with |- context [match ?x with _ => _ end] =>
      destruct x eqn:?; simpl end;
    rewrite ?Hmain, ?Hwatcher in *;
    (split_and!;
     [ try done; try (split; [done|congruence]); try (by rewrite <- Hctx);
       try (split; intros; congruence);
       try (split; [intros Hc; apply Hctx in Hc;
                    try (assert (run_watcher st = WNone) by (by apply Hwn));
                    congruence|congruence])
     | try done; try (intros [?|?]; congruence); try (intros _; lia);
       try (intros Hw; apply Hw0 in Hw; lia);
       try (intros _; apply Hw0; auto)
     | try done; try (split; intros; congruence); try naive_solver
     | try done
     | try done; try (repeat case_decide; try done; lia)
     | try done; try (apply Forall_insert; [done|]; simpl; try rewrite Hnd; done) ]).
Qed.
End LiveInv.

Section Termination.
Context {Action : Type}.
Variable g : Graph Action.
Variable mayCancel : bool.
Implicit Types st : session Action.

Lemma notify_fields d st :
  run_tasks (notify d st) = run_tasks st ∧ run_main (notify d st) = run_main st ∧
  run_watcher (notify d st) = run_watcher st ∧
  run_ctxDone (notify d st) = run_ctxDone st ∧
  run_trace (notify d st) = run_trace st ∧ run_wg (notify d st) = run_wg st ∧
  run_dfsWait (notify d st) = run_dfsWait st ∧ run_now (notify d st) = run_now st ∧
  run_stats (notify d st) = run_stats st.
Proof. unfold notify. by destruct (run_waits st !! d). Qed.

Lemma measure_task st st' i gr p :
  run_tasks st !! i = Some gr →
  run_tasks st' = <[ i := mkGoroutine (g_name gr) (g_action gr) p ]> (run_tasks st) →
  (rank g (mkGoroutine (g_name gr) (g_action gr) p) < rank g gr)%nat →
  run_main st' = run_main st → run_watcher st' = run_watcher st →
  run_ctxDone st' = run_ctxDone st →
  (measure g st' < measure g st)%nat.
Proof.
  intros Hgr Ht Hrank Hm Hw Hc. unfold measure. rewrite Ht, Hm, Hw, Hc.
  pose proof (sum_list_with_insert (rank g) _ i gr
                (mkGoroutine (g_name gr) (g_action gr) p) Hgr).
  lia.
Qed.

(** Every step brings the session closer to its end. *)
Lemma measure_exec l st st' :
  exec g mayCancel l st = Some st' → (measure g st' < measure g st)%nat.
Proof.
  intros Hexec.
  exec_cases Hexec;
    try (eapply measure_task; [exact Hgr|..]; simpl;
         rewrite ?(proj1 (notify_fields _ _));
         [reflexivity| |try reflexivity; apply notify_fields..];
         unfold rank; simpl; try (destruct (run_ctxDone st); simpl); try lia;
         assert (size (rem ∖ {[d]}) < size rem)%nat
           by (apply subset_size; set_solver); lia);
    unfold measure; simpl; rewrite ?Hmain, ?Hwatcher;
    try (apply andb_true_iff in Hcancel as [_ Hc]; apply negb_true_iff in Hc;
         rewrite Hc);
    destruct (run_ctxDone st), (run_main st), (run_watcher st); simpl; lia.
Qed.
End Termination.

Section Progress.
Context {Action : Type}.
Variable g : Graph Action.
Variable mayCancel : bool.
Hypothesis Hwf : wf g.
Implicit Types st : session Action.
Implicit Types gr : goroutine Action.

(** Past the barrier a goroutine can always step, unless it waits for
    its wait group or has ended. *)
Lemma enabled_task st i gr :
  run_tasks st !! i = Some gr →
  run_dfsWait st = 0 →
  is_Some (g_action gr) →
  g_pc gr ≠ PWait → (∀ r, g_pc gr ≠ PEnd r) →
  ∃ l st', exec g mayCancel l st = Some st'.
Proof.
  intros Hgr Hdw [a Ha] Hnw Hne. destruct gr as [name act p]. simpl in *. subst act.
  destruct p as [| | | | | | | | |r|r rem|r|r]; try done.
  - exists (LHook i (run_now st)). eexists. simpl. rewrite Hgr. simpl.
    unfold exec_hook, hook. simpl. rewrite decide_True by lia. done.
  - exists (LTask i). eexists. simpl. rewrite Hgr. simpl.
    unfold exec_task. simpl. rewrite decide_True by done. done.
  - exists (LTask i). eexists. simpl. rewrite Hgr. done.
  - exists (LTask i). eexists. simpl. rewrite Hgr. done.
  - exists (LHook i (run_now st)). eexists. simpl. rewrite Hgr. simpl.
    unfold exec_hook, hook. simpl. rewrite decide_True by lia. done.
  - exists (LTask i). eexists. simpl. rewrite Hgr. done.
  - exists (LTask i). eexists. simpl. rewrite Hgr. done.
  - exists (LHook i (run_now st)). eexists. simpl. rewrite Hgr. simpl.
    unfold exec_hook, hook. simpl. rewrite decide_True by lia. done.
  - exists (LTask i). eexists. simpl. rewrite Hgr. done.
  - destruct (set_choose_or_empty rem) as [[d Hd]|Hrem].
    + exists (LNotify i d). eexists. simpl. rewrite Hgr. simpl.
      unfold exec_notify. simpl. rewrite decide_True by done. done.
    + apply leibniz_equiv in Hrem. subst rem.
      exists (LTask i). eexists. simpl. rewrite Hgr. simpl.
      unfold exec_task. simpl. rewrite decide_True by done. done.
  - exists (LHook i (run_now st)). eexists. simpl. rewrite Hgr. simpl.
    unfold exec_hook, hook. simpl. rewrite decide_True by lia. done.
  - by destruct (Hne r).
Qed.

Lemma blocked_dec st x :
  (∃ y, prereq g x y ∧ blocked st y) ∨ (∀ y, ¬ (prereq g x y ∧ blocked st y)).
Proof.
  destruct (decide (Exists (λ gr, g_name gr ∈ prerequisites g x ∧ g_pc gr = PWait)
                      (run_tasks st))) as [Hex|Hno].
  - left. apply Exists_exists in Hex as (gr & Hgr & Hp & Hpc).
    exists (g_name gr). split; [done|]. by exists gr.
  - right. intros y [Hp (gr & Hgr & <- & Hpc)]. apply Hno, Exists_exists. eauto.
Qed.

(** While the context of a successful, uncancelled resolution of an
    acyclic graph is not done, some thread can step. *)
Lemma live_progress names st :
  acyclic g →
  base_inv g names st → live_inv st →
  (∀ d, d ∈ names → unvisited g names d = 0%nat) →
  run_ctxDone st = false →
  ∃ l st', exec g mayCancel l st = Some st'.
Proof.
  intros Hac Hinv (Hctx & Hw0 & Hwn & Hmd & Hdw & Htasks) Hall Hnd.
  (* the caller's thread *)
  destruct (run_main st) eqn:Hmain; try done;
    try (exists LMain; eexists; simpl; unfold exec_main; by rewrite Hmain).
  rewrite decide_True in Hdw by done.
  (* the watcher *)
  destruct (run_watcher st) eqn:Hwatcher.
  { destruct Hwn as [Hwn _]. by specialize (Hwn eq_refl). }
  2:{ exists LWatcher. eexists. simpl. unfold exec_watcher. by rewrite Hwatcher. }
  2:{ destruct Hctx as [_ Hctx]. rewrite Hctx in Hnd; done. }
  destruct (decide (run_wg st = 0)) as [Hz|Hnz].
  { exists LWatcher. eexists. simpl. unfold exec_watcher.
    rewrite Hwatcher, decide_True by done. done. }
  (* some goroutine has not called s.wg.Done() *)
  pose proof Hinv as (Hn & Hnodup & _ & Hrem & _ & _ & Hw & _ & Hwg).
  assert (∃ i gr, run_tasks st !! i = Some gr ∧ before_done (g_pc gr) = true)
    as (i & gr & Hgr & Hbd).
  { destruct (sum_list_with_pos
                (λ gr, if before_done (g_pc gr) then 1%nat else 0%nat) (run_tasks st))
      as (i & gr & Hgr & Hpos); [lia|].
    exists i, gr. split; [done|]. simpl in Hpos.
    destruct (before_done (g_pc gr)); [done|lia]. }
  assert (∀ j grj, run_tasks st !! j = Some grj → is_Some (g_action grj)) as Hact.
  { intros j grj Hj. by destruct (Forall_lookup_1 _ _ _ _ Htasks Hj). }
  destruct (decide (g_pc gr = PWait)) as [Hwait|Hnwait]; last first.
  { eapply enabled_task; eauto. intros r Hr. by rewrite Hr in Hbd. }
  (* it waits: follow blocked prerequisites down to a blocked goroutine
     none of whose prerequisites is blocked *)
  destruct (acyclic_reaches_sink (λ x y, prereq g x y ∧ blocked st y)
              (list_to_set names)) with (x := g_name gr) as (d & Hreach & Hsink).
  { intros x y _ [_ (gry & Hgry & <- & _)]. rewrite elem_of_list_to_set, <- Hn.
    apply list_elem_of_fmap. eauto. }
  { intros x Htc. apply (Hac x).
    eapply (tc_congruence id (prereq g)); [|exact Htc]. by intros ? ? [? _]. }
  { intros x. apply blocked_dec. }
  { rewrite elem_of_list_to_set, <- Hn. apply list_elem_of_fmap. exists gr.
    split; [done|]. apply list_elem_of_lookup. eauto. }
  assert (blocked st d) as (grd & Hgrd & Hdn & Hdpc).
  { apply rtc_inv_r in Hreach as [<-|(z & _ & _ & Hb)]; [|done].
    exists gr. split_and!; try done. apply list_elem_of_lookup. eauto. }
  apply list_elem_of_lookup in Hgrd as [k Hk].
  assert (d ∈ names) as Hdin.
  { rewrite <- Hn. apply list_elem_of_fmap. exists grd. split; [done|].
    apply list_elem_of_lookup. eauto. }
  pose proof (Hw d) as Hwd. rewrite decide_True, (Hall d Hdin) in Hwd by done.
  destruct (decide (sum_list_with (owes g d) (run_tasks st) = 0%nat)) as [Hs|Hs].
  { exists (LTask k). eexists. simpl. rewrite Hk. simpl.
    unfold exec_task. rewrite Hdpc, Hdn, decide_True; [done|].
    rewrite Hwd, Hs. done. }
  (* a prerequisite still has to decrement the wait group of [d] *)
  destruct (sum_list_with_pos (owes g d) (run_tasks st)) as (j & grp & Hj & Hpos); [lia|].
  unfold owes in Hpos. destruct (decide (d ∈ pending g grp)) as [Hpend|]; [|lia].
  destruct (decide (g_pc grp = PWait)) as [Hpw|Hpnw].
  { exfalso. apply (Hsink (g_name grp)). split.
    - destruct Hwf as (Ht & _). apply Ht. unfold pending in Hpend.
      by rewrite Hpw in Hpend.
    - exists grp. split_and!; try done. apply list_elem_of_lookup. eauto. }
  destruct (g_pc grp) as [| | | | | | | | |r|r rem|r|r] eqn:Hpc;
    try (eapply enabled_task; eauto; rewrite Hpc; done).
  unfold pending in Hpend. rewrite Hpc in Hpend. set_solver.
Qed.
End Progress.

Section Counting.
Context {Action : Type}.
Variable g : Graph Action.
Implicit Types st : session Action.
Implicit Types gr : goroutine Action.

Lemma sum_list_with_names (f : string → nat) (l : list (goroutine Action)) :
  sum_list_with f (g_name <$> l) = sum_list_with (λ gr, f (g_name gr)) l.
Proof. induction l as [|x l IH]; simpl; [done|by f_equal]. Qed.

Lemma count_named names (l : list (goroutine Action)) n :
  g_name <$> l = names → NoDup names →
  sum_list_with (λ gr, if decide (g_name gr = n) then 1 else 0)%nat l =
  if decide (n ∈ names) then 1%nat else 0%nat.
Proof.
  intros <- Hnd. rewrite <- (sum_unique n _ Hnd).
  symmetry. apply (sum_list_with_names (λ m, if decide (m = n) then 1 else 0)%nat).
Qed.

Lemma call_count_le gr n :
  (countb (is_call n) (emitted gr) ≤ if decide (g_name gr = n) then 1 else 0)%nat.
Proof.
  unfold emitted, called. destruct gr as [name act p]. simpl.
  destruct p as [| | | | | | | | |[]|[]|[]|[]], act; simpl;
    repeat case_bool_decide; repeat case_decide; simpl; try lia; congruence.
Qed.

Lemma call_count gr n :
  before_done (g_pc gr) = false → skipped (g_pc gr) = false → is_Some (g_action gr) →
  countb (is_call n) (emitted gr) = (if decide (g_name gr = n) then 1 else 0)%nat ∧
  countb (is_return n) (emitted gr) = (if decide (g_name gr = n) then 1 else 0)%nat.
Proof.
  unfold emitted, called. destruct gr as [name act p]. simpl. intros Hb Hs [a ->].
  destruct p as [| | | | | | | | |[]|[]|[]|[]]; simpl in *; try done;
    repeat case_bool_decide; repeat case_decide; simpl; try done; congruence.
Qed.

Lemma at_most_once names st : base_inv g names st → ran_at_most_once g st.
Proof.
  intros Hinv. pose proof Hinv as (Hn & Hnd & Hact & _ & Htr & _). split.
  - intros n. rewrite Htr.
    etrans; [apply (sum_list_with_le _ (λ gr, if decide (g_name gr = n) then 1 else 0)%nat)|].
    { intros gr. apply call_count_le. }
    rewrite (count_named names _ n Hn Hnd). case_decide; lia.
  - intros n a Hin.
    destruct (called_task g names st n a Hinv Hin) as (gr & Hgr & <- & Ha & _).
    rewrite <- Ha. symmetry. exact (proj1 (Forall_forall _ _) Hact gr Hgr).
Qed.

Lemma all_ran names st :
  base_inv g names st → live_inv st →
  (∀ n, n ∈ dom (actions g) → n ∈ names) →
  all_ran_when_done g st.
Proof.
  intros (Hn & Hnd & _ & _ & Htr & _ & _ & _ & Hwg)
         (Hctx & Hw0 & _ & _ & _ & Htasks) Hall Hdone n Hin.
  assert (run_wg st = 0) as Hz by (apply Hw0; right; by apply Hctx).
  rewrite Hwg in Hz.
  assert (sum_list_with (λ gr, if before_done (g_pc gr) then 1%nat else 0%nat)
            (run_tasks st) = 0%nat) as Hsum by lia.
  apply sum_list_with_zero in Hsum.
  assert (Forall (λ gr,
            countb (is_call n) (emitted gr)
              = (if decide (g_name gr = n) then 1 else 0)%nat ∧
            countb (is_return n) (emitted gr)
              = (if decide (g_name gr = n) then 1 else 0)%nat) (run_tasks st)) as Hcnt.
  { apply Forall_forall. intros gr Hgr.
    pose proof (proj1 (Forall_forall _ _) Hsum gr Hgr) as Hb. simpl in Hb.
    destruct (proj1 (Forall_forall _ _) Htasks gr Hgr) as [Hs Ha].
    apply call_count; try done. by destruct (before_done (g_pc gr)). }
  assert (sum_list_with (λ gr, if decide (g_name gr = n) then 1 else 0)%nat (run_tasks st)
          = 1%nat) as Hone.
  { rewrite (count_named names _ n Hn Hnd). rewrite decide_True; [done|]. by apply Hall. }
  rewrite !Htr. split.
  - rewrite <- Hone. apply sum_list_with_eq.
    eapply Forall_impl; [exact Hcnt|]. by intros gr [? _].
  - rewrite <- Hone. apply sum_list_with_eq.
    eapply Forall_impl; [exact Hcnt|]. by intros gr [_ ?].
Qed.
End Counting.

Section AcyclicGraphs.
Context {Action : Type}.
Variable E : Env.
Variable g : Graph Action.
Hypothesis HE : env_ok E.
Hypothesis Hwf : wf g.
Implicit Types s : search Action.

Lemma tc_flip (R : relation string) x y : tc (flip R) x y → tc R y x.
Proof.
  induction 1 as [x y Hxy|x y z Hxy _ IH]; [by apply tc_once|].
  eapply tc_r; [exact IH|exact Hxy].
Qed.

Lemma rtc_flip (R : relation string) x y : rtc (flip R) x y → rtc R y x.
Proof.
  induction 1 as [|x y z Hxy _ IH]; [done|]. eapply rtc_r; [exact IH|exact Hxy].
Qed.

Lemma reachable_registered n : reachable g n → n ∈ dom (actions g).
Proof.
  intros (x & [Hx _] & [<-|(z & _ & Hz)]%rtc_inv_r); [done|].
  destruct Hwf as (_ & Hr & _). by destruct (Hr _ _ Hz).
Qed.

(** In an acyclic graph every registered name is a prerequisite, at
    some remove, of a root. *)
Lemma acyclic_all_reachable n :
  acyclic g → n ∈ dom (actions g) → reachable g n.
Proof.
  intros Hac Hn. destruct Hwf as (Ht & Hr & _).
  destruct (acyclic_reaches_sink (flip (prereq g)) (dom (actions g))) with (x := n)
    as (x & Hreach & Hsink); try done.
  - intros a b _ Hab. by destruct (Hr _ _ Hab).
  - intros a Htc. by apply (Hac a), tc_flip.
  - intros a. destruct (set_choose_or_empty (dependents g a)) as [[b Hb]|Hempty].
    + left. exists b. by apply Ht.
    + right. intros b Hb. apply Ht in Hb. set_solver.
  - exists x. split; [|by apply rtc_flip].
    assert (x ∈ dom (actions g)) as Hx.
    { apply rtc_inv_r in Hreach as [<-|(z & _ & Hz)]; [done|].
      by destruct (Hr _ _ Hz). }
    split; [done|]. apply leibniz_equiv. apply elem_of_equiv_empty. intros b Hb.
    apply (Hsink b). by apply Ht.
Qed.

(** What the traversal leaves when nothing is cancelled and it reports
    no error: exactly the reachable names are visited, and none lies on
    a cycle. *)
Lemma traverse_live_ok s :
  live E → traverse E g = Some (s, None) →
  (∀ n, n ∈ visited s ↔ reachable g n) ∧ ¬ reachable_cycle g.
Proof.
  intros HL Hrun.
  destruct (traverse_spec E g HE Hwf) as (s' & r & Hrun' & Hinv & Hre & Hok & _).
  rewrite Hrun in Hrun'. injection Hrun' as <- <-.
  destruct (Hok eq_refl) as (_ & Hp & Hroots & Hfin).
  destruct (Hfin HL) as [Hcl Hacy].
  assert (finished s = visited s) as Hf by (unfold finished; rewrite Hp; set_solver).
  rewrite Hf in Hcl, Hacy.
  assert (∀ n, reachable g n → n ∈ visited s) as Hall.
  { intros n (x & Hx & Hxn). eapply (closed_rtc g (visited s) x n); eauto. }
  split.
  - intros n. split; [apply Hre|apply Hall].
  - intros (n & Hn & Htc). by apply (Hacy n (Hall n Hn)).
Qed.

Lemma traverse_acyclic :
  live E → acyclic g → actions g ≠ ∅ →
  ∃ s, traverse E g = Some (s, None) ∧ search_inv g s ∧
       visited s = dom (actions g).
Proof.
  intros HL Hac Hne.
  destruct (traverse_spec E g HE Hwf) as (s & r & Hrun & Hinv & Hre & Hok & Hko).
  destruct r as [e|].
  - exfalso. destruct (Hko e eq_refl) as [(_ & Hnil & _)|(_ & n & _ & Htc)].
    + destruct (map_choose _ Hne) as (n & a & Hn).
      destruct (acyclic_all_reachable n Hac) as (x & Hx & _).
      { apply elem_of_dom. eauto. }
      apply (is_root_collectRoots E g HE) in Hx. rewrite Hnil in Hx.
      by apply elem_of_nil in Hx.
    + by apply (Hac n).
  - exists s. split_and!; try done.
    destruct (traverse_live_ok s HL Hrun) as [Hvis _].
    apply set_eq. intros n. rewrite Hvis. split.
    + apply reachable_registered.
    + by apply acyclic_all_reachable.
Qed.

Lemma launch_live_inv s :
  live E → search_inv g s → visited s ⊆ dom (actions g) →
  live_inv (launch E s None).
Proof.
  intros HL (_ & Hnames & Hgr & _) Hsub. unfold live_inv, launch. simpl.
  rewrite (HL (polls s)). split_and!; try done; try (by intros [?|?]).
  apply Forall_forall. intros gr Hin. destruct (Hgr gr Hin) as [Ha ->].
  split; [done|]. rewrite Ha. apply elem_of_dom, Hsub, Hnames.
  apply list_elem_of_fmap. eauto.
Qed.

Lemma unvisited_none s d :
  search_inv g s → visited s = dom (actions g) →
  unvisited g (g_name <$> spawned s) d = 0%nat.
Proof.
  intros (_ & Hnames & _) Hvis. unfold unvisited. apply size_empty_iff.
  apply elem_of_equiv_empty. intros p [Hp Hnp]%elem_of_difference. apply Hnp.
  apply elem_of_list_to_set, Hnames. rewrite Hvis.
  destruct Hwf as (_ & Hr & _). by destruct (Hr _ _ Hp).
Qed.
End AcyclicGraphs.

Section StatsInv.
Context {Action : Type}.
Variable g : Graph Action.
Variable mayCancel : bool.
Implicit Types st : session Action.
Implicit Types gr : goroutine Action.

Lemma stamps_ok_mono p oe os ofn ox now now' :
  now ≤ now' → stamps_ok p oe os ofn ox now → stamps_ok p oe os ofn ox now'.
Proof.
  intros Hle. destruct p as [| | | | | | | | |[]|[]|[]|[]]; simpl; try done;
    intros H; repeat (destruct H as [? H]); repeat eexists; eauto; lia.
Qed.

(** A goroutine moves on without calling the recorder. *)
Lemma stats_inv_move st st' i gr p :
  stats_inv st →
  run_tasks st !! i = Some gr →
  run_tasks st' = <[ i := mkGoroutine (g_name gr) (g_action gr) p ]> (run_tasks st) →
  run_stats st' = run_stats st → run_now st' = run_now st →
  (∀ oe os ofn ox now, stamps_ok (g_pc gr) oe os ofn ox now → stamps_ok p oe os ofn ox now) →
  stats_inv st'.
Proof.
  intros [H0 Hinv] Hgr Ht Hs Hn Hp. unfold stats_inv. rewrite Ht, Hs, Hn.
  split; [done|].
  apply Forall_insert; [done|]. unfold stamps_of. simpl. apply Hp.
  exact (Forall_lookup_1 _ _ _ _ Hinv Hgr).
Qed.

(** A callback of the recorder at the reading [t]. *)
Lemma stats_inv_hook names st st' i gr p t :
  base_inv g names st → stats_inv st →
  run_tasks st !! i = Some gr →
  run_now st ≤ t →
  run_tasks st' = <[ i := mkGoroutine (g_name gr) (g_action gr) p ]> (run_tasks st) →
  run_now st' = t →
  (∀ n, n ≠ g_name gr →
     Statistics.enter (run_stats st') !! n = Statistics.enter (run_stats st) !! n ∧
     Statistics.start (run_stats st') !! n = Statistics.start (run_stats st) !! n ∧
     Statistics.finish (run_stats st') !! n = Statistics.finish (run_stats st) !! n ∧
     Statistics.exit (run_stats st') !! n = Statistics.exit (run_stats st) !! n) →
  (0 ≤ run_now st → stamps_of (run_stats st) (run_now st) gr →
   stamps_of (run_stats st') t (mkGoroutine (g_name gr) (g_action gr) p)) →
  stats_inv st'.
Proof.
  intros Hbase [H0 Hinv] Hgr Hle Ht Hn Hother Hnew. unfold stats_inv. rewrite Ht, Hn.
  split; [lia|].
  apply Forall_lookup. intros j x Hj.
  destruct (decide (j = i)) as [->|Hji].
  - rewrite list_lookup_insert_eq in Hj by (by eapply lookup_lt_Some).
    injection Hj as <-. apply Hnew; [done|]. exact (Forall_lookup_1 _ _ _ _ Hinv Hgr).
  - rewrite list_lookup_insert_ne in Hj by done.
    assert (g_name x ≠ g_name gr) as Hne.
    { intros Heq. apply Hji.
      destruct Hbase as (Hnames & Hnd & _). rewrite <- Hnames in Hnd.
      eapply (NoDup_lookup _ j i (g_name x) Hnd).
      - by rewrite list_lookup_fmap, Hj.
      - by rewrite list_lookup_fmap, Hgr, Heq. }
    unfold stamps_of. destruct (Hother _ Hne) as (-> & -> & -> & ->).
    eapply stamps_ok_mono; [exact Hle|]. exact (Forall_lookup_1 _ _ _ _ Hinv Hj).
Qed.

Lemma stats_inv_exec names l st st' :
  base_inv g names st → stats_inv st →
  exec g mayCancel l st = Some st' → stats_inv st'.
Proof.
  intros Hbase Hinv Hexec.
  exec_cases Hexec; try exact Hinv;
    try (eapply stats_inv_move; [exact Hinv|exact Hgr|..]; simpl;
         rewrite ?(proj1 (notify_fields _ _));
         [reflexivity|try reflexivity; apply notify_fields..|];
         simpl; try destruct (run_ctxDone st); try destruct ran; simpl; done);
    (eapply (stats_inv_hook names st _ i _ _ t);
     [exact Hbase|exact Hinv|exact Hgr|done|reflexivity|reflexivity|..];
     unfold stamps_of; simpl; unfold Statistics.recordTime;
     [ intros n Hne; rewrite ?lookup_insert_ne by done; done
     | try destruct ran; simpl; intros Hnow Hst;
       repeat match goal with
              | Hx : ∃ _, _ |- _ => destruct Hx as [? Hx]
              | Hx : _ ∧ _ |- _ => destruct Hx as [? ?]
              end;
       repeat match goal with
              | |- ∃ _, _ => eexists
              | |- _ ∧ _ => split
              end;
       first [ apply lookup_insert_eq | eassumption | lia ] ]).
Qed.

Lemma stats_inv_steps names st st' :
  base_inv g names st → stats_inv st →
  rtc (step g mayCancel) st st' → stats_inv st'.
Proof.
  intros Hbase Hinv Hsteps. revert Hbase Hinv.
  induction Hsteps as [|st1 st2 st3 [l Hl] _ IH]; intros Hbase Hinv; [done|].
  apply IH.
  - by eapply base_inv_exec.
  - by eapply stats_inv_exec.
Qed.
End StatsInv.

Section Runs.
Context {Action : Type}.
Variable g : Graph Action.
Variable mayCancel : bool.

Lemma run_steps ls : ∀ st st',
  run g mayCancel ls st = Some st' → rtc (step g mayCancel) st st'.
Proof.
  induction ls as [|l ls IH]; intros st st' Hrun; simpl in Hrun.
  - by simplify_eq.
  - destruct (exec g mayCancel l st) as [st1|] eqn:Hl; [|done]. simpl in Hrun.
    eapply rtc_l; [by exists l|]. by apply IH.
Qed.
End Runs.

Example single_resolves :
  snd <$> Resolve (sortedEnv false) (singleGraph (λ n : string, n)) = Some None.
Proof. vm_compute. reflexivity. Qed.

Example chain_runs :
  (st0 ← fst <$> Resolve (sortedEnv false) (chainGraph (λ n : string, n));
   st ← run (chainGraph (λ n : string, n)) false run_chain st0;
   Some (run_ctxDone st, run_trace st)) =
  Some (true,
        [EvExit "b"; EvFinish "b"; EvReturn "b"; EvCall "b" "b"; EvStart "b";
         EvExit "a"; EvFinish "a"; EvReturn "a"; EvCall "a" "a"; EvStart "a";
         EvEnter "b"; EvEnter "a"]).
Proof. vm_compute. reflexivity. Qed.

Section TestGraphFacts.
Context {Action : Type}.
Variable visitorAction : string → Action.

Lemma built_addActions names (g : Graph Action) :
  built g → built (addActions visitorAction names g).
Proof.
  revert g. induction names as [|n names IH]; intros g Hg; [done|].
  apply IH. by apply built_AddAction.
Qed.

Lemma built_linkAll links (g : Graph Action) :
  built g → built (linkAll links g).
Proof.
  revert g. induction links as [|l links IH]; intros g Hg; [done|].
  apply IH. by apply built_LinkDependency.
Qed.

Lemma built_chainGraph : built (chainGraph visitorAction).
Proof. apply built_linkAll, built_addActions, built_NewGraph. Qed.
Lemma built_singleGraph : built (singleGraph visitorAction).
Proof. apply built_addActions, built_NewGraph. Qed.
Lemma built_noRootsGraph : built (noRootsGraph visitorAction).
Proof. apply built_linkAll, built_addActions, built_NewGraph. Qed.
Lemma built_deepCycleGraph : built (deepCycleGraph visitorAction).
Proof. apply built_linkAll, built_addActions, built_NewGraph. Qed.
Lemma built_definedGraph : built (definedGraph visitorAction).
Proof. apply built_linkAll, built_addActions, built_NewGraph. Qed.
Lemma built_diamondGraph : built (diamondGraph visitorAction).
Proof. apply built_linkAll, built_addActions, built_NewGraph. Qed.

(** A rank that decreases along prerequisite edges excludes cycles. *)
Lemma acyclic_ranked (rank : string → nat) (g : Graph Action) :
  (∀ d p, prereq g d p → (rank p < rank d)%nat) → acyclic g.
Proof.
  intros Hrank.
  assert (∀ x y, tc (prereq g) x y → (rank y < rank x)%nat) as Htc.
  { induction 1 as [x y Hxy|x y z Hxy _ IH]; [by apply Hrank|].
    specialize (Hrank _ _ Hxy). lia. }
  intros n Hn. specialize (Htc _ _ Hn). lia.
Qed.

Lemma acyclic_NewGraph : acyclic (NewGraph (Action:=Action)).
Proof.
  apply (acyclic_ranked (λ _, 0%nat)). intros d p Hp.
  unfold prereq, prerequisites, stringmultimap.get in Hp. simpl in Hp.
  rewrite lookup_empty in Hp. set_solver.
Qed.

Lemma acyclic_singleGraph : acyclic (singleGraph visitorAction).
Proof.
  apply (acyclic_ranked (λ _, 0%nat)). intros d p Hp.
  unfold prereq, prerequisites, stringmultimap.get in Hp. simpl in Hp.
  rewrite lookup_empty in Hp. set_solver.
Qed.

Lemma acyclic_chainGraph : acyclic (chainGraph visitorAction).
Proof.
  apply (acyclic_ranked (λ n, if decide (n = "b") then 1 else 0)%nat). intros d p Hp.
  unfold prereq, prerequisites, stringmultimap.get in Hp.
  assert (treeOrder (chainGraph visitorAction) = {[ "b" := {[ "a" ]} ]}) as Ht
    by (vm_compute; reflexivity).
  rewrite Ht in Hp. destruct (decide (d = "b")) as [->|Hd].
  - rewrite lookup_singleton_eq in Hp. simpl in Hp.
    apply elem_of_singleton in Hp as ->. by vm_compute.
  - rewrite lookup_singleton_ne in Hp by done. set_solver.
Qed.
End TestGraphFacts.

(** * Registration (claims C9 and C10) *)

(** C10. [AddAction] returns an error exactly when the name is empty; then
    the graph is unchanged; otherwise the action is stored under the name,
    replacing an earlier one, and both adjacency maps are unchanged. *)
Theorem C10_AddAction {Action : Type} (g : Graph Action) (name : string) (action : Action) :
  let r := AddAction g name action in
  (r.2 ≠ None ↔ name = "") ∧
  (r.2 ≠ None → r.1 = g) ∧
  (r.2 = None →
     actions r.1 = <[ name := action ]> (actions g) ∧
     actions r.1 !! name = Some action ∧
     (∀ other, other ≠ name → actions r.1 !! other = actions g !! other) ∧
     treeOrder r.1 = treeOrder g ∧ graphOrder r.1 = graphOrder g).
Proof.
  unfold AddAction. case_decide; simpl.
  - split_and!; [naive_solver|done|done].
  - split_and!; [naive_solver|done|]. intros _. split_and!; try done.
    + apply lookup_insert_eq.
    + intros other Hne. by rewrite lookup_insert_ne.
Qed.

(** C9. In every graph built through the API the two adjacency maps
    are transposes of each other and join registered names only; a
    [LinkDependency] on it fails exactly when a name is empty or has no
    action, and then changes nothing; when it succeeds both names were
    registered and the edge is added to both maps, and nothing else. *)
Theorem C9_transposes {Action : Type} (g : Graph Action) (parent name : string) :
  built g →
  transposed g ∧ edges_registered g ∧
  let r := LinkDependency g parent name in
  (r.2 ≠ None ↔
     name = "" ∨ parent = "" ∨ actions g !! name = None ∨ actions g !! parent = None) ∧
  (r.2 ≠ None → r.1 = g) ∧
  (r.2 = None →
     name ∈ dom (actions g) ∧ parent ∈ dom (actions g) ∧
     actions r.1 = actions g ∧
     (∀ p c, p ∈ prerequisites r.1 c ↔ p ∈ prerequisites g c ∨ (p = parent ∧ c = name)) ∧
     (∀ p c, c ∈ dependents r.1 p ↔ c ∈ dependents g p ∨ (p = parent ∧ c = name))) ∧
  transposed r.1 ∧ edges_registered r.1.
Proof.
  intros Hb. destruct (built_wf g Hb) as (Ht & Hr & _).
  destruct (built_wf _ (built_LinkDependency g parent name Hb)) as (Ht' & Hr' & _).
  cbv zeta. split_and!; try done.
  - apply LinkDependency_error.
  - apply LinkDependency_failed.
  - apply LinkDependency_ok.
Qed.

Lemma C9_witness :
  built (chainGraph (λ n : string, n)) ∧
  transposed (chainGraph (λ n : string, n)) ∧
  edges_registered (chainGraph (λ n : string, n)).
Proof.
  split; [apply built_chainGraph|].
  destruct (C9_transposes (chainGraph (λ n : string, n)) "a" "b"
              (built_chainGraph (λ n : string, n))) as (Ht & Hr & _).
  split; [exact Ht|exact Hr].
Defined.

(** * The root finder (claim C7) *)

(** C7. Whatever the order in which the map of actions is ranged over,
    [collectRoots] yields, once each, exactly the registered names with
    no dependent; on the tree of the tests these are f, g, d, j and k. *)
Theorem C7_collectRoots {Action : Type} (E : Env) (g : Graph Action)
    (visitorAction : string → Action) :
  env_ok E →
  (∀ name, name ∈ collectRoots E g ↔ name ∈ dom (actions g) ∧ dependents g name = ∅) ∧
  NoDup (collectRoots E g) ∧
  (∀ E', env_ok E' → collectRoots E' g ≡ₚ collectRoots E g) ∧
  list_to_set (collectRoots E (definedGraph visitorAction)) = test_roots.
Proof.
  intros HE. split_and!.
  - intros name. by apply elem_of_collectRoots.
  - by apply NoDup_collectRoots.
  - intros E' HE'. apply NoDup_Permutation; try by apply NoDup_collectRoots.
    intros x. by rewrite !elem_of_collectRoots.
  - apply set_eq. intros x. rewrite elem_of_list_to_set, elem_of_collectRoots by done.
    rewrite <- (elem_of_collectRoots (sortedEnv false)) by apply env_ok_sortedEnv.
    rewrite <- (elem_of_list_to_set (C:=gset string)).
    assert (list_to_set (collectRoots (sortedEnv false) (definedGraph visitorAction))
            = test_roots) as -> by (vm_compute; reflexivity).
    done.
Qed.

Lemma C7_witness :
  env_ok (sortedEnv false) ∧
  list_to_set (collectRoots (sortedEnv false) (definedGraph (λ n : string, n)))
  = test_roots.
Proof.
  split; [apply env_ok_sortedEnv|].
  apply (C7_collectRoots (sortedEnv false) (definedGraph (λ n : string, n))
           (λ n : string, n) (env_ok_sortedEnv false)).
Defined.

(** * Sessions launched by Resolve *)

Section Launched.
Context {Action : Type}.
Variable E : Env.
Variable g : Graph Action.
Variable mayCancel : bool.
Hypothesis HE : env_ok E.
Hypothesis Hwf : wf g.
Implicit Types st : session Action.

Lemma launch_ord_inv s r : ord_inv g (launch E s r).
Proof. intros l1 l2 d a p a' Hsplit. by destruct l1. Qed.

Lemma launch_stats_inv s r : search_inv g s → stats_inv (launch E s r).
Proof.
  intros (_ & _ & Hgr & _). split; [done|]. simpl.
  apply Forall_forall. intros gr Hin. destruct (Hgr gr Hin) as [_ Hpc].
  unfold stamps_of. by rewrite Hpc.
Qed.

Lemma Resolve_launched :
  ∃ s r, Resolve E g = Some (launch E s r, r) ∧
         traverse E g = Some (s, r) ∧
         search_inv g s ∧
         base_inv g (g_name <$> spawned s) (launch E s r).
Proof.
  destruct (traverse_spec E g HE Hwf) as (s & r & Hrun & Hinv & _).
  exists s, r. split_and!; try done.
  - by apply Resolve_traverse.
  - by apply launch_base_inv.
Qed.

Lemma ctxDone_mono l st st' :
  exec g mayCancel l st = Some st' → run_ctxDone st = true → run_ctxDone st' = true.
Proof.
  intros Hexec Hd. exec_cases Hexec; simpl; try done;
    rewrite ?(proj1 (proj2 (proj2 (proj2 (notify_fields _ _))))); done.
Qed.

Lemma ctxDone_steps st st' :
  rtc (step g mayCancel) st st' → run_ctxDone st = true → run_ctxDone st' = true.
Proof.
  induction 1 as [|st1 st2 st3 [l Hl] _ IH]; [done|].
  intros Hd. apply IH. by eapply ctxDone_mono.
Qed.

Lemma no_tasks_steps st st' :
  rtc (step g mayCancel) st st' →
  run_tasks st = [] → run_trace st = [] →
  run_tasks st' = [] ∧ run_trace st' = [].
Proof.
  induction 1 as [|st1 st2 st3 [l Hl] _ IH]; [done|].
  intros Ht Htr. apply IH; exec_cases Hl; simpl; try done;
    rewrite Ht in Hgr; done.
Qed.
End Launched.

Lemma resolve_and_run_steps {Action : Type} (E : Env) (mayCancel : bool)
    (g : Graph Action) ls st r :
  resolve_and_run E mayCancel g ls = Some (st, r) →
  ∃ st0, Resolve E g = Some (st0, r) ∧ rtc (step g mayCancel) st0 st.
Proof.
  unfold resolve_and_run. destruct (Resolve E g) as [[st0 r0]|]; [|done].
  destruct (run g mayCancel ls st0) as [st1|] eqn:Hrun; [|done].
  intros [= -> ->]. exists st0. split; [done|]. by eapply run_steps.
Qed.

Lemma cancelled_sortedEnv : cancelled (sortedEnv true).
Proof. by intros k. Qed.

Lemma live_sortedEnv : live (sortedEnv false).
Proof. by intros k. Qed.

(** * The threads of a session *)

Section SchedInv.
Context {Action : Type}.
Variable g : Graph Action.
Variable mayCancel : bool.
Implicit Types st : session Action.
Implicit Types gr : goroutine Action.

Lemma sched_inv_exec names l st st' :
  base_inv g names st → sched_inv st →
  exec g mayCancel l st = Some st' → sched_inv st'.
Proof.
  intros Hinv (Hdw & Hbar & Hw0 & Hwe & Hwn & Hmw) Hexec.
  assert (∀ i gr, run_tasks st !! i = Some gr → waiting_barrier (g_pc gr) = false →
            run_main st = MReturned) as Hret.
  { intros i gr Hgr Hb. destruct (decide (run_main st = MReturned)) as [|Hne]; [done|].
    pose proof (Forall_lookup_1 _ _ _ _ (Hbar Hne) Hgr) as Hb'. simpl in Hb'. congruence. }
  assert (∀ i gr, run_tasks st !! i = Some gr → before_done (g_pc gr) = true →
            run_watcher st ≠ WDone ∧ run_watcher st ≠ WEnd) as Hlive.
  { intros i gr Hgr Hb. pose proof (before_done_counted g names st i gr Hinv Hgr Hb).
    split; intros Hw; rewrite Hw in Hw0; assert (run_wg st = 0) by auto; lia. }
  exec_cases Hexec;
    try (pose proof (Hret _ _ Hgr eq_refl) as Hm);
    try (destruct (Hlive _ _ Hgr eq_refl) as [Hnw1 Hnw2]);
    unfold sched_inv, notify; simpl;
    repeat match goal with |- context [match ?x with _ => _ end] =>
      destruct x eqn:?; simpl end;
    rewrite ?Hmain, ?Hwatcher, ?Hm in *.
  all: split_and!; try done; try congruence.
  all: try (repeat case_decide; try done; lia).
  all: try (intros; apply Forall_insert; [auto|done]).
  all: try (intros [?|?]; congruence).
  all: try (intros _; apply Hbar; done).
  all: try (intros Hw; destruct (Hwn Hw) as [?|[?|?]]; [congruence|congruence|auto]).
  all: try (intros Hm; apply Hmw in Hm; congruence).
  all: try (intros _; apply Hw0; auto).
Qed.

Lemma sched_inv_steps names st st' :
  base_inv g names st → sched_inv st →
  rtc (step g mayCancel) st st' → base_inv g names st' ∧ sched_inv st'.
Proof.
  intros Hinv Hs Hsteps. revert Hinv Hs.
  induction Hsteps as [|st1 st2 st3 [l Hl] _ IH]; [done|]. intros Hinv Hs.
  apply IH; [by eapply base_inv_exec|by eapply sched_inv_exec].
Qed.
End SchedInv.

Section SchedFacts.
Context {Action : Type}.
Variable E : Env.
Variable g : Graph Action.
Variable mayCancel : bool.
Hypothesis HE : env_ok E.
Hypothesis Hwf : wf g.
Implicit Types st : session Action.
Implicit Types gr : goroutine Action.

Lemma launch_sched_inv s r : search_inv g s → sched_inv (launch E s r).
Proof.
  intros (_ & _ & Hpc & _). unfold sched_inv, launch. simpl.
  split_and!; try (by destruct r); try (intros [?|?]; done).
  - intros _. apply Forall_forall. intros gr Hgr. destruct (Hpc gr Hgr) as [_ ->]. done.
  - intros _. destruct r; auto.
Qed.

Lemma no_watcher_exec l st st' :
  no_watcher st → exec g mayCancel l st = Some st' → no_watcher st'.
Proof.
  intros [Hm Hw] Hexec.
  exec_cases Hexec; unfold no_watcher, notify; simpl;
    repeat match goal with |- context [match ?x with _ => _ end] =>
      destruct x eqn:?; simpl end;
    try done; congruence.
Qed.

Lemma no_watcher_steps st st' :
  no_watcher st → rtc (step g mayCancel) st st' → no_watcher st'.
Proof.
  intros Hinv Hsteps. induction Hsteps as [|st1 st2 st3 [l Hl] _ IH]; [done|].
  apply IH. by eapply no_watcher_exec.
Qed.

(** Every goroutine holds the action registered under its name. *)
Lemma tasks_registered names st :
  base_inv g names st → (∀ n, n ∈ names → n ∈ dom (actions g)) →
  Forall (λ gr, is_Some (g_action gr)) (run_tasks st).
Proof.
  intros (Hn & _ & Hact & _) Hreg. apply Forall_forall. intros gr Hgr.
  rewrite (proj1 (Forall_forall _ _) Hact gr Hgr). apply elem_of_dom, Hreg.
  rewrite <- Hn. apply list_elem_of_fmap. eauto.
Qed.

Lemma spawned_registered s :
  search_inv g s → (∀ v, v ∈ visited s → reachable g v) →
  ∀ n, n ∈ g_name <$> spawned s → n ∈ dom (actions g).
Proof.
  intros (_ & Hnames & _) Hre n Hn. apply (reachable_registered g Hwf).
  by apply Hre, Hnames.
Qed.

(** Only [Enter] has been recorded while every goroutine is at the
    barrier. *)
Lemma barrier_trace names st :
  base_inv g names st →
  Forall (λ gr, waiting_barrier (g_pc gr) = true) (run_tasks st) →
  ∀ e, e ∈ run_trace st → ∃ n, e = EvEnter n.
Proof.
  intros (_ & _ & _ & _ & _ & Hmem & _) Hbar e He.
  destruct (Hmem e He) as (gr & Hgr & Hin).
  pose proof (proj1 (Forall_forall _ _) Hbar gr Hgr) as Hb. simpl in Hb.
  destruct gr as [name act p]. unfold emitted in Hin. simpl in *.
  destruct p; try done.
  - by apply elem_of_nil in Hin.
  - apply list_elem_of_singleton in Hin. eauto.
Qed.

(** No goroutine is before [s.wg.Done()] once [s.wg] is at zero. *)
Lemma wg_zero_all_done names st :
  base_inv g names st → run_wg st = 0 →
  Forall (λ gr, before_done (g_pc gr) = false) (run_tasks st).
Proof.
  intros Hinv Hz. apply Forall_lookup. intros i gr Hgr.
  destruct (before_done (g_pc gr)) eqn:Hb; [|done].
  pose proof (before_done_counted g names st i gr Hinv Hgr Hb). lia.
Qed.
End SchedFacts.

Section Uncommitted.
Context {Action : Type}.
Variable g : Graph Action.
Variable mayCancel : bool.
Implicit Types st : session Action.
Implicit Types gr : goroutine Action.

Lemma uncommitted_exec l st st' k gk :
  run_ctxDone st = true →
  run_tasks st !! k = Some gk → uncommitted (g_pc gk) = true →
  exec g mayCancel l st = Some st' →
  ∃ gr', run_tasks st' !! k = Some gr' ∧ g_name gr' = g_name gk ∧
         uncommitted (g_pc gr') = true.
Proof.
  intros Hd Hi Hu Hexec.
  assert (k < length (run_tasks st))%nat as Hlt by (by eapply lookup_lt_Some).
  exec_cases Hexec; unfold notify; simpl;
    repeat match goal with |- context [match ?x with _ => _ end] =>
      destruct x eqn:?; simpl end;
    try (by exists gk);
    (destruct (decide (i = k)) as [->|Hne];
     [ rewrite list_lookup_insert_eq by done; rewrite Hi in Hgr; injection Hgr as ->;
       simpl in Hu;
       first [ done
             | eexists; split; [reflexivity|]; simpl; rewrite ?Hd; done ]
     | rewrite list_lookup_insert_ne by done; by exists gk ]).
Qed.

Lemma uncommitted_steps st st' i gr :
  run_ctxDone st = true →
  run_tasks st !! i = Some gr → uncommitted (g_pc gr) = true →
  rtc (step g mayCancel) st st' →
  ∃ gr', run_tasks st' !! i = Some gr' ∧ g_name gr' = g_name gr ∧
         uncommitted (g_pc gr') = true.
Proof.
  intros Hd Hi Hu Hsteps. revert gr Hd Hi Hu.
  induction Hsteps as [|st1 st2 st3 [l Hl] _ IH]; intros gr Hd Hi Hu; [by exists gr|].
  destruct (uncommitted_exec _ _ _ _ _ Hd Hi Hu Hl) as (gr' & Hi' & Hn & Hu').
  destruct (IH gr' (ctxDone_mono g mayCancel _ _ _ Hl Hd) Hi' Hu') as (gr'' & ? & ? & ?).
  exists gr''. split_and!; try done. congruence.
Qed.

Lemma emitted_committed gr n :
  EvStart n ∈ emitted gr → g_name gr = n ∧ uncommitted (g_pc gr) = false.
Proof.
  unfold emitted, called. destruct gr as [name act p]. simpl.
  destruct p as [| | | | | | | | |[]|[]|[]|[]], act; simpl;
    rewrite ?elem_of_cons, ?elem_of_nil; naive_solver.
Qed.
End Uncommitted.

(** * A traversal that saw no cancellation *)

Section Calm.
Context {Action : Type}.
Variable E : Env.
Variable g : Graph Action.
Implicit Types s : search Action.










End Calm.

(** * Progress of a session *)

Section GeneralProgress.
Context {Action : Type}.
Variable g : Graph Action.
Variable mayCancel : bool.
Hypothesis Hwf : wf g.
Implicit Types st : session Action.
Implicit Types gr : goroutine Action.

Lemma tc_blocked st x y :
  tc (λ x y, prereq g x y ∧ blocked st y) x y → blocked st y ∧ tc (prereq g) x y.
Proof.
  induction 1 as [x y [Hp Hb]|x y z [Hp Hb] _ [IHb IHt]].
  - split; [done|by apply tc_once].
  - split; [done|]. by eapply tc_l.
Qed.

Lemma blocked_named names st x :
  base_inv g names st → blocked st x → x ∈ names.
Proof.
  intros (Hn & _) (gr & Hgr & <- & _). rewrite <- Hn. apply list_elem_of_fmap. eauto.
Qed.

(** A state of a session is the end of every thread, or some thread
    can step: a goroutine waits for its wait group only while a
    prerequisite still has to decrement it. *)
Lemma sched_progress names st :
  base_inv g names st → sched_inv st →
  Forall (λ gr, is_Some (g_action gr)) (run_tasks st) →
  ((∃ gr, gr ∈ run_tasks st ∧ g_pc gr = PWait) →
     (∀ d, d ∈ names → unvisited g names d = 0%nat) ∧
     (∀ x, x ∈ names → ¬ tc (prereq g) x x)) →
  ended st ∨ ∃ l st', exec g mayCancel l st = Some st'.
Proof.
  intros Hinv (Hdw & Hbar & Hw0 & Hwe & Hwn & Hmw) Hacts Hwait.
  destruct (run_main st) eqn:Hmain;
    try (right; exists LMain; eexists; simpl; unfold exec_main; by rewrite Hmain).
  rewrite decide_True in Hdw by done.
  assert (∀ j grj, run_tasks st !! j = Some grj → is_Some (g_action grj)) as Hact
    by (intros j grj Hj; exact (Forall_lookup_1 _ _ _ _ Hacts Hj)).
  pose proof Hinv as (Hn & Hnodup & _ & Hrem & _ & _ & Hw & _ & Hwg).
  destruct (decide (Forall (λ gr, at_end (g_pc gr) = true) (run_tasks st)))
    as [Hend|Hnend].
  { (* every goroutine has ended *)
    assert (run_wg st = 0) as Hz.
    { rewrite Hwg. apply (f_equal Z.of_nat (y := 0%nat)), sum_list_with_zero.
      eapply Forall_impl; [exact Hend|]. intros gr He. simpl in *.
      by destruct (g_pc gr). }
    destruct (run_watcher st) eqn:Hwatcher.
    - left. split_and!; auto. destruct (Hwn eq_refl) as [?|[?|?]]; done.
    - right. exists LWatcher. eexists. simpl. unfold exec_watcher.
      rewrite Hwatcher, decide_True by done. done.
    - right. exists LWatcher. eexists. simpl. unfold exec_watcher. by rewrite Hwatcher.
    - left. split_and!; auto. }
  right.
  apply not_Forall_Exists in Hnend; [|apply _].
  apply Exists_exists in Hnend as (gr & Hgr & Hne). simpl in Hne.
  apply list_elem_of_lookup in Hgr as [i Hgr].
  destruct (decide (g_pc gr = PWait)) as [Hpw|Hnw]; last first.
  { eapply enabled_task; eauto. intros r Hr. by rewrite Hr in Hne. }
  destruct Hwait as [Hall Hac].
  { exists gr. split; [|done]. apply list_elem_of_lookup. eauto. }
  (* follow blocked prerequisites down to a blocked goroutine none of
     whose prerequisites is blocked *)
  destruct (acyclic_reaches_sink (λ x y, prereq g x y ∧ blocked st y)
              (list_to_set names)) with (x := g_name gr) as (d & Hreach & Hsink).
  { intros x y _ [_ Hb]. rewrite elem_of_list_to_set. by eapply blocked_named. }
  { intros x Htc. apply tc_blocked in Htc as [Hb Htc].
    apply (Hac x); [by eapply blocked_named|done]. }
  { intros x. apply blocked_dec. }
  { rewrite elem_of_list_to_set, <- Hn. apply list_elem_of_fmap. exists gr.
    split; [done|]. apply list_elem_of_lookup. eauto. }
  assert (blocked st d) as (grd & Hgrd & Hdn & Hdpc).
  { apply rtc_inv_r in Hreach as [<-|(z & _ & _ & Hb)]; [|done].
    exists gr. split_and!; try done. apply list_elem_of_lookup. eauto. }
  apply list_elem_of_lookup in Hgrd as [k Hk].
  assert (d ∈ names) as Hdin.
  { rewrite <- Hn. apply list_elem_of_fmap. exists grd. split; [done|].
    apply list_elem_of_lookup. eauto. }
  pose proof (Hw d) as Hwd. rewrite decide_True, (Hall d Hdin) in Hwd by done.
  destruct (decide (sum_list_with (owes g d) (run_tasks st) = 0%nat)) as [Hs|Hs].
  { exists (LTask k). eexists. simpl. rewrite Hk. simpl.
    unfold exec_task. rewrite Hdpc, Hdn, decide_True; [done|].
    rewrite Hwd, Hs. done. }
  destruct (sum_list_with_pos (owes g d) (run_tasks st)) as (j & grp & Hj & Hpos); [lia|].
  unfold owes in Hpos. destruct (decide (d ∈ pending g grp)) as [Hpend|]; [|lia].
  destruct (decide (g_pc grp = PWait)) as [Hpw'|Hpnw].
  { exfalso. apply (Hsink (g_name grp)). split.
    - destruct Hwf as (Ht & _). apply Ht. unfold pending in Hpend.
      by rewrite Hpw' in Hpend.
    - exists grp. split_and!; try done. apply list_elem_of_lookup. eauto. }
  destruct (g_pc grp) as [| | | | | | | | |r|r rem|r|r] eqn:Hpc;
    try (eapply enabled_task; eauto; rewrite Hpc; done).
  unfold pending in Hpend. rewrite Hpc in Hpend. set_solver.
Qed.

(** In a session where no goroutine gets to its action nobody waits
    for a wait group, so the session always moves on, and at its end
    every goroutine has skipped its action. *)
Lemma skip_progress names st :
  base_inv g names st → sched_inv st → skip_inv st →
  Forall (λ gr, is_Some (g_action gr)) (run_tasks st) →
  ended st ∨ ∃ l st', exec g mayCancel l st = Some st'.
Proof.
  intros Hbase Hsched (Hidle & _) Hacts.
  apply (sched_progress names st Hbase Hsched Hacts).
  intros (gr & Hgr & Hpc). exfalso.
  pose proof (proj1 (Forall_forall _ _) Hidle gr Hgr) as Hi. simpl in Hi.
  by rewrite Hpc in Hi.
Qed.

Lemma skip_ended st :
  skip_inv st → ended st → Forall (λ gr, g_pc gr = PEnd false) (run_tasks st).
Proof.
  intros (Hidle & _) (_ & _ & _ & Hend). apply Forall_forall. intros gr Hgr.
  pose proof (proj1 (Forall_forall _ _) Hidle gr Hgr) as Hi.
  pose proof (proj1 (Forall_forall _ _) Hend gr Hgr) as He. simpl in *.
  by destruct (g_pc gr) as [| | | | | | | | |[]|[]|[]|[]].
Qed.

(** Every step brings the session closer to its end. *)
Lemma run_measure ls : ∀ st st',
  run g mayCancel ls st = Some st' →
  (length ls + measure g st' ≤ measure g st)%nat.
Proof.
  induction ls as [|l ls IH]; intros st st' Hrun; simpl in Hrun.
  - simplify_eq. simpl. lia.
  - destruct (exec g mayCancel l st) as [st1|] eqn:Hl; [|done]. simpl in Hrun.
    apply IH in Hrun. apply measure_exec in Hl. simpl. lia.
Qed.
End GeneralProgress.

Section NoLeak.
Context {Action : Type}.
Variable E : Env.
Variable g : Graph Action.
Hypothesis HE : env_ok E.
Hypothesis Hwf : wf g.
Implicit Types s : search Action.

End NoLeak.


(** * The order of the events of a name *)

Section TraceInv.
Context {Action : Type}.
Variable g : Graph Action.
Variable mayCancel : bool.
Implicit Types st : session Action.
Implicit Types gr : goroutine Action.

Lemma events_of_cons name (e : event Action) l :
  events_of name (e :: l) =
  if decide (ev_name e = name) then e :: events_of name l else events_of name l.
Proof. unfold events_of. rewrite filter_cons. by case_decide. Qed.

Lemma trace_inv_other names st st' i gr p l :
  base_inv g names st → trace_inv st →
  run_tasks st !! i = Some gr →
  run_tasks st' = <[ i := mkGoroutine (g_name gr) (g_action gr) p ]> (run_tasks st) →
  (∀ n, n ≠ g_name gr → events_of n (run_trace st') = events_of n (run_trace st)) →
  events_of (g_name gr) (run_trace st') = l ++ events_of (g_name gr) (run_trace st) →
  emitted (mkGoroutine (g_name gr) (g_action gr) p) = l ++ emitted gr →
  trace_inv st'.
Proof.
  intros Hbase Hinv Hgr Ht Hother Hmine Hem. unfold trace_inv. rewrite Ht.
  apply Forall_lookup. intros j x Hj.
  destruct (decide (j = i)) as [->|Hji].
  - rewrite list_lookup_insert_eq in Hj by (by eapply lookup_lt_Some).
    injection Hj as <-. simpl. rewrite Hmine, Hem. f_equal.
    exact (Forall_lookup_1 _ _ _ _ Hinv Hgr).
  - rewrite list_lookup_insert_ne in Hj by done.
    assert (g_name x ≠ g_name gr) as Hne.
    { intros Heq. apply Hji.
      destruct Hbase as (Hnames & Hnd & _). rewrite <- Hnames in Hnd.
      eapply (NoDup_lookup _ j i (g_name x) Hnd).
      - by rewrite list_lookup_fmap, Hj.
      - by rewrite list_lookup_fmap, Hgr, Heq. }
    rewrite (Hother _ Hne). exact (Forall_lookup_1 _ _ _ _ Hinv Hj).
Qed.

(** A goroutine moves on without an event. *)
Lemma trace_inv_same names st st' i gr p :
  base_inv g names st → trace_inv st →
  run_tasks st !! i = Some gr →
  run_tasks st' = <[ i := mkGoroutine (g_name gr) (g_action gr) p ]> (run_tasks st) →
  run_trace st' = run_trace st →
  emitted (mkGoroutine (g_name gr) (g_action gr) p) = emitted gr →
  trace_inv st'.
Proof.
  intros Hbase Hinv Hgr Ht Htr Hem.
  eapply (trace_inv_other names st st' i gr p []); try done.
  - intros n _. by rewrite Htr.
  - by rewrite Htr.
Qed.

(** A goroutine moves on with an event about its name. *)
Lemma trace_inv_log names st st' i gr p e :
  base_inv g names st → trace_inv st →
  run_tasks st !! i = Some gr →
  run_tasks st' = <[ i := mkGoroutine (g_name gr) (g_action gr) p ]> (run_tasks st) →
  run_trace st' = e :: run_trace st →
  ev_name e = g_name gr →
  emitted (mkGoroutine (g_name gr) (g_action gr) p) = e :: emitted gr →
  trace_inv st'.
Proof.
  intros Hbase Hinv Hgr Ht Htr He Hem.
  eapply (trace_inv_other names st st' i gr p [e]); try done.
  - intros n Hn. rewrite Htr, events_of_cons, decide_False; [done|congruence].
  - by rewrite Htr, events_of_cons, decide_True.
Qed.

Lemma trace_inv_exec names l st st' :
  base_inv g names st → trace_inv st →
  exec g mayCancel l st = Some st' → trace_inv st'.
Proof.
  intros Hbase Hinv Hexec.
  exec_cases Hexec; try exact Hinv;
    first
      [ eapply (trace_inv_same names st _ i); [exact Hbase|exact Hinv|exact Hgr|..];
        simpl; rewrite ?(proj1 (notify_fields _ _));
        [reflexivity|try reflexivity; apply notify_fields|];
        simpl; try destruct (run_ctxDone st); try destruct ran; reflexivity
      | eapply (trace_inv_log names st _ i); [exact Hbase|exact Hinv|exact Hgr|..];
        simpl; [reflexivity|reflexivity|reflexivity|];
        try destruct ran; reflexivity ].
Qed.

Lemma trace_inv_steps names st st' :
  base_inv g names st → trace_inv st →
  rtc (step g mayCancel) st st' → trace_inv st'.
Proof.
  intros Hbase Hinv Hsteps. revert Hbase Hinv.
  induction Hsteps as [|st1 st2 st3 [l Hl] _ IH]; intros Hbase Hinv; [done|].
  apply IH.
  - by eapply base_inv_exec.
  - by eapply trace_inv_exec.
Qed.

Lemma emitted_named gr (e : event Action) : e ∈ emitted gr → ev_name e = g_name gr.
Proof.
  unfold emitted, called. destruct gr as [name act p]. simpl.
  destruct p as [| | | | | | | | |[]|[]|[]|[]], act; simpl;
    rewrite ?elem_of_cons, ?elem_of_nil; naive_solver.
Qed.

(** The events about a name are those of its goroutine, and there are
    none when it has no goroutine. *)
Lemma events_of_task names st name :
  base_inv g names st → trace_inv st →
  ((name ∉ names) ∧ events_of name (run_trace st) = []) ∨
  (∃ gr, gr ∈ run_tasks st ∧ g_name gr = name ∧
         events_of name (run_trace st) = emitted gr).
Proof.
  intros Hbase Hinv. destruct (decide (name ∈ names)) as [Hin|Hnin].
  - right. destruct Hbase as (Hn & _). rewrite <- Hn in Hin.
    apply list_elem_of_fmap in Hin as (gr & -> & Hgr). exists gr. split_and!; try done.
    exact (proj1 (Forall_forall _ _) Hinv gr Hgr).
  - left. split; [done|]. destruct Hbase as (Hn & _ & _ & _ & _ & Hmem & _).
    destruct (events_of name (run_trace st)) as [|e l] eqn:Hev; [done|]. exfalso.
    assert (e ∈ events_of name (run_trace st)) as He by (rewrite Hev; apply list_elem_of_here).
    unfold events_of in He. apply list_elem_of_filter in He as [Hname He].
    destruct (Hmem e He) as (gr & Hgr & Hem). apply emitted_named in Hem.
    apply Hnin. rewrite <- Hn, <- Hname, Hem. apply list_elem_of_fmap. eauto.
Qed.

(** The events of a goroutine, oldest first, are the beginning of a
    full life, or [Enter] and [Exit] alone when it skipped its action. *)
Lemma emitted_life gr a :
  g_action gr = Some a →
  rev (emitted gr) = [EvEnter (g_name gr); EvExit (g_name gr)] ∨
  rev (emitted gr) `prefix_of` life (g_name gr) a.
Proof.
  unfold emitted, called, life. destruct gr as [name act p]. simpl. intros ->.
  destruct p as [| | | | | | | | |[]|[]|[]|[]]; simpl;
    first [ by left | right; eexists; reflexivity ].
Qed.
End TraceInv.

Lemma launch_trace_inv {Action : Type} (E : Env) (g : Graph Action)
    (s : search Action) (r : option error) :
  search_inv g s → trace_inv (launch E s r).
Proof.
  intros (_ & _ & Hpc & _). unfold trace_inv, launch. simpl.
  apply Forall_forall. intros gr Hgr. destruct (Hpc gr Hgr) as [_ Hp].
  unfold emitted. by rewrite Hp.
Qed.

(** * Resolutions that run no action (claims C4, C5 and C6) *)

(** C5. When every registered name has a dependent, [Resolve] fails
    with "no roots in graph" and launches no goroutine.  The caller's
    thread then calls [done()] and returns: its two steps lead to a state
    where [Resolve] has returned and the returned context is done.  In
    every state the session can reach there is no goroutine and nothing
    in the trace, the context is done once [Resolve] has returned, and
    either every thread has ended or some thread can step, each step
    bringing the session closer to its end. *)
Theorem C5_no_roots {Action : Type} (E : Env) (mayCancel : bool) (g : Graph Action) :
  env_ok E →
  actions g ≠ ∅ →
  (∀ n, n ∈ dom (actions g) → dependents g n ≠ ∅) →
  ∃ st0, Resolve E g = Some (st0, Some err_no_roots) ∧
         run_tasks st0 = [] ∧ run_wg st0 = 0 ∧
         (∃ st1, run g mayCancel [LMain; LMain] st0 = Some st1 ∧
                 run_main st1 = MReturned ∧ run_ctxDone st1 = true ∧
                 run_tasks st1 = [] ∧ run_trace st1 = []) ∧
         ∀ st, rtc (step g mayCancel) st0 st →
           run_tasks st = [] ∧ run_trace st = [] ∧
           (run_main st = MReturned → run_ctxDone st = true) ∧
           (run_main st ≠ MReturned → ∃ st', exec g mayCancel LMain st = Some st') ∧
           (ended st ∨ ∃ l st', exec g mayCancel l st = Some st') ∧
           (∀ ls st', run g mayCancel ls st = Some st' →
              (length ls + measure g st' ≤ measure g st)%nat).
Proof.
  intros HE _ Hdep. pose proof (traverse_no_roots E g HE Hdep) as Hrun.
  exists (launch E newSearch (Some err_no_roots)). split_and!; try done.
  - by apply Resolve_traverse.
  - eexists. split; [reflexivity|]. by simpl.
  - intros st Hsteps.
    destruct (no_tasks_steps g mayCancel _ _ Hsteps) as [Ht Htr]; try done.
    assert (skip_inv (launch E (newSearch (Action:=Action)) (Some err_no_roots))) as Hskip.
    { unfold skip_inv, launch. simpl. split_and!; try by apply Forall_nil.
      right. split_and!; done. }
    assert (no_watcher (launch E (newSearch (Action:=Action)) (Some err_no_roots))) as Hno
      by (by split).
    destruct (no_watcher_steps g mayCancel _ _ Hno Hsteps) as [Hgo Hw].
    pose proof (proj2 (skip_inv_quiet _ (skip_inv_steps g mayCancel _ _ Hskip Hsteps)))
      as Hret.
    assert (run_main st ≠ MReturned → ∃ st', exec g mayCancel LMain st = Some st') as Hmain.
    { intros Hm. simpl. unfold exec_main. destruct (run_main st); try done; eauto. }
    split_and!; try done.
    + destruct (decide (run_main st = MReturned)) as [Hm|Hm].
      * left. split_and!; [done|by right|by apply Hret|rewrite Ht; by apply Forall_nil].
      * right. destruct (Hmain Hm) as [st' Hst']. by exists LMain, st'.
    + intros ls st'. apply run_measure.
Qed.

Lemma C5_witness :
  env_ok (sortedEnv false) ∧
  ∃ st0, Resolve (sortedEnv false) (noRootsGraph (λ n : string, n))
         = Some (st0, Some err_no_roots) ∧ run_tasks st0 = [] ∧
         ∃ st1, run (noRootsGraph (λ n : string, n)) false [LMain; LMain] st0 = Some st1 ∧
                run_main st1 = MReturned ∧ run_ctxDone st1 = true.
Proof.
  split; [apply env_ok_sortedEnv|].
  destruct (C5_no_roots (sortedEnv false) false (noRootsGraph (λ n : string, n)))
    as (st0 & Hr & Ht & _ & (st1 & Hrun & Hm & Hd & _) & _).
  - apply env_ok_sortedEnv.
  - intros Heq. apply (f_equal (λ m, m !! "a")) in Heq. vm_compute in Heq. discriminate.
  - intros n Hn Hdep.
    assert (dom (actions (noRootsGraph (λ n : string, n))) = {[ "a"; "b" ]}) as Hdom
      by (vm_compute; reflexivity).
    rewrite Hdom in Hn.
    apply elem_of_union in Hn as [Hn|Hn]; apply elem_of_singleton in Hn; subst n;
      vm_compute in Hdep; discriminate.
  - exists st0. split; [exact Hr|]. split; [exact Ht|].
    exists st1. split; [exact Hrun|]. split; [exact Hm|exact Hd].
Defined.

(** C4. When [Resolve] fails with "cycle detected" on a graph built
    through the API, the caller's thread calls [done()] and then releases
    the barrier: its two steps lead to a state where [Resolve] has
    returned, the barrier is open and the returned context is done.  In
    every state the session can reach, whatever the goroutines launched
    before the error do, no action is started or called (the trace only
    holds [Enter] and [Exit] events) and the barrier is open only if the
    context is done; either every thread has ended, and then every
    goroutine has skipped its action and run its deferred calls, or some
    thread can step, each step bringing the session closer to its end. *)
Theorem C4_cycle_runs_nothing {Action : Type} (E : Env) (mayCancel : bool)
    (g : Graph Action) (st0 st : session Action) :
  env_ok E → built g →
  Resolve E g = Some (st0, Some err_cycle) →
  rtc (step g mayCancel) st0 st →
  (∀ e, e ∈ run_trace st → quiet e) ∧
  (∀ name, countb (is_start name) (run_trace st) = 0%nat ∧
           countb (is_call name) (run_trace st) = 0%nat) ∧
  (run_main st = MReturned → run_ctxDone st = true) ∧
  (∃ st1, run g mayCancel [LMain; LMain] st0 = Some st1 ∧
          run_main st1 = MReturned ∧ run_dfsWait st1 = 0 ∧ run_ctxDone st1 = true) ∧
  (run_main st ≠ MReturned → ∃ st', exec g mayCancel LMain st = Some st') ∧
  (run_dfsWait st = 0 → run_ctxDone st = true) ∧
  (ended st ∨ ∃ l st', exec g mayCancel l st = Some st') ∧
  (∀ ls st', run g mayCancel ls st = Some st' →
     (length ls + measure g st' ≤ measure g st)%nat) ∧
  (ended st → Forall (λ gr, g_pc gr = PEnd false) (run_tasks st)).
Proof.
  intros HE Hb Hres Hsteps. pose proof (built_wf g Hb) as Hwf.
  destruct (traverse_spec E g HE Hwf) as (s & r' & Hrun & Hinv & Hre & _).
  pose proof (launch_base_inv E g Hwf s r' Hinv) as Hbase.
  rewrite (Resolve_traverse E g _ _ Hrun) in Hres. injection Hres as <- ->.
  assert (skip_inv st) as Hskip.
  { eapply skip_inv_steps; [|exact Hsteps]. apply (launch_skip_inv E g); eauto. }
  destruct (sched_inv_steps g mayCancel _ _ _ Hbase
              (launch_sched_inv E g s (Some err_cycle) Hinv) Hsteps)
    as [Hbase' Hsched].
  destruct (skip_inv_quiet _ Hskip) as [Hq Hret]. split_and!; try done.
  - intros name. split.
    + destruct (countb (is_start name) (run_trace st)) eqn:Hc; [done|].
      destruct (proj1 (countb_pos (is_start name) (run_trace st))) as (e & He & HP); [lia|].
      apply Hq in He. by destruct e.
    + destruct (countb (is_call name) (run_trace st)) eqn:Hc; [done|].
      destruct (proj1 (countb_pos (is_call name) (run_trace st))) as (e & He & HP); [lia|].
      apply Hq in He. by destruct e.
  - eexists. split; [reflexivity|]. by simpl.
  - intros Hm. simpl. unfold exec_main.
    destruct (run_main st); try done; eauto.
  - intros Hz. destruct Hskip as (_ & _ & [Hd|(_ & Hone & _)]); [done|]. lia.
  - apply (skip_progress g mayCancel Hwf _ st Hbase' Hsched Hskip).
    eapply tasks_registered; [exact Hbase'|]. by apply (spawned_registered g Hwf).
  - intros ls st'. apply run_measure.
  - by apply skip_ended.
Qed.

Lemma C4_witness :
  ∃ st0 st,
    Resolve (sortedEnv false) (deepCycleGraph (λ n : string, n))
      = Some (st0, Some err_cycle) ∧
    rtc (step (deepCycleGraph (λ n : string, n)) false) st0 st ∧
    length (run_tasks st) = 3%nat ∧ length (run_trace st) = 6%nat ∧
    run_main st = MReturned ∧ run_ctxDone st = true ∧
    (∀ e, e ∈ run_trace st → quiet e) ∧
    Forall (λ gr, g_pc gr = PEnd false) (run_tasks st).
Proof.
  assert (∃ st, resolve_and_run (sortedEnv false) false
                  (deepCycleGraph (λ n : string, n))
                  (run_after_cycle ++
                   [LHook 1 3; LTask 1; LTask 1; LTask 1; LNotify 1 "a"; LNotify 1 "c";
                    LTask 1; LHook 1 4;
                    LHook 2 5; LTask 2; LTask 2; LTask 2; LTask 2; LHook 2 6])
                = Some (st, Some err_cycle) ∧
                length (run_tasks st) = 3%nat ∧ length (run_trace st) = 6%nat ∧
                run_main st = MReturned ∧ run_ctxDone st = true ∧
                run_watcher st = WNone ∧
                bool_decide (Forall (λ gr, at_end (g_pc gr) = true) (run_tasks st)) = true)
    as (st & Hrun & Hn & Hlen & Hm & Hd & Hw & Hend)
    by (vm_compute; eexists; split_and!; reflexivity).
  destruct (resolve_and_run_steps _ _ _ _ _ _ Hrun) as (st0 & Hres & Hsteps).
  clear Hrun. exists st0, st.
  split; [exact Hres|]. split; [exact Hsteps|]. split; [exact Hn|]. split; [exact Hlen|].
  split; [exact Hm|]. split; [exact Hd|].
  destruct (C4_cycle_runs_nothing (sortedEnv false) false
              (deepCycleGraph (λ n : string, n)) st0 st
              (env_ok_sortedEnv false) (built_deepCycleGraph _) Hres Hsteps)
    as (Hq & _ & _ & _ & _ & _ & _ & _ & Hended).
  split; [exact Hq|]. apply Hended.
  split; [exact Hm|]. split; [right; exact Hw|]. split; [exact Hd|].
  apply bool_decide_eq_true in Hend. exact Hend.
Defined.

(** C6. When the caller's context is already done, [Resolve] on a graph
    built through the API that has a root returns no error; the returned
    context is done from the start and stays so, and no action is ever
    started or called. *)
Theorem C6_cancelled_before {Action : Type} (E : Env) (mayCancel : bool) (g : Graph Action) :
  env_ok E → cancelled E → built g →
  (∃ x, is_root g x) →
  ∃ st0, Resolve E g = Some (st0, None) ∧
         ∀ st, rtc (step g mayCancel) st0 st →
           run_ctxDone st = true ∧
           (∀ e, e ∈ run_trace st → quiet e) ∧
           (∀ name, countb (is_call name) (run_trace st) = 0%nat).
Proof.
  intros HE HC Hb [x Hx]. pose proof (built_wf g Hb) as Hwf.
  destruct (traverse_cancelled E g HE Hwf HC) as (s & Hrun & Hinv).
  { intros Hnil. apply (is_root_collectRoots E g HE) in Hx. rewrite Hnil in Hx.
    by apply elem_of_nil in Hx. }
  exists (launch E s None). split; [by apply Resolve_traverse|].
  intros st Hsteps.
  assert (skip_inv st) as Hskip.
  { eapply skip_inv_steps; [|exact Hsteps]. apply (launch_skip_inv E g); auto. }
  destruct (skip_inv_quiet _ Hskip) as [Hq _]. split_and!; try done.
  - eapply ctxDone_steps; [exact Hsteps|]. simpl. apply HC.
  - intros name.
    destruct (countb (is_call name) (run_trace st)) eqn:Hc; [done|].
    destruct (proj1 (countb_pos (is_call name) (run_trace st))) as (e & He & HP); [lia|].
    apply Hq in He. by destruct e.
Qed.

Lemma C6_witness :
  ∃ st0, Resolve (sortedEnv true) (chainGraph (λ n : string, n)) = Some (st0, None) ∧
         run_ctxDone st0 = true.
Proof.
  destruct (C6_cancelled_before (sortedEnv true) false (chainGraph (λ n : string, n)))
    as (st0 & Hres & Hall).
  - apply env_ok_sortedEnv.
  - apply cancelled_sortedEnv.
  - apply built_chainGraph.
  - exists "b". split.
    + apply (bool_decide_unpack _). vm_compute. exact I.
    + vm_compute. reflexivity.
  - exists st0. split; [exact Hres|]. apply (Hall st0). apply rtc_refl.
Defined.

(** * Cycle detection (claim C3) *)

(** C3, as the code has it.  Whenever the caller cancels, [Resolve] on
    a graph built through the API reports "cycle detected" only if some
    name reachable from a root along prerequisite edges reaches itself,
    so a name reachable along several paths is never taken for a cycle;
    a name is launched at most once, and only reachable names are
    launched.  When the caller's context is not cancelled during the
    traversal, [Resolve] reports "cycle detected" whenever there is such
    a name. *)
Theorem C3_cycle_detection {Action : Type} (E : Env) (g : Graph Action) :
  env_ok E → built g →
  ∃ st0 r, Resolve E g = Some (st0, r) ∧
    (r = Some err_cycle → reachable_cycle g) ∧
    (live E → reachable_cycle g → r = Some err_cycle) ∧
    NoDup (g_name <$> run_tasks st0) ∧
    (∀ n, n ∈ g_name <$> run_tasks st0 → reachable g n).
Proof.
  intros HE Hb. pose proof (built_wf g Hb) as Hwf.
  destruct (traverse_spec E g HE Hwf) as (s & r & Hrun & Hinv & Hre & Hok & Hko).
  exists (launch E s r), r. split_and!.
  - by apply Resolve_traverse.
  - intros ->. destruct (Hko _ eq_refl) as [(Heq & _)|(_ & Hc)]; [done|done].
  - intros HL Hcyc. destruct r as [e|].
    + destruct (Hko _ eq_refl) as [(_ & Hnil & _)|(-> & _)]; [|done].
      destruct Hcyc as (n & (x & Hx & _) & _).
      apply (is_root_collectRoots E g HE) in Hx. rewrite Hnil in Hx.
      by apply elem_of_nil in Hx.
    + by destruct (traverse_live_ok E g HE Hwf s HL Hrun) as [_ Hno].
  - by destruct Hinv as (Hnd & _).
  - intros n Hn. apply Hre. destruct Hinv as (_ & Hnames & _). by apply Hnames.
Qed.

Lemma C3_witness :
  (∃ st0, Resolve (sortedEnv false) (deepCycleGraph (λ n : string, n))
          = Some (st0, Some err_cycle) ∧
          reachable_cycle (deepCycleGraph (λ n : string, n))) ∧
  (∃ st0, Resolve (sortedEnv false) (diamondGraph (λ n : string, n)) = Some (st0, None) ∧
          NoDup (g_name <$> run_tasks st0) ∧ length (run_tasks st0) = 4%nat).
Proof.
  split.
  - destruct (C3_cycle_detection (sortedEnv false) (deepCycleGraph (λ n : string, n))
                (env_ok_sortedEnv false) (built_deepCycleGraph _))
      as (st0 & r & Hres & Honly & _).
    assert (snd <$> Resolve (sortedEnv false) (deepCycleGraph (λ n : string, n))
            = Some (Some err_cycle)) as Hr by (vm_compute; reflexivity).
    rewrite Hres in Hr. injection Hr as ->.
    exists st0. split; [exact Hres|]. by apply Honly.
  - destruct (C3_cycle_detection (sortedEnv false) (diamondGraph (λ n : string, n))
                (env_ok_sortedEnv false) (built_diamondGraph _))
      as (st0 & r & Hres & _ & _ & Hnd & _).
    assert ((λ p, (p.2, length (run_tasks p.1))) <$>
              Resolve (sortedEnv false) (diamondGraph (λ n : string, n))
            = Some (None, 4%nat)) as Hr by (vm_compute; reflexivity).
    rewrite Hres in Hr. simpl in Hr. injection Hr as -> Hlen.
    exists st0. split; [exact Hres|]. split; [exact Hnd|exact Hlen].
Defined.

(** The claim as stated fails twice.  On the graph of
    [TestGraph_Resolve_noRoots] a reaches itself through b, yet [Resolve]
    reports "no roots in graph": only names reachable from a root count.
    And on the graph of [TestGraph_Resolve_deepCycle], where the root c
    reaches a, which reaches itself through b, [Resolve] reports no error
    when the caller's context is already done, since the traversal does
    not descend from c. *)
Lemma C3_counterexample :
  (built (noRootsGraph (λ n : string, n)) ∧
   (∃ n, tc (prereq (noRootsGraph (λ n : string, n))) n n) ∧
   ¬ cycle_exact (sortedEnv false) (noRootsGraph (λ n : string, n))) ∧
  (built (deepCycleGraph (λ n : string, n)) ∧ env_ok (sortedEnv true) ∧
   reachable_cycle (deepCycleGraph (λ n : string, n)) ∧
   (∃ st0, Resolve (sortedEnv true) (deepCycleGraph (λ n : string, n))
           = Some (st0, None)) ∧
   ¬ cycle_exact_reachable (sortedEnv true) (deepCycleGraph (λ n : string, n))).
Proof.
  assert (∃ n, tc (prereq (noRootsGraph (λ n : string, n))) n n) as Hcyc.
  { exists "a". eapply tc_l; [|apply tc_once].
    - unfold prereq. instantiate (1 := "b").
      apply (bool_decide_unpack _). vm_compute. exact I.
    - unfold prereq. apply (bool_decide_unpack _). vm_compute. exact I. }
  assert (reachable_cycle (deepCycleGraph (λ n : string, n))) as Hreach.
  { exists "a". split.
    - exists "c". split.
      + split; [apply (bool_decide_unpack _); vm_compute; exact I|vm_compute; reflexivity].
      + eapply rtc_l; [|eapply rtc_l; [|apply rtc_refl]].
        * unfold prereq. instantiate (1 := "b").
          apply (bool_decide_unpack _). vm_compute. exact I.
        * unfold prereq. apply (bool_decide_unpack _). vm_compute. exact I.
    - eapply tc_l; [|apply tc_once].
      + unfold prereq. instantiate (1 := "b").
        apply (bool_decide_unpack _). vm_compute. exact I.
      + unfold prereq. apply (bool_decide_unpack _). vm_compute. exact I. }
  assert (snd <$> Resolve (sortedEnv true) (deepCycleGraph (λ n : string, n))
          = Some None) as Hdone by (vm_compute; reflexivity).
  split; split_and!.
  - apply built_noRootsGraph.
  - exact Hcyc.
  - intros (st0 & r & Hres & Hiff).
    assert (snd <$> Resolve (sortedEnv false) (noRootsGraph (λ n : string, n))
            = Some (Some err_no_roots)) as Hr by (vm_compute; reflexivity).
    rewrite Hres in Hr. injection Hr as ->.
    assert (Some err_no_roots = Some err_cycle) as Habs; [|discriminate].
    by apply Hiff.
  - apply built_deepCycleGraph.
  - apply env_ok_sortedEnv.
  - exact Hreach.
  - destruct (Resolve (sortedEnv true) (deepCycleGraph (λ n : string, n)))
      as [[st0 r]|]; [|discriminate].
    simpl in Hdone. injection Hdone as ->. by exists st0.
  - intros (st0 & r & Hres & Hiff). rewrite Hres in Hdone. simpl in Hdone.
    injection Hdone as ->.
    assert (None = Some err_cycle) as Habs; [|discriminate].
    by apply Hiff.
Qed.

(** * Successful resolutions (claims C1 and C2) *)

Section LiveSteps.
Context {Action : Type}.
Variable g : Graph Action.

Lemma live_inv_steps names (st st' : session Action) :
  base_inv g names st → live_inv st →
  rtc (step g false) st st' → base_inv g names st' ∧ live_inv st'.
Proof.
  intros Hbase Hlive Hsteps. revert Hbase Hlive.
  induction Hsteps as [|st1 st2 st3 [l Hl] _ IH]; intros Hbase Hlive; [done|].
  apply IH.
  - by eapply base_inv_exec.
  - by eapply live_inv_exec.
Qed.
End LiveSteps.

(** C1, as the code has it.  For every graph built through the API
    that has at least one action and no cycle, when the caller's context
    is not cancelled, [Resolve] returns no error; in every state the
    goroutines can reach, no action has been called twice and only
    registered actions have been called; once the returned context is
    done every registered action has been called exactly once and has
    returned; until then some thread can step, and every step brings the
    session closer to its end. *)
Theorem C1_resolve_runs_all {Action : Type} (E : Env) (g : Graph Action) :
  env_ok E → live E → built g → acyclic g → actions g ≠ ∅ →
  resolves_all E false g ∧
  ∃ st0, Resolve E g = Some (st0, None) ∧
    run_ctxDone st0 = false ∧
    ∀ st, rtc (step g false) st0 st →
      ran_at_most_once g st ∧
      (run_ctxDone st = false → ∃ l st', exec g false l st = Some st') ∧
      (∀ l st', exec g false l st = Some st' → (measure g st' < measure g st)%nat).
Proof.
  intros HE HL Hb Hac Hne. pose proof (built_wf g Hb) as Hwf.
  destruct (traverse_acyclic E g HE Hwf HL Hac Hne) as (s & Hrun & Hinv & Hvis).
  pose proof (launch_base_inv E g Hwf s None Hinv) as Hbase.
  assert (live_inv (launch E s None)) as Hlive.
  { apply (launch_live_inv E g); try done. by rewrite Hvis. }
  assert (∀ n, n ∈ dom (actions g) → n ∈ g_name <$> spawned s) as Hall.
  { intros n Hn. destruct Hinv as (_ & Hnames & _). apply Hnames. by rewrite Hvis. }
  split.
  - exists (launch E s None). split; [by apply Resolve_traverse|].
    intros st Hsteps.
    destruct (live_inv_steps g _ _ _ Hbase Hlive Hsteps) as [Hb' Hl'].
    by eapply all_ran.
  - exists (launch E s None). split_and!.
    + by apply Resolve_traverse.
    + simpl. apply HL.
    + intros st Hsteps.
      destruct (live_inv_steps g _ _ _ Hbase Hlive Hsteps) as [Hb' Hl']. split_and!.
      * by eapply at_most_once.
      * intros Hnd. eapply (live_progress g false Hwf); try done.
        intros d _. by apply (unvisited_none g Hwf).
      * intros l st' Hexec. by eapply measure_exec.
Qed.

Lemma C1_witness :
  resolves_all (sortedEnv false) false (chainGraph (λ n : string, n)).
Proof.
  apply (C1_resolve_runs_all (sortedEnv false) (chainGraph (λ n : string, n))).
  - apply env_ok_sortedEnv.
  - apply live_sortedEnv.
  - apply built_chainGraph.
  - apply acyclic_chainGraph.
  - intros Heq. apply (f_equal (λ m, m !! "a")) in Heq. vm_compute in Heq. discriminate.
Defined.

(** The claim as stated fails on the empty graph, which has no
    empty name and no cycle but makes [Resolve] fail with "no roots in
    graph"; and it fails under a context that is already done, where
    the returned context is done although no action has run. *)
Lemma C1_counterexample :
  (names_nonempty (NewGraph (Action:=string)) ∧ acyclic (NewGraph (Action:=string)) ∧
   ¬ resolves_all (sortedEnv false) false (NewGraph (Action:=string))) ∧
  (built (singleGraph (λ n : string, n)) ∧ acyclic (singleGraph (λ n : string, n)) ∧
   ¬ resolves_all (sortedEnv true) false (singleGraph (λ n : string, n))).
Proof.
  split; split_and!.
  - unfold names_nonempty. simpl. set_solver.
  - apply acyclic_NewGraph.
  - intros (st0 & Hres & _).
    assert (snd <$> Resolve (sortedEnv false) (NewGraph (Action:=string))
            = Some (Some err_no_roots)) as Hr by (vm_compute; reflexivity).
    rewrite Hres in Hr. discriminate.
  - apply built_singleGraph.
  - apply acyclic_singleGraph.
  - intros (st0 & Hres & Hall).
    assert ((λ p, (run_ctxDone p.1, run_trace p.1)) <$>
              Resolve (sortedEnv true) (singleGraph (λ n : string, n))
            = Some (true, [])) as Hr by (vm_compute; reflexivity).
    rewrite Hres in Hr. simpl in Hr. injection Hr as Hd Htr.
    destruct (Hall st0 (rtc_refl _ _) Hd "a") as [Hc _].
    + apply (bool_decide_unpack _). vm_compute. exact I.
    + rewrite Htr in Hc. discriminate.
Qed.

(** C2. In every state of a resolution of a graph built through the
    API, if the action of [d] was called and [d] depends on [p], then
    the action of [p], if it runs at all, had returned before that call
    (the trace is newest first); and a goroutine of [p] that has
    decremented the wait group of its dependent [d] is past its action. *)
Theorem C2_prerequisite_first {Action : Type} (E : Env) (mayCancel : bool)
    (g : Graph Action) (st0 st : session Action) (r : option error) :
  env_ok E → built g →
  Resolve E g = Some (st0, r) →
  rtc (step g mayCancel) st0 st →
  (∀ l1 l2 d a p a',
     run_trace st = l1 ++ EvCall d a :: l2 →
     p ∈ prerequisites g d →
     EvCall p a' ∈ run_trace st →
     EvReturn p ∈ l2) ∧
  (∀ gr d a,
     gr ∈ run_tasks st → d ∈ dependents g (g_name gr) → d ∉ pending g gr →
     EvCall (g_name gr) a ∈ run_trace st →
     EvReturn (g_name gr) ∈ run_trace st).
Proof.
  intros HE Hb Hres Hsteps. pose proof (built_wf g Hb) as Hwf.
  destruct (Resolve_launched E g HE Hwf) as (s & r' & Hres' & _ & Hinv & Hbase).
  rewrite Hres in Hres'. injection Hres' as -> <-.
  pose proof (base_inv_steps g mayCancel _ _ _ Hbase Hsteps) as Hbase'.
  split.
  - apply (ord_inv_steps g mayCancel Hwf _ _ _ Hbase (launch_ord_inv E g s r) Hsteps).
  - intros gr d a Hgr Hd Hpend Hcall.
    destruct (called_task g _ _ _ _ Hbase' Hcall) as (gr' & Hgr' & Hname & _ & Hcalled).
    assert (gr' = gr) as -> by (by eapply (task_unique g _ st)).
    eapply returned_in_trace; [exact Hbase'|done|].
    apply done_not_calling; [|done].
    unfold pending in Hpend. by destruct (g_pc gr).
Qed.

Lemma C2_witness :
  ∃ st0 st,
    Resolve (sortedEnv false) (chainGraph (λ n : string, n)) = Some (st0, None) ∧
    rtc (step (chainGraph (λ n : string, n)) false) st0 st ∧
    EvCall "b" "b" ∈ run_trace st ∧
    ∀ l1 l2 a a',
      run_trace st = l1 ++ EvCall "b" a :: l2 →
      EvCall "a" a' ∈ run_trace st → EvReturn "a" ∈ l2.
Proof.
  assert (∃ st, resolve_and_run (sortedEnv false) false
                  (chainGraph (λ n : string, n)) run_chain = Some (st, None) ∧
                run_trace st !! 3%nat = Some (EvCall "b" "b"))
    as (st & Hrun & Hcall)
    by (vm_compute; eexists; split; reflexivity).
  destruct (resolve_and_run_steps _ _ _ _ _ _ Hrun) as (st0 & Hres & Hsteps).
  clear Hrun. exists st0, st.
  split; [exact Hres|]. split; [exact Hsteps|]. split.
  - apply list_elem_of_lookup. exists 3%nat. exact Hcall.
  - intros l1 l2 a a' Hsplit Hin.
    destruct (C2_prerequisite_first (sortedEnv false) false
                (chainGraph (λ n : string, n)) st0 st None
                (env_ok_sortedEnv false) (built_chainGraph _) Hres Hsteps) as [Hord _].
    apply (Hord l1 l2 "b" a "a" a' Hsplit); [|exact Hin].
    apply (bool_decide_unpack _). vm_compute. exact I.
Defined.

(** * Statistics (claim C8) *)

Section StatsFacts.
Context {Action : Type}.
Variable g : Graph Action.
Hypothesis Hwf : wf g.
Implicit Types st : session Action.
Implicit Types gr : goroutine Action.

Lemma emitted_exit gr n :
  EvExit n ∈ emitted gr → g_name gr = n ∧ ∃ r, g_pc gr = PEnd r.
Proof.
  unfold emitted, called. destruct gr as [name act p]. simpl.
  destruct p as [| | | | | | | | |[]|[]|[]|[]], act; simpl;
    rewrite ?elem_of_cons, ?elem_of_nil; naive_solver.
Qed.

Lemma emitted_start gr n :
  EvStart n ∈ emitted gr → g_name gr = n ∧ skipped (g_pc gr) = false.
Proof.
  unfold emitted, called. destruct gr as [name act p]. simpl.
  destruct p as [| | | | | | | | |[]|[]|[]|[]], act; simpl;
    rewrite ?elem_of_cons, ?elem_of_nil; naive_solver.
Qed.

(** The goroutine behind an [Exit] in the trace has ended, and it ran
    its action exactly when a [Start] is in the trace. *)
Lemma exited_task names st n :
  base_inv g names st → EvExit n ∈ run_trace st →
  ∃ gr r, gr ∈ run_tasks st ∧ g_name gr = n ∧ g_pc gr = PEnd r ∧
          (r = true ↔ EvStart n ∈ run_trace st).
Proof.
  intros Hinv Hin. pose proof Hinv as (_ & _ & _ & _ & _ & Hmem & _).
  destruct (Hmem _ Hin) as (gr & Hgr & Hem).
  apply emitted_exit in Hem as (Hname & r & Hpc).
  exists gr, r. split_and!; try done. split.
  - intros ->.
    assert (EvStart n ∈ emitted gr) as Hs.
    { unfold emitted. rewrite Hpc, Hname. simpl.
      rewrite !elem_of_cons, elem_of_app, !elem_of_cons. tauto. }
    pose proof (event_in_trace g names st gr _ Hinv Hgr Hs (is_start n)) as Hpos.
    destruct (proj1 (countb_pos _ _) (Hpos ltac:(simpl; by rewrite bool_decide_true)))
      as (e & He & HP).
    destruct e; simpl in HP; try done. apply bool_decide_eq_true in HP. by subst.
  - intros Hs. destruct (Hmem _ Hs) as (gr' & Hgr' & Hem').
    apply emitted_start in Hem' as (Hname' & Hsk).
    assert (gr' = gr) as -> by (eapply (task_unique g names st); try done; congruence).
    rewrite Hpc in Hsk. by destruct r.
Qed.
End StatsFacts.

(** C8, as the code has it.  For a name whose task has ended, with the
    clock below the largest duration: when its action ran, wait and
    action add up to at most the total, the difference being the time
    from [Finish] to [Exit]; when it was skipped, wait and action are
    zero and the total is the time from [Enter] to [Exit]. *)
Theorem C8_statistics {Action : Type} (E : Env) (mayCancel : bool)
    (g : Graph Action) (st0 st : session Action) (r : option error) (name : string) :
  env_ok E → built g →
  Resolve E g = Some (st0, r) →
  rtc (step g mayCancel) st0 st →
  run_now st ≤ Statistics.maxDuration →
  EvExit name ∈ run_trace st →
  let W := Statistics.Wait (run_stats st) name in
  let A := Statistics.Action (run_stats st) name in
  let T := Statistics.Total (run_stats st) name in
  (EvStart name ∈ run_trace st →
     W + A ≤ T ∧ 0 ≤ W ∧ 0 ≤ A ∧
     ∃ tf tx, Statistics.finish (run_stats st) !! name = Some tf ∧
              Statistics.exit (run_stats st) !! name = Some tx ∧
              T = W + A + (tx - tf)) ∧
  (EvStart name ∉ run_trace st →
     W = 0 ∧ A = 0 ∧ 0 ≤ T ∧
     ∃ te tx, Statistics.enter (run_stats st) !! name = Some te ∧
              Statistics.exit (run_stats st) !! name = Some tx ∧
              T = tx - te).
Proof.
  intros HE Hb Hres Hsteps Hmax Hexit. pose proof (built_wf g Hb) as Hwf.
  destruct (Resolve_launched E g HE Hwf) as (s & r' & Hres' & _ & Hinv & Hbase).
  rewrite Hres in Hres'. injection Hres' as -> <-.
  pose proof (base_inv_steps g mayCancel _ _ _ Hbase Hsteps) as Hbase'.
  pose proof (stats_inv_steps g mayCancel _ _ _ Hbase (launch_stats_inv E g s r Hinv) Hsteps)
    as [Hnow Hstats].
  destruct (exited_task g _ _ _ Hbase' Hexit) as (gr & ran & Hgr & Hname & Hpc & Hran).
  pose proof (proj1 (Forall_forall _ _) Hstats gr Hgr) as Hst.
  unfold stamps_of in Hst. rewrite Hpc, Hname in Hst.
  unfold Statistics.maxDuration in Hmax.
  cbv zeta. unfold Statistics.Wait, Statistics.Action, Statistics.Total, Statistics.duration.
  destruct ran; simpl in Hst.
  - destruct Hst as (te & ts & tf & tx & -> & -> & -> & -> & ? & ? & ?).
    split; [|intros Hns; exfalso; by apply Hns, Hran].
    intros _. unfold Statistics.Sub, Statistics.maxDuration, Statistics.minDuration.
    repeat case_decide; try lia. split_and!; try lia.
    exists tf, tx. split_and!; try done. lia.
  - destruct Hst as (te & tx & -> & -> & -> & -> & ? & ?).
    split; [intros Hs; apply Hran in Hs; discriminate|].
    intros _. unfold Statistics.Sub, Statistics.maxDuration, Statistics.minDuration.
    repeat case_decide; try lia. split_and!; try lia.
    exists te, tx. split_and!; try done.
Qed.

Lemma C8_witness :
  ∃ st0 st,
    Resolve (sortedEnv false) (singleGraph (λ n : string, n)) = Some (st0, None) ∧
    rtc (step (singleGraph (λ n : string, n)) false) st0 st ∧
    EvExit "a" ∈ run_trace st ∧ EvStart "a" ∈ run_trace st ∧
    Statistics.Wait (run_stats st) "a" + Statistics.Action (run_stats st) "a"
    ≤ Statistics.Total (run_stats st) "a".
Proof.
  assert (∃ st, resolve_and_run (sortedEnv false) false
                  (singleGraph (λ n : string, n)) run_single = Some (st, None) ∧
                run_now st = 5 ∧
                run_trace st !! 0%nat = Some (EvExit "a") ∧
                run_trace st !! 4%nat = Some (EvStart "a"))
    as (st & Hrun & Hnow & Hx & Hs)
    by (vm_compute; eexists; split_and!; reflexivity).
  destruct (resolve_and_run_steps _ _ _ _ _ _ Hrun) as (st0 & Hres & Hsteps).
  clear Hrun. exists st0, st.
  assert (EvExit "a" ∈ run_trace st) as Hexit
    by (apply list_elem_of_lookup; exists 0%nat; exact Hx).
  assert (EvStart "a" ∈ run_trace st) as Hstart
    by (apply list_elem_of_lookup; exists 4%nat; exact Hs).
  split; [exact Hres|]. split; [exact Hsteps|]. split; [exact Hexit|].
  split; [exact Hstart|].
  destruct (C8_statistics (sortedEnv false) false (singleGraph (λ n : string, n))
              st0 st None "a" (env_ok_sortedEnv false) (built_singleGraph _) Hres Hsteps)
    as [Hran _].
  - rewrite Hnow. by vm_compute.
  - exact Hexit.
  - by destruct (Hran Hstart) as (Hle & _).
Defined.

(** The claim as stated fails on a single action: with the clock read
    at 1, 2, 3 and 5, wait and action are 1 each and the total is 4;
    and when the action is skipped under a done context, with the clock
    read at 1 and 5, the total is 4, not zero. *)
Lemma C8_counterexample :
  ¬ stats_always_balanced (sortedEnv false) false (singleGraph (λ n : string, n)) ∧
  ¬ stats_always_balanced (sortedEnv true) false (singleGraph (λ n : string, n)).
Proof.
  split.
  - intros Hbal.
    assert (observe (sortedEnv false) false (singleGraph (λ n : string, n)) run_single "a"
            = Some ([EvExit "a"; EvFinish "a"; EvReturn "a"; EvCall "a" "a"; EvStart "a";
                     EvEnter "a"], (1, 1, 4), None)) as Hobs
      by (vm_compute; reflexivity).
    unfold observe in Hobs.
    destruct (resolve_and_run _ _ _ _) as [[st r]|] eqn:Hrun; [|discriminate].
    injection Hobs as Htr HW HA HT ->.
    destruct (resolve_and_run_steps _ _ _ _ _ _ Hrun) as (st0 & Hres & Hsteps).
    clear Hrun. destruct (Hbal st0 None st Hres Hsteps "a") as [Hran _].
    + rewrite Htr. left.
    + rewrite HW, HA, HT in Hran. discriminate Hran.
      rewrite Htr. do 4 right. left.
  - intros Hbal.
    assert (observe (sortedEnv true) false (singleGraph (λ n : string, n)) skip_single "a"
            = Some ([EvExit "a"; EvEnter "a"], (0, 0, 4), None)) as Hobs
      by (vm_compute; reflexivity).
    unfold observe in Hobs.
    destruct (resolve_and_run _ _ _ _) as [[st r]|] eqn:Hrun; [|discriminate].
    injection Hobs as Htr HW HA HT ->.
    destruct (resolve_and_run_steps _ _ _ _ _ _ Hrun) as (st0 & Hres & Hsteps).
    clear Hrun. destruct (Hbal st0 None st Hres Hsteps "a") as [_ Hskip].
    + rewrite Htr. left.
    + destruct Hskip as (_ & _ & H0).
      * rewrite Htr. intros [Heq|[Heq|Hin%elem_of_nil]%elem_of_cons]%elem_of_cons;
          try discriminate; done.
      * rewrite HT in H0. discriminate H0.
Qed.

(** * Further properties: the string set, the multimap and the stack *)

(** What [Contains] and [len] see after [Add] and [Remove]: [Add] makes
    its element a member and keeps all others, [Remove] makes it a
    non-member and keeps all others; the length changes by one exactly
    when membership changes, and removing a freshly added element gives
    the set back. *)
Theorem StringSet_laws (ss : gset string) (s t : string) :
  StringSet.Contains (StringSet.Add ss s) t
    = (bool_decide (t = s) || StringSet.Contains ss t) ∧
  StringSet.Contains (StringSet.Remove ss s) t
    = (negb (bool_decide (t = s)) && StringSet.Contains ss t) ∧
  StringSet.len (StringSet.Add ss s)
    = (if StringSet.Contains ss s then StringSet.len ss else StringSet.len ss + 1) ∧
  StringSet.len (StringSet.Remove ss s)
    = (if StringSet.Contains ss s then StringSet.len ss - 1 else StringSet.len ss) ∧
  (StringSet.Contains ss s = false →
     StringSet.Remove (StringSet.Add ss s) s = ss) ∧
  StringSet.Add (StringSet.Add ss s) s = StringSet.Add ss s.
Proof.
  unfold StringSet.Contains, StringSet.Add, StringSet.Remove, StringSet.len.
  split_and!.
  - destruct (decide (t = s)) as [->|Hne].
    + rewrite (bool_decide_true (s = s)) by done. simpl.
      apply bool_decide_eq_true. set_solver.
    + rewrite (bool_decide_false (t = s)) by done. simpl.
      apply bool_decide_ext. set_solver.
  - destruct (decide (t = s)) as [->|Hne].
    + rewrite (bool_decide_true (s = s)) by done. simpl.
      apply bool_decide_eq_false. set_solver.
    + rewrite (bool_decide_false (t = s)) by done. simpl.
      apply bool_decide_ext. set_solver.
  - case_bool_decide as Hin.
    + do 2 f_equal. set_solver.
    + rewrite size_union by set_solver. rewrite size_singleton. lia.
  - case_bool_decide as Hin.
    + assert (ss = {[s]} ∪ ss ∖ {[s]}) as Heq.
      { apply set_eq. intros x. destruct (decide (x = s)); set_solver. }
      rewrite Heq at 2. rewrite (size_union {[s]} (ss ∖ {[s]})) by set_solver.
      rewrite size_singleton. lia.
    + do 2 f_equal. set_solver.
  - intros Hnin%bool_decide_eq_false. set_solver.
  - set_solver.
Qed.

Lemma string_app_assoc (a b c : string) : ((a ++ b) ++ c = a ++ (b ++ c))%string.
Proof.
  induction a as [|x a IH]; [done|].
  change (String x ((a ++ b) ++ c) = String x (a ++ (b ++ c)))%string. by f_equal.
Qed.

Lemma string_app_nil_r (a : string) : (a ++ "")%string = a.
Proof.
  induction a as [|x a IH]; [done|].
  change (String x (a ++ "")%string = String x a). by f_equal.
Qed.

Lemma String_loop_join (len : nat) (keys : list string) : ∀ (i : nat) (buf : string),
  (i + length keys = S len)%nat →
  StringSet.String_loop len i keys buf
  = (buf ++ String.concat "," ((λ s, StringSet.quote ++ s ++ StringSet.quote) <$> keys))%string.
Proof.
  induction keys as [|s keys IH]; intros i buf Hlen; simpl.
  - by rewrite string_app_nil_r.
  - simpl in Hlen. destruct keys as [|s' keys].
    + simpl in *. assert ((i <? len)%nat = false) as -> by (apply Nat.ltb_ge; lia).
      done.
    + assert ((i <? len)%nat = true) as -> by (apply Nat.ltb_lt; simpl in Hlen; lia).
      rewrite IH by (simpl in *; lia).
      change (String.concat "," ((λ s0, StringSet.quote ++ s0 ++ StringSet.quote)%string
                                   <$> s :: s' :: keys))
        with ((StringSet.quote ++ s ++ StringSet.quote) ++ "," ++
              String.concat "," ((λ s0, StringSet.quote ++ s0 ++ StringSet.quote)%string
                                   <$> s' :: keys))%string.
      by rewrite !string_app_assoc.
Qed.

(** [String] writes the elements between braces, each between double
    quotes, separated by commas with none after the last, whatever the
    order the map yields them in; the empty set gives "{}". *)
Theorem StringSet_String_join (range : gset string → list string) (ss : gset string) :
  range ss ≡ₚ elements ss →
  StringSet.String range ss
  = ("{" ++ String.concat "," ((λ s, StringSet.quote ++ s ++ StringSet.quote) <$> range ss)
         ++ "}")%string ∧
  (ss = ∅ → StringSet.String range ss = "{}").
Proof.
  intros Hperm.
  assert (length (range ss) = size ss) as Hlen by (by rewrite Hperm).
  unfold StringSet.String. split.
  - rewrite String_loop_join by lia. by rewrite string_app_assoc.
  - intros ->. assert (range ∅ = []) as Hnil.
    { apply Permutation_nil_r. by rewrite Hperm, elements_empty. }
    by rewrite Hnil.
Qed.

Lemma StringSet_String_join_witness :
  elements ({[ "a" ]} : gset string) ≡ₚ elements ({[ "a" ]} : gset string) ∧
  StringSet.String elements {[ "a" ]}
  = ("{" ++ StringSet.quote ++ "a" ++ StringSet.quote ++ "}")%string.
Proof.
  split; [reflexivity|].
  destruct (StringSet_String_join elements {[ "a" ]}) as [Hjoin _]; [reflexivity|].
  rewrite Hjoin. vm_compute. reflexivity.
Defined.

(** [Pop] and [Top] undo and read a [Push]; on an empty stack both
    panic, and on a non-empty one neither does, [Pop] shortening the stack
    by one and [Top] leaving it alone. *)
Theorem stringstack_push_pop (ss : stringstack.t) (s : string) :
  stringstack.Pop (stringstack.Push ss s) = Some (s, ss) ∧
  stringstack.Top (stringstack.Push ss s) = Some s ∧
  (stringstack.Pop ss = None ↔ stringstack.stack ss = []) ∧
  (stringstack.Top ss = None ↔ stringstack.stack ss = []) ∧
  (∀ top ss', stringstack.Pop ss = Some (top, ss') →
     stringstack.Top ss = Some top ∧
     stringstack.stack ss = stringstack.stack ss' ++ [top]).
Proof.
  destruct ss as [l]. unfold stringstack.Pop, stringstack.Top, stringstack.Push. simpl.
  split_and!.
  - rewrite length_app. simpl. rewrite Nat.add_1_r.
    rewrite lookup_app_r by lia. rewrite Nat.sub_diag. simpl.
    by rewrite take_app_length.
  - rewrite length_app. simpl. rewrite Nat.add_1_r.
    rewrite lookup_app_r by lia. by rewrite Nat.sub_diag.
  - destruct l as [|x l] using rev_ind; simpl; [done|].
    rewrite length_app. simpl. rewrite Nat.add_1_r.
    rewrite lookup_app_r by lia. rewrite Nat.sub_diag. simpl.
    split; [done|]. intros Heq. by apply app_nil in Heq as [_ ?].
  - destruct l as [|x l] using rev_ind; simpl; [done|].
    rewrite length_app. simpl. rewrite Nat.add_1_r.
    rewrite lookup_app_r by lia. rewrite Nat.sub_diag. simpl.
    split; [done|]. intros Heq. by apply app_nil in Heq as [_ ?].
  - intros top ss'. destruct l as [|x l] using rev_ind; simpl; [done|].
    rewrite length_app. simpl. rewrite Nat.add_1_r.
    rewrite lookup_app_r by lia. rewrite Nat.sub_diag. simpl.
    rewrite take_app_length. intros [= <- <-]. done.
Qed.

(** [stringmultimap.Add]: the set of the key gains the value and the
    other keys are untouched; the number of keys grows exactly when the
    key is new; adding twice is adding once; and no key ever holds an
    empty set. *)
Theorem stringmultimap_Add_laws (m : gmap string (gset string)) (key value : string) :
  (∀ k, stringmultimap.get (stringmultimap.Add m key value) k
        = if decide (key = k) then {[ value ]} ∪ stringmultimap.get m key
          else stringmultimap.get m k) ∧
  size (stringmultimap.Add m key value)
    = (if decide (m !! key = None) then S (size m) else size m) ∧
  stringmultimap.Add (stringmultimap.Add m key value) key value
    = stringmultimap.Add m key value ∧
  stored_nonempty ∅ ∧
  (stored_nonempty m → stored_nonempty (stringmultimap.Add m key value)).
Proof.
  split_and!.
  - intros k. apply get_Add.
  - unfold stringmultimap.Add. case_decide as Hk.
    + by apply map_size_insert_None.
    + apply map_size_insert_Some. by apply not_eq_None_Some.
  - unfold stringmultimap.Add at 1. rewrite get_Add, decide_True by done.
    unfold stringmultimap.Add, StringSet.Add. rewrite insert_insert_eq. f_equal.
    set_solver.
  - intros k X Hk. by rewrite lookup_empty in Hk.
  - intros Hne k X. unfold stringmultimap.Add, StringSet.Add. rewrite lookup_insert.
    case_decide; [|by apply Hne]. intros [= <-]. set_solver.
Qed.

(** * Further properties of the registry *)

Section Linking.
Context {Action : Type}.
Implicit Types g : Graph Action.

Lemma lookup_Add (m : gmap string (gset string)) key value k :
  stringmultimap.Add m key value !! k =
  if decide (key = k) then Some ({[ value ]} ∪ stringmultimap.get m key) else m !! k.
Proof. unfold stringmultimap.Add, StringSet.Add. by rewrite lookup_insert. Qed.

Lemma Add_comm (m : gmap string (gset string)) k1 v1 k2 v2 :
  stringmultimap.Add (stringmultimap.Add m k1 v1) k2 v2 =
  stringmultimap.Add (stringmultimap.Add m k2 v2) k1 v1.
Proof.
  apply map_eq. intros k. rewrite !lookup_Add, !get_Add.
  repeat case_decide; simplify_eq; try done. f_equal. set_solver.
Qed.

Lemma Add_idemp (m : gmap string (gset string)) k v :
  stringmultimap.Add (stringmultimap.Add m k v) k v = stringmultimap.Add m k v.
Proof.
  apply map_eq. intros k'. rewrite !lookup_Add, !get_Add.
  repeat case_decide; simplify_eq; try done. f_equal. set_solver.
Qed.
End Linking.

(** The graph does not depend on the order in which two dependencies
    are linked, nor does the error either call returns; and linking a
    dependency a second time changes nothing and returns what the first
    call returned. *)
Theorem LinkDependency_order {Action : Type} (g : Graph Action) (p1 n1 p2 n2 : string) :
  (LinkDependency (LinkDependency g p1 n1).1 p2 n2).1
    = (LinkDependency (LinkDependency g p2 n2).1 p1 n1).1 ∧
  (LinkDependency (LinkDependency g p2 n2).1 p1 n1).2 = (LinkDependency g p1 n1).2 ∧
  LinkDependency (LinkDependency g p1 n1).1 p1 n1
    = ((LinkDependency g p1 n1).1, (LinkDependency g p1 n1).2).
Proof.
  split_and!.
  - unfold LinkDependency. repeat (case_decide; simpl; try done).
    f_equal; apply Add_comm.
  - unfold LinkDependency. repeat (case_decide; simpl; try done).
  - unfold LinkDependency. repeat (case_decide; simpl; try done).
    f_equal. f_equal; apply Add_idemp.
Qed.

Section Storage.
Context {Action : Type}.
Implicit Types g : Graph Action.

Lemma stored_nonempty_Add (m : gmap string (gset string)) key value :
  stored_nonempty m → stored_nonempty (stringmultimap.Add m key value).
Proof.
  intros Hne k X. rewrite lookup_Add. case_decide; [|by apply Hne].
  intros [= <-]. set_solver.
Qed.

Lemma dom_Add (m : gmap string (gset string)) key value :
  dom (stringmultimap.Add m key value) = {[ key ]} ∪ dom m.
Proof. unfold stringmultimap.Add. by rewrite dom_insert_L. Qed.

Lemma built_keys g :
  built g →
  keys_registered g ∧ stored_nonempty (treeOrder g) ∧ stored_nonempty (graphOrder g).
Proof.
  induction 1 as [|g name action _ IH|g parent name _ IH].
  - unfold keys_registered, stored_nonempty. simpl. split_and!; set_solver.
  - unfold AddAction. case_decide; [done|]. simpl.
    destruct IH as ([Ht Hg] & ? & ?). split_and!; try done.
    split; simpl; rewrite dom_insert_L; set_solver.
  - destruct IH as ([Ht Hg] & ? & ?).
    unfold LinkDependency. repeat (case_decide; [done|]). simpl.
    assert (name ∈ dom (actions g)) by (by apply elem_of_dom, not_eq_None_Some).
    assert (parent ∈ dom (actions g)) by (by apply elem_of_dom, not_eq_None_Some).
    split_and!; try by apply stored_nonempty_Add.
    split; simpl; rewrite dom_Add; set_solver.
Qed.
End Storage.

(** In a graph built through the API every key of the two adjacency
    maps is a registered name and holds a non-empty set; so the roots,
    which [collectRoots] finds by the length of the set of dependents,
    are the registered names that never were the parent of a link. *)
Theorem built_storage {Action : Type} (E : Env) (g : Graph Action) :
  env_ok E → built g →
  keys_registered g ∧
  stored_nonempty (treeOrder g) ∧ stored_nonempty (graphOrder g) ∧
  (∀ n, n ∈ collectRoots E g ↔ n ∈ dom (actions g) ∧ graphOrder g !! n = None).
Proof.
  intros HE Hb. destruct (built_keys g Hb) as (Hk & Ht & Hg). split_and!; try done.
  intros n. rewrite (elem_of_collectRoots E g n HE).
  unfold dependents, stringmultimap.get.
  destruct (graphOrder g !! n) as [X|] eqn:Hn; simpl; [|naive_solver].
  split; intros [? HX]; [|done]. by destruct (Hg n X Hn).
Qed.

Lemma built_storage_witness :
  env_ok (sortedEnv false) ∧
  collectRoots (sortedEnv false) (chainGraph (λ n : string, n)) = ["b"] ∧
  graphOrder (chainGraph (λ n : string, n)) !! "b" = None.
Proof.
  destruct (built_storage (sortedEnv false) (chainGraph (λ n : string, n)))
    as (_ & _ & _ & Hroots).
  - apply env_ok_sortedEnv.
  - apply built_chainGraph.
  - split; [apply env_ok_sortedEnv|]. split; [vm_compute; reflexivity|].
    apply (Hroots "b"). vm_compute. apply list_elem_of_here.
Defined.

(** Whenever the caller cancels its context, [Resolve] on a graph
    built through the API returns, and its error is one of two: "no
    roots in graph", exactly when no registered name is without
    dependent, or "cycle detected", and then some name reachable from a
    root reaches itself.  Only names reachable from a root are launched,
    each once; and a graph with an action and no cycle gives no error. *)
Theorem Resolve_errors {Action : Type} (E : Env) (g : Graph Action) :
  env_ok E → built g →
  ∃ st0 r, Resolve E g = Some (st0, r) ∧
    (r = None ∨ r = Some err_no_roots ∨ r = Some err_cycle) ∧
    (r = Some err_no_roots ↔ ∀ n, ¬ is_root g n) ∧
    (r = Some err_no_roots → run_tasks st0 = []) ∧
    (r = Some err_cycle → reachable_cycle g) ∧
    NoDup (g_name <$> run_tasks st0) ∧
    (∀ n, n ∈ g_name <$> run_tasks st0 → reachable g n) ∧
    (acyclic g → actions g ≠ ∅ → r = None).
Proof.
  intros HE Hb. pose proof (built_wf g Hb) as Hwf.
  destruct (traverse_spec E g HE Hwf) as (s & r & Hrun & Hinv & Hre & Hok & Hko).
  assert (r = Some err_no_roots ↔ ∀ n, ¬ is_root g n) as Hnr.
  { split.
    - intros -> n Hn. destruct (Hko _ eq_refl) as [(_ & Hnil & _)|(Hc & _)]; [|done].
      apply (is_root_collectRoots E g HE) in Hn. rewrite Hnil in Hn.
      by apply elem_of_nil in Hn.
    - intros Hno. destruct r as [e|].
      + destruct (Hko _ eq_refl) as [(-> & _)|(_ & n & (x & Hx & _) & _)]; [done|].
        by destruct (Hno x).
      + destruct (Hok eq_refl) as (Hne & _).
        destruct (collectRoots E g) as [|x l] eqn:Hl; [done|].
        destruct (Hno x). apply (is_root_collectRoots E g HE). rewrite Hl.
        apply list_elem_of_here. }
  exists (launch E s r), r. split_and!; try done.
  - by apply Resolve_traverse.
  - destruct r as [e|]; [|by left]. right.
    destruct (Hko _ eq_refl) as [(-> & _)|(-> & _)]; [by left|by right].
  - intros ->. destruct (Hko _ eq_refl) as [(_ & _ & ->)|(Hc & _)]; done.
  - intros ->. by destruct (Hko _ eq_refl) as [(Hc & _)|(_ & Hc)].
  - by destruct Hinv as (Hnd & _).
  - intros n Hn. apply Hre. destruct Hinv as (_ & Hnames & _). by apply Hnames.
  - intros Hac Hne. destruct r as [e|]; [exfalso|done].
    destruct (Hko _ eq_refl) as [(-> & _)|(_ & n & _ & Hc)]; [|by apply (Hac n)].
    destruct (map_choose _ Hne) as (n & a & Hn).
    destruct (acyclic_all_reachable E g HE Hwf n Hac) as (x & Hx & _).
    { apply elem_of_dom. eauto. }
    by apply (proj1 Hnr eq_refl x).
Qed.

Lemma Resolve_errors_witness :
  ∃ st0, Resolve (sortedEnv false) (deepCycleGraph (λ n : string, n))
         = Some (st0, Some err_cycle) ∧
         reachable_cycle (deepCycleGraph (λ n : string, n)).
Proof.
  destruct (Resolve_errors (sortedEnv false) (deepCycleGraph (λ n : string, n)))
    as (st0 & r & Hres & _ & _ & _ & Hcyc & _).
  - apply env_ok_sortedEnv.
  - apply built_deepCycleGraph.
  - assert (snd <$> Resolve (sortedEnv false) (deepCycleGraph (λ n : string, n))
            = Some (Some err_cycle)) as Hr by (vm_compute; reflexivity).
    rewrite Hres in Hr. injection Hr as ->.
    exists st0. split; [exact Hres|]. by apply Hcyc.
Defined.

(** * Further properties of the running session *)

(** The barrier of [Resolve]: until [Resolve] has returned, every
    goroutine it launched is at or before [s.dfsWait.Wait()], whatever
    the schedule; nothing but [Enter] has been recorded, so no action has
    started. *)
Theorem Resolve_barrier {Action : Type} (E : Env) (mayCancel : bool)
    (g : Graph Action) (st0 st : session Action) (r : option error) :
  env_ok E → built g →
  Resolve E g = Some (st0, r) →
  rtc (step g mayCancel) st0 st →
  run_main st ≠ MReturned →
  run_dfsWait st = 1 ∧
  Forall (λ gr, waiting_barrier (g_pc gr) = true) (run_tasks st) ∧
  (∀ e, e ∈ run_trace st → ∃ n, e = EvEnter n).
Proof.
  intros HE Hb Hres Hsteps Hmain. pose proof (built_wf g Hb) as Hwf.
  destruct (Resolve_launched E g HE Hwf) as (s & r' & Hres' & _ & Hinv & Hbase).
  rewrite Hres in Hres'. injection Hres' as -> <-.
  destruct (sched_inv_steps g mayCancel _ _ _ Hbase (launch_sched_inv E g s r Hinv) Hsteps)
    as [Hbase' (Hdw & Hbar & _)].
  split_and!.
  - by rewrite decide_False in Hdw.
  - by apply Hbar.
  - eapply barrier_trace; [exact Hbase'|by apply Hbar].
Qed.

Lemma Resolve_barrier_witness :
  ∃ st0 st,
    Resolve (sortedEnv false) (chainGraph (λ n : string, n)) = Some (st0, None) ∧
    rtc (step (chainGraph (λ n : string, n)) false) st0 st ∧
    run_main st = MDefer ∧ length (run_trace st) = 2%nat ∧
    Forall (λ gr, waiting_barrier (g_pc gr) = true) (run_tasks st).
Proof.
  assert (∃ st, resolve_and_run (sortedEnv false) false
                  (chainGraph (λ n : string, n)) [LMain; LHook 0 1; LHook 1 2]
                = Some (st, None) ∧
                run_main st = MDefer ∧ length (run_trace st) = 2%nat)
    as (st & Hrun & Hm & Hlen)
    by (vm_compute; eexists; split_and!; reflexivity).
  destruct (resolve_and_run_steps _ _ _ _ _ _ Hrun) as (st0 & Hres & Hsteps).
  clear Hrun. exists st0, st.
  split; [exact Hres|]. split; [exact Hsteps|]. split; [exact Hm|]. split; [exact Hlen|].
  destruct (Resolve_barrier (sortedEnv false) false (chainGraph (λ n : string, n))
              st0 st None (env_ok_sortedEnv false) (built_chainGraph _) Hres Hsteps)
    as (_ & Hbar & _).
  - rewrite Hm. discriminate.
  - exact Hbar.
Defined.

(** The counters and the watcher: in every state of a resolution no
    wait group has a negative counter and every goroutine holds a
    registered action; a watcher exists only when [Resolve] returned no
    error, and once it is past [s.wg.Wait()] every goroutine has called
    [s.wg.Done()], so that no action is running or still to start when
    the watcher calls [done()]. *)
Theorem watcher_done_last {Action : Type} (E : Env) (mayCancel : bool)
    (g : Graph Action) (st0 st : session Action) (r : option error) :
  env_ok E → built g →
  Resolve E g = Some (st0, r) →
  rtc (step g mayCancel) st0 st →
  0 ≤ run_wg st ∧
  (∀ d c, run_waits st !! d = Some c → 0 ≤ c) ∧
  Forall (λ gr, is_Some (g_action gr)) (run_tasks st) ∧
  (run_watcher st ≠ WNone → r = None) ∧
  (run_watcher st = WDone ∨ run_watcher st = WEnd →
     run_wg st = 0 ∧
     Forall (λ gr, before_done (g_pc gr) = false ∧ g_pc gr ≠ PRunning) (run_tasks st)).
Proof.
  intros HE Hb Hres Hsteps. pose proof (built_wf g Hb) as Hwf.
  destruct (traverse_spec E g HE Hwf) as (s & r' & Hrun & Hinv & Hre & _).
  pose proof (launch_base_inv E g Hwf s r' Hinv) as Hbase.
  rewrite (Resolve_traverse E g _ _ Hrun) in Hres. injection Hres as <- ->.
  destruct (sched_inv_steps g mayCancel _ _ _ Hbase (launch_sched_inv E g s r Hinv) Hsteps)
    as [Hbase' (_ & _ & Hw0 & _)].
  split_and!.
  - destruct Hbase' as (_ & _ & _ & _ & _ & _ & _ & _ & ->). lia.
  - intros d c Hd. destruct Hbase' as (_ & _ & _ & _ & _ & _ & Hw & _).
    rewrite Hw in Hd. case_decide; [|done]. injection Hd as <-. lia.
  - eapply tasks_registered; [exact Hbase'|]. by apply (spawned_registered g Hwf).
  - intros Hw. destruct r as [e|]; [exfalso|done].
    assert (no_watcher (launch E s (Some e))) as Hno by (by split).
    by destruct (no_watcher_steps g mayCancel _ _ Hno Hsteps).
  - intros Hw. split; [by apply Hw0|].
    pose proof (wg_zero_all_done g _ _ Hbase' (Hw0 Hw)) as Hall.
    eapply Forall_impl; [exact Hall|]. intros gr Hbd. simpl in *.
    split; [done|]. intros Hpc. by rewrite Hpc in Hbd.
Qed.

Lemma watcher_done_last_witness :
  ∃ st0 st,
    Resolve (sortedEnv false) (chainGraph (λ n : string, n)) = Some (st0, None) ∧
    rtc (step (chainGraph (λ n : string, n)) false) st0 st ∧
    run_watcher st = WEnd ∧ run_wg st = 0 ∧
    Forall (λ gr, before_done (g_pc gr) = false ∧ g_pc gr ≠ PRunning) (run_tasks st).
Proof.
  assert (∃ st, resolve_and_run (sortedEnv false) false
                  (chainGraph (λ n : string, n)) run_chain = Some (st, None) ∧
                run_watcher st = WEnd)
    as (st & Hrun & Hw)
    by (vm_compute; eexists; split; reflexivity).
  destruct (resolve_and_run_steps _ _ _ _ _ _ Hrun) as (st0 & Hres & Hsteps).
  clear Hrun. exists st0, st.
  split; [exact Hres|]. split; [exact Hsteps|]. split; [exact Hw|].
  destruct (watcher_done_last (sortedEnv false) false (chainGraph (λ n : string, n))
              st0 st None (env_ok_sortedEnv false) (built_chainGraph _) Hres Hsteps)
    as (_ & _ & _ & _ & Hlast).
  exact (Hlast (or_intror Hw)).
Defined.


(** Once the returned context is done, a goroutine that has not
    passed its second look at the context never starts its action,
    whatever the schedule: it stays on the path that skips the action,
    and neither [Start] nor a call is ever recorded for its name. *)
Theorem done_stops_starting {Action : Type} (E : Env) (mayCancel : bool)
    (g : Graph Action) (st0 st st' : session Action) (r : option error)
    (i : nat) (gr : goroutine Action) :
  env_ok E → built g →
  Resolve E g = Some (st0, r) →
  rtc (step g mayCancel) st0 st →
  run_ctxDone st = true →
  run_tasks st !! i = Some gr → uncommitted (g_pc gr) = true →
  rtc (step g mayCancel) st st' →
  run_ctxDone st' = true ∧
  (∃ gr', run_tasks st' !! i = Some gr' ∧ g_name gr' = g_name gr ∧
          uncommitted (g_pc gr') = true) ∧
  (EvStart (g_name gr) ∉ run_trace st') ∧
  (∀ a, EvCall (g_name gr) a ∉ run_trace st').
Proof.
  intros HE Hb Hres Hsteps Hd Hi Hu Hsteps'. pose proof (built_wf g Hb) as Hwf.
  destruct (Resolve_launched E g HE Hwf) as (s & r' & Hres' & _ & Hinv & Hbase).
  rewrite Hres in Hres'. injection Hres' as -> <-.
  assert (rtc (step g mayCancel) (launch E s r) st') as Hall
    by (etrans; [exact Hsteps|exact Hsteps']).
  pose proof (base_inv_steps g mayCancel _ _ _ Hbase Hall) as Hbase'.
  destruct (uncommitted_steps g mayCancel _ _ _ _ Hd Hi Hu Hsteps') as (gr' & Hi' & Hn & Hu').
  assert (gr' ∈ run_tasks st') as Hgr' by (apply list_elem_of_lookup; eauto).
  split_and!.
  - exact (ctxDone_steps g mayCancel _ _ Hsteps' Hd).
  - by exists gr'.
  - intros Hin. pose proof Hbase' as (_ & _ & _ & _ & _ & Hmem & _).
    destruct (Hmem _ Hin) as (gr2 & Hgr2 & Hem).
    apply emitted_committed in Hem as [Hn2 Hc].
    assert (gr2 = gr') as -> by (eapply (task_unique g _ st'); try done; congruence).
    congruence.
  - intros a Hin.
    destruct (called_task g _ _ _ _ Hbase' Hin) as (gr2 & Hgr2 & Hn2 & _ & Hc).
    assert (gr2 = gr') as -> by (eapply (task_unique g _ st'); try done; congruence).
    destruct (g_pc gr') as [| | | | | | | | |[]|[]|[]|[]]; done.
Qed.

Lemma done_stops_starting_witness :
  ∃ st0 st st',
    Resolve (sortedEnv false) (chainGraph (λ n : string, n)) = Some (st0, None) ∧
    rtc (step (chainGraph (λ n : string, n)) true) st0 st ∧
    rtc (step (chainGraph (λ n : string, n)) true) st st' ∧
    run_ctxDone st = true ∧
    (EvStart "a" ∉ run_trace st') ∧ (∀ a, EvCall "a" a ∉ run_trace st').
Proof.
  assert (∃ st st', resolve_and_run (sortedEnv false) true
                  (chainGraph (λ n : string, n)) [LMain; LMain; LHook 0 1; LCancel]
                = Some (st, None) ∧
                run (chainGraph (λ n : string, n)) true
                  [LTask 0; LTask 0; LTask 0; LNotify 0 "b"; LTask 0; LHook 0 2] st
                = Some st' ∧
                run_ctxDone st = true ∧
                run_tasks st !! 0%nat = Some (mkGoroutine "a" (Some "a") PDfsWait))
    as (st & st' & Hrun & Hrun' & Hd & Hi)
    by (vm_compute; do 2 eexists; split_and!; reflexivity).
  destruct (resolve_and_run_steps _ _ _ _ _ _ Hrun) as (st0 & Hres & Hsteps).
  pose proof (run_steps _ _ _ _ _ Hrun') as Hsteps'.
  clear Hrun Hrun'. exists st0, st, st'.
  split; [exact Hres|]. split; [exact Hsteps|]. split; [exact Hsteps'|].
  split; [exact Hd|].
  destruct (done_stops_starting (sortedEnv false) true (chainGraph (λ n : string, n))
              st0 st st' None 0 (mkGoroutine "a" (Some "a") PDfsWait)
              (env_ok_sortedEnv false) (built_chainGraph _) Hres Hsteps Hd Hi eq_refl Hsteps')
    as (_ & _ & Hs & Hc).
  split; [exact Hs|exact Hc].
Defined.





(** The contract of the recorder.  In every state of a resolution the
    events recorded about a name, oldest first, are a beginning of
    [Enter], [Start], the call of the registered action, its return,
    [Finish], [Exit], or are [Enter] then [Exit] when the action was
    skipped; so each callback is called at most once for a name, [Enter]
    first and [Exit] last, and [Start] and [Finish] enclose the action. *)
Theorem recorder_order {Action : Type} (E : Env) (mayCancel : bool)
    (g : Graph Action) (st0 st : session Action) (r : option error) (name : string) :
  env_ok E → built g →
  Resolve E g = Some (st0, r) →
  rtc (step g mayCancel) st0 st →
  rev (events_of name (run_trace st)) = [] ∨
  rev (events_of name (run_trace st)) = [EvEnter name; EvExit name] ∨
  ∃ a, actions g !! name = Some a ∧
       rev (events_of name (run_trace st)) `prefix_of` life name a.
Proof.
  intros HE Hb Hres Hsteps. pose proof (built_wf g Hb) as Hwf.
  destruct (traverse_spec E g HE Hwf) as (s & r' & Hrun & Hinv & Hre & _).
  pose proof (launch_base_inv E g Hwf s r' Hinv) as Hbase.
  rewrite (Resolve_traverse E g _ _ Hrun) in Hres. injection Hres as <- ->.
  pose proof (base_inv_steps g mayCancel _ _ _ Hbase Hsteps) as Hbase'.
  pose proof (trace_inv_steps g mayCancel _ _ _ Hbase (launch_trace_inv E g s r Hinv) Hsteps)
    as Htrace.
  destruct (events_of_task g _ st name Hbase' Htrace) as [[_ ->]|(gr & Hgr & <- & ->)];
    [by left|right].
  assert (is_Some (g_action gr)) as [a Ha].
  { assert (Forall (λ gr, is_Some (g_action gr)) (run_tasks st)) as Hacts.
    { eapply tasks_registered; [exact Hbase'|]. by apply (spawned_registered g Hwf). }
    exact (proj1 (Forall_forall _ _) Hacts gr Hgr). }
  destruct (emitted_life gr a Ha) as [Hskip|Hlife]; [by left|right].
  exists a. split; [|done].
  destruct Hbase' as (_ & _ & Hact & _).
  by rewrite <- (proj1 (Forall_forall _ _) Hact gr Hgr).
Qed.

Lemma recorder_order_witness :
  ∃ st0 st,
    Resolve (sortedEnv false) (chainGraph (λ n : string, n)) = Some (st0, None) ∧
    rtc (step (chainGraph (λ n : string, n)) false) st0 st ∧
    rev (events_of "b" (run_trace st)) = life "b" "b".
Proof.
  assert (∃ st, resolve_and_run (sortedEnv false) false
                  (chainGraph (λ n : string, n)) run_chain = Some (st, None) ∧
                rev (events_of "b" (run_trace st)) = life "b" "b")
    as (st & Hrun & Hev)
    by (vm_compute; eexists; split; reflexivity).
  destruct (resolve_and_run_steps _ _ _ _ _ _ Hrun) as (st0 & Hres & Hsteps).
  clear Hrun. exists st0, st.
  split; [exact Hres|]. split; [exact Hsteps|].
  destruct (recorder_order (sortedEnv false) false (chainGraph (λ n : string, n))
              st0 st None "b" (env_ok_sortedEnv false) (built_chainGraph _) Hres Hsteps)
    as [Hnil|[Hskip|(a & Ha & Hpre)]].
  - rewrite Hev in Hnil. discriminate.
  - rewrite Hev in Hskip. discriminate.
  - exact Hev.
Defined.

(** * What the statistics know *)

Section NamesOfStatistics.
Variable range : gset string → list string.
Hypothesis Hrange : ∀ X, range X ≡ₚ elements X.

Lemma foldl_Add (l : list string) : ∀ ss : gset string,
  foldl StringSet.Add ss l = ss ∪ list_to_set l.
Proof.
  induction l as [|x l IH]; intros ss; simpl.
  - set_solver.
  - rewrite IH. unfold StringSet.Add. set_solver.
Qed.

Lemma addKeys_dom (ss : gset string) (m : gmap string Z) :
  Statistics.addKeys range ss m = ss ∪ dom m.
Proof.
  unfold Statistics.addKeys. rewrite foldl_Add. f_equal.
  apply set_eq. intros x. by rewrite elem_of_list_to_set, (Hrange (dom m)), elem_of_elements.
Qed.

Lemma Names_dom (s : Statistics.t) :
  Statistics.Names range s =
  dom (Statistics.enter s) ∪ dom (Statistics.start s) ∪
  dom (Statistics.finish s) ∪ dom (Statistics.exit s).
Proof. unfold Statistics.Names. rewrite !addKeys_dom. set_solver. Qed.
End NamesOfStatistics.

Section StatsNames.
Context {Action : Type}.
Variable g : Graph Action.
Variable mayCancel : bool.
Implicit Types st : session Action.
Implicit Types gr : goroutine Action.

Lemma stats_names_inv_exec names l st st' :
  base_inv g names st → stats_names_inv names st →
  exec g mayCancel l st = Some st' → stats_names_inv names st'.
Proof.
  intros Hbase Hinv Hexec.
  assert (∀ k gk, run_tasks st !! k = Some gk → g_name gk ∈ names) as Hin.
  { intros k gk Hk. destruct Hbase as (<- & _). apply list_elem_of_fmap.
    exists gk. split; [done|]. apply list_elem_of_lookup. eauto. }
  exec_cases Hexec; try exact Hinv;
    try (pose proof (Hin _ _ Hgr) as Hname; simpl in Hname);
    unfold stats_names_inv, notify; simpl;
    repeat match goal with |- context [match ?x with _ => _ end] =>
      destruct x eqn:?; simpl end;
    try exact Hinv;
    (intros n Hn; destruct (Hinv n Hn) as (? & ? & ? & ?);
     unfold Statistics.recordTime;
     rewrite ?lookup_insert_ne by (intros <-; done); done).
Qed.

Lemma stats_names_inv_steps names st st' :
  base_inv g names st → stats_names_inv names st →
  rtc (step g mayCancel) st st' → stats_names_inv names st'.
Proof.
  intros Hbase Hinv Hsteps. revert Hbase Hinv.
  induction Hsteps as [|st1 st2 st3 [l Hl] _ IH]; intros Hbase Hinv; [done|].
  apply IH.
  - by eapply base_inv_exec.
  - by eapply stats_names_inv_exec.
Qed.

Lemma in_emitted_trace st gr (e : event Action) :
  trace_inv st → gr ∈ run_tasks st → e ∈ emitted gr → e ∈ run_trace st.
Proof.
  intros Hinv Hgr He. rewrite <- (proj1 (Forall_forall _ _) Hinv gr Hgr) in He.
  unfold events_of in He. by apply list_elem_of_filter in He as [_ ?].
Qed.

Lemma enter_in_emitted gr :
  EvEnter (g_name gr) ∈ emitted gr ↔ g_pc gr ≠ PEnter.
Proof.
  unfold emitted, called. destruct gr as [name act p]. simpl.
  destruct p as [| | | | | | | | |[]|[]|[]|[]], act; simpl;
    rewrite ?elem_of_cons, ?elem_of_nil; naive_solver.
Qed.

Lemma stamps_entered p oe os ofn ox now :
  stamps_ok p oe os ofn ox now →
  (is_Some oe ↔ p ≠ PEnter) ∧
  (is_Some os → is_Some oe) ∧ (is_Some ofn → is_Some oe) ∧ (is_Some ox → is_Some oe).
Proof.
  destruct p as [| | | | | | | | |[]|[]|[]|[]]; simpl; intros H;
    repeat match goal with
           | Hx : ∃ _, _ |- _ => destruct Hx as [? Hx]
           | Hx : _ ∧ _ |- _ => destruct Hx as [? ?]
           end; subst; split_and!; try done; try (intros [? ?]; done);
    split; try done; eauto.
Qed.
End StatsNames.

Lemma launch_stats_names_inv {Action : Type} (E : Env) (s : search Action)
    (r : option error) names :
  stats_names_inv names (launch E s r).
Proof. intros n _. unfold launch. simpl. by rewrite !lookup_empty. Qed.

(** [Names] does not depend on the order in which the four maps are
    ranged over, and in every state of a resolution it is the set of
    keys of the [enter] map: the names whose goroutine has called
    [Enter], all of them reachable from a root. *)
Theorem Names_entered {Action : Type} (E : Env) (mayCancel : bool)
    (g : Graph Action) (st0 st : session Action) (r : option error)
    (range : gset string → list string) :
  env_ok E → built g →
  Resolve E g = Some (st0, r) →
  rtc (step g mayCancel) st0 st →
  (∀ X, range X ≡ₚ elements X) →
  Statistics.Names range (run_stats st) = dom (Statistics.enter (run_stats st)) ∧
  (∀ n, n ∈ Statistics.Names range (run_stats st) ↔ EvEnter n ∈ run_trace st) ∧
  (∀ n, n ∈ Statistics.Names range (run_stats st) → reachable g n).
Proof.
  intros HE Hb Hres Hsteps Hrange. pose proof (built_wf g Hb) as Hwf.
  destruct (traverse_spec E g HE Hwf) as (s & r' & Hrun & Hinv & Hre & _).
  pose proof (launch_base_inv E g Hwf s r' Hinv) as Hbase.
  rewrite (Resolve_traverse E g _ _ Hrun) in Hres. injection Hres as <- ->.
  pose proof (base_inv_steps g mayCancel _ _ _ Hbase Hsteps) as Hbase'.
  pose proof (trace_inv_steps g mayCancel _ _ _ Hbase (launch_trace_inv E g s r Hinv) Hsteps)
    as Htrace.
  pose proof (stats_inv_steps g mayCancel _ _ _ Hbase (launch_stats_inv E g s r Hinv) Hsteps)
    as [_ Hstats].
  pose proof (stats_names_inv_steps g mayCancel _ _ _ Hbase
                (launch_stats_names_inv E s r _) Hsteps) as Hdom.
  assert (∀ n, (is_Some (Statistics.enter (run_stats st) !! n) ↔ EvEnter n ∈ run_trace st) ∧
               (is_Some (Statistics.enter (run_stats st) !! n) → reachable g n) ∧
               (is_Some (Statistics.start (run_stats st) !! n) →
                is_Some (Statistics.enter (run_stats st) !! n)) ∧
               (is_Some (Statistics.finish (run_stats st) !! n) →
                is_Some (Statistics.enter (run_stats st) !! n)) ∧
               (is_Some (Statistics.exit (run_stats st) !! n) →
                is_Some (Statistics.enter (run_stats st) !! n))) as Hall.
  { intros n.
    destruct (events_of_task g _ st n Hbase' Htrace) as [[Hnin Hev]|(gr & Hgr & <- & Hev)].
    - destruct (Hdom n Hnin) as (-> & -> & -> & ->).
      split_and!; try (intros [? ?]; done). split; [intros [? ?]; done|].
      intros Hin. assert (EvEnter n ∈ events_of n (run_trace st)) as He.
      { unfold events_of. apply list_elem_of_filter. by split. }
      rewrite Hev in He. by apply elem_of_nil in He.
    - pose proof (proj1 (Forall_forall _ _) Hstats gr Hgr) as Hst. unfold stamps_of in Hst.
      apply stamps_entered in Hst as (Hent & ? & ? & ?). split_and!; try done.
      + rewrite Hent, <- enter_in_emitted. split.
        * by apply in_emitted_trace.
        * intros Hin. rewrite <- Hev. unfold events_of. apply list_elem_of_filter.
          by split.
      + intros _. apply Hre. destruct Hinv as (_ & Hnames & _). apply Hnames.
        destruct Hbase' as (<- & _). apply list_elem_of_fmap. eauto. }
  assert (Statistics.Names range (run_stats st) = dom (Statistics.enter (run_stats st)))
    as Hnames.
  { rewrite (Names_dom range Hrange). apply set_eq. intros n.
    rewrite !elem_of_union, !elem_of_dom. destruct (Hall n) as (_ & _ & ? & ? & ?).
    naive_solver. }
  split_and!; [done|..]; intros n; rewrite Hnames, elem_of_dom; by apply Hall.
Qed.

Lemma Names_entered_witness :
  ∃ st0 st,
    Resolve (sortedEnv false) (chainGraph (λ n : string, n)) = Some (st0, None) ∧
    rtc (step (chainGraph (λ n : string, n)) false) st0 st ∧
    Statistics.Names elements (run_stats st) = {[ "a" ]} ∧
    ("a" ∈ Statistics.Names elements (run_stats st) ↔ EvEnter "a" ∈ run_trace st).
Proof.
  assert (∃ st, resolve_and_run (sortedEnv false) false
                  (chainGraph (λ n : string, n)) [LMain; LMain; LHook 0 1; LTask 0]
                = Some (st, None) ∧
                Statistics.Names elements (run_stats st) = {[ "a" ]})
    as (st & Hrun & Hn)
    by (vm_compute; eexists; split; reflexivity).
  destruct (resolve_and_run_steps _ _ _ _ _ _ Hrun) as (st0 & Hres & Hsteps).
  clear Hrun. exists st0, st.
  split; [exact Hres|]. split; [exact Hsteps|]. split; [exact Hn|].
  destruct (Names_entered (sortedEnv false) false (chainGraph (λ n : string, n))
              st0 st None elements (env_ok_sortedEnv false) (built_chainGraph _)
              Hres Hsteps) as (_ & Hiff & _).
  - intros X. reflexivity.
  - exact (Hiff "a").
Defined.

Section Durations.
Context {Action : Type}.
Implicit Types gr : goroutine Action.

Lemma Sub_nonneg (a b : Z) : a ≤ b → 0 ≤ Statistics.Sub b a.
Proof.
  intros Hle. unfold Statistics.Sub, Statistics.maxDuration, Statistics.minDuration.
  repeat case_decide; lia.
Qed.

Lemma Sub_mono (a b a' b' : Z) :
  b - a ≤ b' - a' → Statistics.Sub b a ≤ Statistics.Sub b' a'.
Proof.
  intros Hle. unfold Statistics.Sub, Statistics.maxDuration, Statistics.minDuration.
  repeat case_decide; lia.
Qed.

(** What the three durations of a goroutine are at its program point. *)
Lemma stamps_durations (s : Statistics.t) (now : Z) gr :
  stamps_of s now gr →
  let n := g_name gr in
  0 ≤ Statistics.Wait s n ∧ 0 ≤ Statistics.Action s n ∧ 0 ≤ Statistics.Total s n ∧
  (Statistics.Wait s n ≠ 0 → EvStart n ∈ emitted gr) ∧
  (Statistics.Action s n ≠ 0 → EvFinish n ∈ emitted gr) ∧
  (Statistics.Total s n ≠ 0 → EvExit n ∈ emitted gr) ∧
  (EvExit n ∈ emitted gr →
     Statistics.Wait s n ≤ Statistics.Total s n ∧
     Statistics.Action s n ≤ Statistics.Total s n).
Proof.
  unfold stamps_of. destruct gr as [name act p]. cbn [g_name g_pc]. cbv zeta.
  assert (∀ l : list (event Action), EvExit name ∈ EvExit name :: l) as Hhere
    by (intros; apply list_elem_of_here).
  destruct p as [| | | | | | | | |[]|[]|[]|[]]; cbn [stamps_ok]; intros H;
    repeat match goal with
           | Hx : ∃ _, _ |- _ => destruct Hx as [? Hx]
           | Hx : _ ∧ _ |- _ => destruct Hx as [? ?]
           end;
    unfold Statistics.Wait, Statistics.Action, Statistics.Total, Statistics.duration;
    repeat match goal with Hx : _ !! _ = _ |- _ => rewrite Hx end;
    cbv beta iota;
    (split_and!;
     [ first [ done | apply Sub_nonneg; lia ]
     | first [ done | apply Sub_nonneg; lia ]
     | first [ done | apply Sub_nonneg; lia ]
     | first [ done | intros _; unfold emitted, called; cbn [g_pc g_name g_action];
                      destruct act; rewrite ?elem_of_cons, ?elem_of_app, ?elem_of_cons;
                      tauto ]
     | first [ done | intros _; unfold emitted, called; cbn [g_pc g_name g_action];
                      destruct act; rewrite ?elem_of_cons, ?elem_of_app, ?elem_of_cons;
                      tauto ]
     | first [ done | intros _; unfold emitted, called; cbn [g_pc g_name g_action];
                      apply Hhere ]
     | first
         [ intros _; split; first [ apply Sub_nonneg; lia | apply Sub_mono; lia ]
         | unfold emitted, called; cbn [g_pc g_name g_action]; intros Hex; exfalso;
           destruct act; cbn [app] in Hex;
           rewrite ?elem_of_cons, ?elem_of_nil in Hex; naive_solver ] ]).
Qed.
End Durations.

(** The durations of the statistics in every state of a resolution,
    for every name and without bound on the clock: wait, action and
    total are never negative; wait is zero unless [Start] was recorded
    for the name, action is zero unless [Finish] was, total is zero
    unless [Exit] was; and once [Exit] was recorded neither wait nor
    action exceeds the total. *)
Theorem durations_bounds {Action : Type} (E : Env) (mayCancel : bool)
    (g : Graph Action) (st0 st : session Action) (r : option error) (name : string) :
  env_ok E → built g →
  Resolve E g = Some (st0, r) →
  rtc (step g mayCancel) st0 st →
  let W := Statistics.Wait (run_stats st) name in
  let A := Statistics.Action (run_stats st) name in
  let T := Statistics.Total (run_stats st) name in
  0 ≤ W ∧ 0 ≤ A ∧ 0 ≤ T ∧
  (EvStart name ∉ run_trace st → W = 0) ∧
  (EvFinish name ∉ run_trace st → A = 0) ∧
  (EvExit name ∉ run_trace st → T = 0) ∧
  (EvExit name ∈ run_trace st → W ≤ T ∧ A ≤ T).
Proof.
  intros HE Hb Hres Hsteps. pose proof (built_wf g Hb) as Hwf.
  destruct (traverse_spec E g HE Hwf) as (s & r' & Hrun & Hinv & Hre & _).
  pose proof (launch_base_inv E g Hwf s r' Hinv) as Hbase.
  rewrite (Resolve_traverse E g _ _ Hrun) in Hres. injection Hres as <- ->.
  pose proof (base_inv_steps g mayCancel _ _ _ Hbase Hsteps) as Hbase'.
  pose proof (trace_inv_steps g mayCancel _ _ _ Hbase (launch_trace_inv E g s r Hinv) Hsteps)
    as Htrace.
  pose proof (stats_inv_steps g mayCancel _ _ _ Hbase (launch_stats_inv E g s r Hinv) Hsteps)
    as [_ Hstats].
  pose proof (stats_names_inv_steps g mayCancel _ _ _ Hbase
                (launch_stats_names_inv E s r _) Hsteps) as Hdom.
  cbv zeta.
  destruct (events_of_task g _ st name Hbase' Htrace)
    as [[Hnin Hev]|(gr & Hgr & <- & Hev)].
  - destruct (Hdom name Hnin) as (He & Hs & Hf & Hx).
    unfold Statistics.Wait, Statistics.Action, Statistics.Total, Statistics.duration.
    rewrite He, Hs, Hf, Hx. split_and!; try done.
  - pose proof (proj1 (Forall_forall _ _) Hstats gr Hgr) as Hst.
    destruct (stamps_durations _ _ _ Hst) as (HW & HA & HT & HWs & HAf & HTx & Hle).
    split_and!; try done.
    + intros Hn. destruct (decide (Statistics.Wait (run_stats st) (g_name gr) = 0));
        [done|]. destruct Hn. apply (in_emitted_trace st gr); auto.
    + intros Hn. destruct (decide (Statistics.Action (run_stats st) (g_name gr) = 0));
        [done|]. destruct Hn. apply (in_emitted_trace st gr); auto.
    + intros Hn. destruct (decide (Statistics.Total (run_stats st) (g_name gr) = 0));
        [done|]. destruct Hn. apply (in_emitted_trace st gr); auto.
    + intros Hin. apply Hle. rewrite <- Hev. unfold events_of.
      apply list_elem_of_filter. by split.
Qed.

Lemma durations_bounds_witness :
  ∃ st0 st,
    Resolve (sortedEnv false) (singleGraph (λ n : string, n)) = Some (st0, None) ∧
    rtc (step (singleGraph (λ n : string, n)) false) st0 st ∧
    Statistics.Wait (run_stats st) "a" = 1 ∧ Statistics.Total (run_stats st) "a" = 4 ∧
    EvExit "a" ∈ run_trace st ∧
    Statistics.Wait (run_stats st) "a" ≤ Statistics.Total (run_stats st) "a".
Proof.
  assert (observe (sortedEnv false) false (singleGraph (λ n : string, n)) run_single "a"
          = Some ([EvExit "a"; EvFinish "a"; EvReturn "a"; EvCall "a" "a"; EvStart "a";
                   EvEnter "a"], (1, 1, 4), None)) as Hobs
    by (vm_compute; reflexivity).
  unfold observe in Hobs.
  destruct (resolve_and_run _ _ _ _) as [[st r]|] eqn:Hrun; [|discriminate].
  injection Hobs as Htr HW HA HT ->.
  destruct (resolve_and_run_steps _ _ _ _ _ _ Hrun) as (st0 & Hres & Hsteps).
  clear Hrun. exists st0, st.
  assert (EvExit "a" ∈ run_trace st) as Hexit
    by (rewrite Htr; apply list_elem_of_here).
  split; [exact Hres|]. split; [exact Hsteps|]. split; [exact HW|]. split; [exact HT|].
  split; [exact Hexit|].
  destruct (durations_bounds (sortedEnv false) false (singleGraph (λ n : string, n))
              st0 st None "a" (env_ok_sortedEnv false) (built_singleGraph _) Hres Hsteps)
    as (_ & _ & _ & _ & _ & _ & Hle).
  exact (proj1 (Hle Hexit)).
Defined.
